(** * The TINY parser (parse.c): a shallow embedding and its properties

    The recursive-descent parser of parse.c is embedded as a family of
    state-passing functions over the parser's global variables (the
    lookahead [token], the scanner's [tokenString] and [lineno], the
    [Error] flag and the [listing] sink).  The C functions are mutually
    recursive and contain loops, so every rule takes a [fuel] argument
    that bounds the depth of calls; running out of fuel is the only way
    a rule yields [None].  The first part of the file holds the embedding
    and the notions the statements are written in; the second part holds
    the proofs: fuel never changes a result, every rule returns given fuel
    linear in the number of tokens left, and the properties of the
    parser that rest on these. *)

From Stdlib Require Import List String Ascii ZArith Bool Arith Lia.
Import ListNotations.
Local Open Scope string_scope.
Local Open Scope list_scope.
Set Warnings "-register-all,-non-full-mutual".

(** ** Tokens *)

(** Modelled from the spec: the token kinds of globals.h (the header is
    not among the sources; the kinds are those the parser and section 6
    name). *)
Inductive TokenType : Set :=
  | ENDFILE
  | IF | THEN | ELSE | END | REPEAT | UNTIL | READ | WRITE
  | WHILE | DO | ENDWHILE | DOWNTO | TO | FOR | ENDDO
  | ID | NUM
  | ASSIGN | EQ | LT | GT | PLUS | MINUS | TIMES | OVER | MOD
  | LPAREN | RPAREN | SEMI.

Scheme Equality for TokenType.

(** [a == b] on token kinds. *)
Definition tok_eqb : TokenType -> TokenType -> bool := TokenType_beq.

(** One token as the scanner delivers it: its kind, its lexeme and the
    source line it was read on. *)
Record Token : Set := mkToken {
  tk_kind : TokenType;
  tk_string : string;
  tk_line : nat }.

(** ** Syntax trees *)

Inductive StmtKind : Set :=
  IfK | RepeatK | AssignK | ReadK | WriteK | WhileK | DoWhileK | ForK.

Inductive ExpKind : Set := OpK | ConstK | IdK.

Inductive NodeKind : Set :=
  | StmtK (kind : StmtKind)
  | ExpK (kind : ExpKind).

(** The [attr] union; [NoAttr] is the field of a node that nothing has
    been stored into yet. *)
Inductive Attr : Set :=
  | NoAttr
  | AttrOp (op : TokenType)
  | AttrVal (val : Z)
  | AttrName (name : string).

(** Modelled from the spec: the tree node of globals.h.  A pointer to a
    node is an [option]; [None] is NULL. *)
Inductive TreeNode : Set := mkTreeNode {
  child0 : option TreeNode;
  child1 : option TreeNode;
  child2 : option TreeNode;
  sibling : option TreeNode;
  node_lineno : nat;
  nodekind : NodeKind;
  attr : Attr }.

(** [n->child[i] = c] *)
Definition set_child (i : nat) (n : TreeNode) (c : option TreeNode) : TreeNode :=
  match i with
  | 0 => mkTreeNode c (child1 n) (child2 n) (sibling n) (node_lineno n) (nodekind n) (attr n)
  | 1 => mkTreeNode (child0 n) c (child2 n) (sibling n) (node_lineno n) (nodekind n) (attr n)
  | 2 => mkTreeNode (child0 n) (child1 n) c (sibling n) (node_lineno n) (nodekind n) (attr n)
  | _ => n
  end.

Definition set_attr (n : TreeNode) (a : Attr) : TreeNode :=
  mkTreeNode (child0 n) (child1 n) (child2 n) (sibling n) (node_lineno n) (nodekind n) a.

(** The last node of the sibling chain that starts at [n] gets [q] as its
    sibling.  In [stmt_sequence] the pointer [p] always designates that
    last node, so this is [p->sibling = q]. *)
Fixpoint append_sibling (n q : TreeNode) : TreeNode :=
  match n with
  | mkTreeNode c0 c1 c2 None ln k a => mkTreeNode c0 c1 c2 (Some q) ln k a
  | mkTreeNode c0 c1 c2 (Some m) ln k a =>
      mkTreeNode c0 c1 c2 (Some (append_sibling m q)) ln k a
  end.

(** ** The parser's global state *)

(** What the parser writes to [listing]. *)
Inductive Output : Set :=
  | Text (s : string)
  | SyntaxErrorAt (line : nat) (message : string)
  | TokenText (t : TokenType) (lexeme : string).

Record State : Set := mkState {
  token : TokenType;        (* static TokenType token *)
  tokenString : string;     (* lexeme of the current token *)
  lineno : nat;             (* source line number *)
  source : list Token;      (* what the scanner has still to deliver *)
  Error : bool;             (* the shared error flag *)
  listing : list Output }.  (* the listing file, oldest output first *)

(** Modelled from the spec: [getToken] of scan.c, a pull on the token
    source.  Once the source is exhausted it yields ENDFILE, again and
    again. *)
Definition getToken (s : State) : State :=
  match source s with
  | tk :: rest =>
      mkState (tk_kind tk) (tk_string tk) (tk_line tk) rest (Error s) (listing s)
  | [] => mkState ENDFILE EmptyString (lineno s) [] (Error s) (listing s)
  end.

Definition fprintf_listing (o : Output) (s : State) : State :=
  mkState (token s) (tokenString s) (lineno s) (source s) (Error s) (listing s ++ [o]).

(** Modelled from the spec: [printToken] of util.c writes the offending
    token's text to the listing. *)
Definition printToken (s : State) : State :=
  fprintf_listing (TokenText (token s) (tokenString s)) s.

Definition newline : string := String (ascii_of_nat 10) EmptyString.

Definition syntaxError (message : string) (s : State) : State :=
  let s1 := fprintf_listing (Text (newline ++ ">>> ")%string) s in
  let s2 := fprintf_listing (SyntaxErrorAt (lineno s1) message) s1 in
  mkState (token s2) (tokenString s2) (lineno s2) (source s2) true (listing s2).

Definition unexpected_token : string := "unexpected token -> ".

(** [match] of parse.c ([match] is a keyword here). *)
Definition match_ (expected : TokenType) (s : State) : State :=
  if tok_eqb (token s) expected then getToken s
  else fprintf_listing (Text "      ") (printToken (syntaxError unexpected_token s)).

(** Modelled from the spec: [newStmtNode] and [newExpNode] of util.c give
    a fresh node of the asked kind, all children and the sibling null,
    stamped with the current line.  The spec says nothing of the
    attribute of a fresh node: its field is [NoAttr], not written, until
    a rule stores into it. *)
Definition newStmtNode (kind : StmtKind) (s : State) : option TreeNode :=
  Some (mkTreeNode None None None None (lineno s) (StmtK kind) NoAttr).

Definition newExpNode (kind : ExpKind) (s : State) : option TreeNode :=
  Some (mkTreeNode None None None None (lineno s) (ExpK kind) NoAttr).

(** Modelled from the spec: [copyString] of util.c returns a copy of its
    argument. *)
Definition copyString (str : string) : string := str.

(** [strtol(str, NULL, 10)] of the C library: leading white space, an
    optional sign, then decimal digits up to the first other character.
    [decimal] is the number so written; [strtol] returns it as a [long]
    (64 bits), [LONG_MAX] or [LONG_MIN] standing for a number beyond that
    range. *)
Definition digit_of (c : ascii) : option Z :=
  let n := nat_of_ascii c in
  if ((48 <=? n) && (n <=? 57))%nat then Some (Z.of_nat (n - 48)) else None.

Fixpoint atoi_digits (acc : Z) (str : string) : Z :=
  match str with
  | EmptyString => acc
  | String c rest =>
      match digit_of c with
      | Some d => atoi_digits (10 * acc + d) rest
      | None => acc
      end
  end.

Definition is_space (c : ascii) : bool :=
  let n := nat_of_ascii c in ((n =? 32) || ((9 <=? n) && (n <=? 13)))%nat.

Fixpoint decimal (str : string) : Z :=
  match str with
  | EmptyString => 0%Z
  | String c rest =>
      if is_space c then decimal rest
      else if Ascii.eqb c "-" then (- atoi_digits 0 rest)%Z
      else if Ascii.eqb c "+" then atoi_digits 0 rest
      else atoi_digits 0 str
  end.

Definition LONG_MAX : Z := 9223372036854775807%Z.
Definition LONG_MIN : Z := (-9223372036854775808)%Z.

Definition strtol (str : string) : Z :=
  Z.max LONG_MIN (Z.min LONG_MAX (decimal str)).

(** The conversion of a [long] to an [int] of 32 bits in two's
    complement: the value modulo 2^32. *)
Definition to_int (z : Z) : Z :=
  ((z + 2147483648) mod 4294967296 - 2147483648)%Z.

(** [atoi] of the C library, whose result is the [int] that
    [t->attr.val] receives: [(int) strtol(str, NULL, 10)].  A lexeme
    beyond the range of [int] does not keep its value: [99999999999]
    yields [1215752191]. *)
Definition atoi (str : string) : Z := to_int (strtol str).

(** ** The parsing monad *)

(** A rule reads and updates the global state and returns a value; [None]
    means the fuel ran out. *)
Definition Parser (A : Type) : Type := State -> option (A * State).

(** [return a;] *)
Definition ret {A} (a : A) : Parser A := fun s => Some (a, s).

(** [p] and then [k], on the value and in the state that [p] returns. *)
Definition bind {A B} (p : Parser A) (k : A -> Parser B) : Parser B :=
  fun s => match p s with
           | Some (a, s') => k a s'
           | None => None
           end.

(** A call that the fuel does not allow. *)
Definition out_of_fuel {A} : Parser A := fun _ => None.

(** A statement of the C code that only changes the globals. *)
Definition exec (f : State -> State) : Parser unit := fun s => Some (tt, f s).

(** An expression of the C code that only reads the globals. *)
Definition eval {A} (f : State -> A) : Parser A := fun s => Some (f s, s).

Declare Scope parser_scope.
Delimit Scope parser_scope with parser.
Notation "x <- p ;; k" := (bind p (fun x => k))
  (at level 61, p at next level, right associativity) : parser_scope.
Notation "p ;; k" := (bind p (fun _ => k))
  (at level 61, right associativity) : parser_scope.
Local Open Scope parser_scope.

(** [if (t != NULL) t->child[i] = rule();] *)
Definition assign_child (i : nat) (t : option TreeNode)
    (rule : Parser (option TreeNode)) : Parser (option TreeNode) :=
  match t with
  | Some n => c <- rule ;; ret (Some (set_child i n c))
  | None => ret None
  end.

(** [if ((t != NULL) && (token == kind)) t->attr.name = copyString(tokenString);] *)
Definition assign_name (kind : TokenType) (t : option TreeNode)
    : Parser (option TreeNode) :=
  fun s =>
    match t with
    | Some n =>
        if tok_eqb (token s) kind
        then Some (Some (set_attr n (AttrName (copyString (tokenString s)))), s)
        else Some (t, s)
    | None => Some (t, s)
    end.

(** The lookahead kinds at which the loop of [stmt_sequence] stops. *)
Definition ends_sequence (t : TokenType) : bool :=
  match t with
  | ENDFILE | END | ELSE | UNTIL | WHILE | ENDWHILE | ENDDO => true
  | _ => false
  end.

(** [(token==LT)||(token==EQ)||(token==GT)] in [exp],
    [(token==PLUS)||(token==MINUS)] in [simple_exp] and
    [(token==TIMES)||(token==OVER)||(token==MOD)] in [term]. *)
Definition is_relop (t : TokenType) : bool :=
  match t with LT | EQ | GT => true | _ => false end.

Definition is_addop (t : TokenType) : bool :=
  match t with PLUS | MINUS => true | _ => false end.

Definition is_mulop (t : TokenType) : bool :=
  match t with TIMES | OVER | MOD => true | _ => false end.

(** The body of the loop of [stmt_sequence] after [q = statement()]: the
    chain headed by [t] is extended by [q] unless [q] is NULL. *)
Definition link (t q : option TreeNode) : option TreeNode :=
  match q with
  | Some qn =>
      match t with
      | None => Some qn
      | Some tn => Some (append_sibling tn qn)
      end
  | None => t
  end.

(** [if ((t != NULL) && (token == NUM)) t->attr.val = atoi(tokenString);] *)
Definition assign_val (kind : TokenType) (t : option TreeNode)
    : Parser (option TreeNode) :=
  fun s =>
    match t with
    | Some n =>
        if tok_eqb (token s) kind
        then Some (Some (set_attr n (AttrVal (atoi (tokenString s)))), s)
        else Some (t, s)
    | None => Some (t, s)
    end.

(** [if (cond) stmt;] *)
Definition when (cond : bool) (stmt : Parser unit) : Parser unit :=
  if cond then stmt else ret tt.

(** The default branch of the two dispatching switches. *)
Definition skip_unexpected : Parser (option TreeNode) :=
  exec (syntaxError unexpected_token) ;;
  exec printToken ;;
  exec getToken ;;
  ret None.

(** ** The grammar rules *)

(** [read_stmt] calls no other rule and needs no fuel. *)
Definition read_stmt : Parser (option TreeNode) :=
  t <- eval (newStmtNode ReadK) ;;
  exec (match_ READ) ;;
  t <- assign_name ID t ;;
  exec (match_ ID) ;;
  ret t.

Fixpoint stmt_sequence (fuel : nat) : Parser (option TreeNode) :=
  match fuel with
  | 0 => out_of_fuel
  | S fuel =>
      t <- statement fuel ;;
      stmt_sequence_loop fuel t
  end

(** The [while] loop of [stmt_sequence], entered with the head [t] of the
    chain built so far. *)
with stmt_sequence_loop (fuel : nat) (t : option TreeNode)
    : Parser (option TreeNode) :=
  match fuel with
  | 0 => out_of_fuel
  | S fuel =>
      tok <- eval token ;;
      if ends_sequence tok then ret t
      else (exec (match_ SEMI) ;;
            q <- statement fuel ;;
            stmt_sequence_loop fuel (link t q))
  end

with statement (fuel : nat) : Parser (option TreeNode) :=
  match fuel with
  | 0 => out_of_fuel
  | S fuel =>
      tok <- eval token ;;
      match tok with
      | IF => if_stmt fuel
      | REPEAT => repeat_stmt fuel
      | ID => assign_stmt fuel
      | READ => read_stmt
      | WRITE => write_stmt fuel
      | WHILE => while_stmt fuel
      | DO => dowhile_stmt fuel
      | FOR => for_stmt fuel
      | _ => skip_unexpected
      end
  end

with if_stmt (fuel : nat) : Parser (option TreeNode) :=
  match fuel with
  | 0 => out_of_fuel
  | S fuel =>
      t <- eval (newStmtNode IfK) ;;
      exec (match_ IF) ;;
      exec (match_ LPAREN) ;;
      t <- assign_child 0 t (exp fuel) ;;
      exec (match_ RPAREN) ;;
      exec (match_ THEN) ;;
      t <- assign_child 1 t (stmt_sequence fuel) ;;
      tok <- eval token ;;
      t <- (if tok_eqb tok ELSE
            then (exec (match_ ELSE) ;; assign_child 2 t (stmt_sequence fuel))
            else ret t) ;;
      exec (match_ END) ;;
      ret t
  end

with repeat_stmt (fuel : nat) : Parser (option TreeNode) :=
  match fuel with
  | 0 => out_of_fuel
  | S fuel =>
      t <- eval (newStmtNode RepeatK) ;;
      exec (match_ REPEAT) ;;
      t <- assign_child 0 t (stmt_sequence fuel) ;;
      exec (match_ UNTIL) ;;
      t <- assign_child 1 t (exp fuel) ;;
      ret t
  end

with assign_stmt (fuel : nat) : Parser (option TreeNode) :=
  match fuel with
  | 0 => out_of_fuel
  | S fuel =>
      t <- eval (newStmtNode AssignK) ;;
      t <- assign_name ID t ;;
      exec (match_ ID) ;;
      exec (match_ ASSIGN) ;;
      t <- assign_child 0 t (exp fuel) ;;
      ret t
  end

with write_stmt (fuel : nat) : Parser (option TreeNode) :=
  match fuel with
  | 0 => out_of_fuel
  | S fuel =>
      t <- eval (newStmtNode WriteK) ;;
      exec (match_ WRITE) ;;
      t <- assign_child 0 t (exp fuel) ;;
      ret t
  end

with exp (fuel : nat) : Parser (option TreeNode) :=
  match fuel with
  | 0 => out_of_fuel
  | S fuel =>
      t <- simple_exp fuel ;;
      tok <- eval token ;;
      if is_relop tok then
        (p <- eval (newExpNode OpK) ;;
         let t := match p with
                  | Some pn => Some (set_attr (set_child 0 pn t) (AttrOp tok))
                  | None => t
                  end in
         exec (match_ tok) ;;
         assign_child 1 t (simple_exp fuel))
      else ret t
  end

with simple_exp (fuel : nat) : Parser (option TreeNode) :=
  match fuel with
  | 0 => out_of_fuel
  | S fuel =>
      t <- term fuel ;;
      simple_exp_loop fuel t
  end

(** The [while] loop of [simple_exp], entered with the accumulator [t]. *)
with simple_exp_loop (fuel : nat) (t : option TreeNode)
    : Parser (option TreeNode) :=
  match fuel with
  | 0 => out_of_fuel
  | S fuel =>
      tok <- eval token ;;
      if is_addop tok then
        (p <- eval (newExpNode OpK) ;;
         match p with
         | Some pn =>
             let t := set_attr (set_child 0 pn t) (AttrOp tok) in
             exec (match_ tok) ;;
             c <- term fuel ;;
             simple_exp_loop fuel (Some (set_child 1 t c))
         | None => simple_exp_loop fuel t
         end)
      else ret t
  end

with term (fuel : nat) : Parser (option TreeNode) :=
  match fuel with
  | 0 => out_of_fuel
  | S fuel =>
      t <- factor fuel ;;
      term_loop fuel t
  end

(** The [while] loop of [term], entered with the accumulator [t]. *)
with term_loop (fuel : nat) (t : option TreeNode) : Parser (option TreeNode) :=
  match fuel with
  | 0 => out_of_fuel
  | S fuel =>
      tok <- eval token ;;
      if is_mulop tok then
        (p <- eval (newExpNode OpK) ;;
         match p with
         | Some pn =>
             let t := set_attr (set_child 0 pn t) (AttrOp tok) in
             exec (match_ tok) ;;
             c <- factor fuel ;;
             term_loop fuel (Some (set_child 1 t c))
         | None => term_loop fuel t
         end)
      else ret t
  end

with factor (fuel : nat) : Parser (option TreeNode) :=
  match fuel with
  | 0 => out_of_fuel
  | S fuel =>
      tok <- eval token ;;
      match tok with
      | NUM =>
          t <- eval (newExpNode ConstK) ;;
          t <- assign_val NUM t ;;
          exec (match_ NUM) ;;
          ret t
      | ID =>
          t <- eval (newExpNode IdK) ;;
          t <- assign_name ID t ;;
          exec (match_ ID) ;;
          ret t
      | LPAREN =>
          exec (match_ LPAREN) ;;
          t <- exp fuel ;;
          exec (match_ RPAREN) ;;
          ret t
      | _ => skip_unexpected
      end
  end

with while_stmt (fuel : nat) : Parser (option TreeNode) :=
  match fuel with
  | 0 => out_of_fuel
  | S fuel =>
      node <- eval (newStmtNode WhileK) ;;
      exec (match_ WHILE) ;;
      node <- assign_child 0 node (exp fuel) ;;
      exec (match_ DO) ;;
      node <- assign_child 1 node (stmt_sequence fuel) ;;
      exec (match_ ENDWHILE) ;;
      ret node
  end

with dowhile_stmt (fuel : nat) : Parser (option TreeNode) :=
  match fuel with
  | 0 => out_of_fuel
  | S fuel =>
      node <- eval (newStmtNode DoWhileK) ;;
      exec (match_ DO) ;;
      node <- assign_child 0 node (stmt_sequence fuel) ;;
      exec (match_ WHILE) ;;
      exec (match_ LPAREN) ;;
      node <- assign_child 1 node (exp fuel) ;;
      exec (match_ RPAREN) ;;
      ret node
  end

with for_stmt (fuel : nat) : Parser (option TreeNode) :=
  match fuel with
  | 0 => out_of_fuel
  | S fuel =>
      node <- eval (newStmtNode ForK) ;;
      exec (match_ FOR) ;;
      node <- assign_name ID node ;;
      exec (match_ ID) ;;
      exec (match_ ASSIGN) ;;
      node <- assign_child 0 node (simple_exp fuel) ;;
      tok <- eval token ;;
      when (tok_eqb tok TO) (exec (match_ TO)) ;;
      tok <- eval token ;;
      when (tok_eqb tok DOWNTO) (exec (match_ DOWNTO)) ;;
      node <- assign_child 1 node (simple_exp fuel) ;;
      exec (match_ DO) ;;
      node <- assign_child 2 node (stmt_sequence fuel) ;;
      exec (match_ ENDDO) ;;
      ret node
  end.

Definition code_ends_before_file : string := ("Code ends before file" ++ newline)%string.

(** The primary function of the parser. *)
Definition parse (fuel : nat) : Parser (option TreeNode) :=
  exec getToken ;;
  t <- stmt_sequence fuel ;;
  tok <- eval token ;;
  when (negb (tok_eqb tok ENDFILE)) (exec (syntaxError code_ends_before_file)) ;;
  ret t.

(** The globals as the program starts: nothing read, no error, an empty
    listing. *)
Definition initial (src : list Token) : State :=
  mkState ENDFILE EmptyString 0 src false [].

(** ** Notions used in the statements *)

(** *** Runs of the rules *)

(** A property of every fuel-indexed rule of the grammar, the three loops
    taken at every accumulator. *)
Record EveryRule (P : (nat -> Parser (option TreeNode)) -> Prop) : Prop := {
  er_stmt_sequence : P stmt_sequence;
  er_stmt_sequence_loop : forall t, P (fun n => stmt_sequence_loop n t);
  er_statement : P statement;
  er_if_stmt : P if_stmt;
  er_repeat_stmt : P repeat_stmt;
  er_assign_stmt : P assign_stmt;
  er_write_stmt : P write_stmt;
  er_exp : P exp;
  er_simple_exp : P simple_exp;
  er_simple_exp_loop : forall t, P (fun n => simple_exp_loop n t);
  er_term : P term;
  er_term_loop : forall t, P (fun n => term_loop n t);
  er_factor : P factor;
  er_while_stmt : P while_stmt;
  er_dowhile_stmt : P dowhile_stmt;
  er_for_stmt : P for_stmt }.

(** The node after [assign_name kind t] in state [s]. *)
Definition named (kind : TokenType) (t : option TreeNode) (s : State)
    : option TreeNode :=
  match t with
  | Some n => if tok_eqb (token s) kind
              then Some (set_attr n (AttrName (copyString (tokenString s))))
              else t
  | None => None
  end.

(** Whatever [p] returns, [q] returns too. *)
Definition refines {A} (p q : Parser A) : Prop :=
  forall s r, p s = Some r -> q s = Some r.

(** [R] relates the state [p] is started in to the state it returns in. *)
Definition keeps (R : State -> State -> Prop) {A} (p : Parser A) : Prop :=
  forall s a s', p s = Some (a, s') -> R s s'.

(** Rule [f], started in [s], returns [a] and leaves the globals as [s']. *)
Definition returns {A} (f : nat -> Parser A) (s : State) (a : A) (s' : State)
    : Prop :=
  exists fuel, f fuel s = Some (a, s').

(** *** The tokens left *)

(** The number of tokens not yet consumed: those the scanner still holds,
    and the lookahead unless it is the end-of-input token. *)
Definition remaining (s : State) : nat :=
  List.length (source s) + (if tok_eqb (token s) ENDFILE then 0 else 1).

(** No token is given back. *)
Definition no_more_than (s s' : State) : Prop := remaining s' <= remaining s.

(** [p] returns from every state with at most [m] tokens left, and leaves
    at most [m]. *)
Definition runs (m : nat) {A} (p : Parser A) : Prop :=
  forall s, remaining s <= m ->
  exists a s', p s = Some (a, s') /\ remaining s' <= m.

(** [p] returns from every state whose lookahead is [k] and that has at
    most [m] tokens left, and leaves at most [m]. *)
Definition runs_from (k : TokenType) (m : nat) {A} (p : Parser A) : Prop :=
  forall s, token s = k -> remaining s <= m ->
  exists a s', p s = Some (a, s') /\ remaining s' <= m.

(** *** Diagnostics *)

(** The listing entries that [syntaxError] writes as its message. *)
Definition is_diagnostic (o : Output) : bool :=
  match o with
  | SyntaxErrorAt _ _ => true
  | _ => false
  end.

(** From [s] to [s'] the listing only grows, and the flag is raised
    exactly when a diagnostic is among what was added. *)
Definition flagged (s s' : State) : Prop :=
  exists out,
    listing s' = listing s ++ out /\
    Error s' = Error s || existsb is_diagnostic out.

(** *** Complete trees *)

(** The child slots that the variant of a node requires are not null. *)
Definition slots_filled (k : NodeKind) (c0 c1 c2 : option TreeNode) : bool :=
  let filled (c : option TreeNode) :=
    match c with Some _ => true | None => false end in
  match k with
  | StmtK IfK | StmtK RepeatK | StmtK WhileK | StmtK DoWhileK | ExpK OpK =>
      filled c0 && filled c1
  | StmtK AssignK | StmtK WriteK => filled c0
  | StmtK ForK => filled c0 && filled c1 && filled c2
  | StmtK ReadK | ExpK ConstK | ExpK IdK => true
  end.

(** Every node reachable from [n], through children and siblings, has its
    required slots filled. *)
Fixpoint complete (n : TreeNode) : bool :=
  match n with
  | mkTreeNode c0 c1 c2 sib _ k _ =>
      let sub (o : option TreeNode) :=
        match o with Some m => complete m | None => true end in
      slots_filled k c0 c1 c2 && sub c0 && sub c1 && sub c2 && sub sib
  end.

(** The number of statement nodes reachable from [n]. *)
Fixpoint count_statements (n : TreeNode) : nat :=
  match n with
  | mkTreeNode c0 c1 c2 sib _ k _ =>
      let sub (o : option TreeNode) :=
        match o with Some m => count_statements m | None => 0 end in
      (match k with StmtK _ => 1 | ExpK _ => 0 end)
      + sub c0 + sub c1 + sub c2 + sub sib
  end.

(** The tokens after which the grammar has a statement: the separator and
    the four keywords that open a statement sequence. *)
Definition opens_statement (k : TokenType) : nat :=
  match k with
  | SEMI | THEN | ELSE | REPEAT | DO => 1
  | _ => 0
  end.

(** How many such tokens are still to be consumed. *)
Definition pending (s : State) : nat :=
  opens_statement (token s) +
  list_sum (map (fun tk => opens_statement (tk_kind tk)) (source s)).

(** What holds of an expression rule that returns [r] with the flag down:
    it was entered with the flag down, consumed no token after which a
    statement is due, and [r] is a complete expression tree. *)
Definition clean_exp (s : State) (r : option TreeNode) (s' : State) : Prop :=
  Error s = false /\ pending s' = pending s /\
  exists e, r = Some e /\ complete e = true /\ count_statements e = 0.

(** The same of a statement rule: [r] is one complete statement, not yet
    linked to a sibling, with one statement node for itself and one for
    each statement position it consumed. *)
Definition clean_stmt (s : State) (r : option TreeNode) (s' : State) : Prop :=
  Error s = false /\
  exists t, r = Some t /\ complete t = true /\ sibling t = None /\
            count_statements t + pending s' = S (pending s).

(** The same of a statement sequence, whose head may have siblings. *)
Definition clean_seq (s : State) (r : option TreeNode) (s' : State) : Prop :=
  Error s = false /\
  exists t, r = Some t /\ complete t = true /\
            count_statements t + pending s' = S (pending s).

(** The node at the end of the sibling chain that starts at [n]. *)
Fixpoint last_sibling (n : TreeNode) : TreeNode :=
  match n with
  | mkTreeNode _ _ _ (Some m) _ _ _ => last_sibling m
  | mkTreeNode _ _ _ None _ _ _ => n
  end.

(** A node pointer that is null or points to a node without sibling. *)
Definition no_sibling (r : option TreeNode) : Prop :=
  match r with
  | Some q => sibling q = None
  | None => True
  end.

(** *** The cursor *)

(** The cursor over the token source: the lookahead with its lexeme and
    line, and what the scanner has still to deliver. *)
Definition cursor (s : State) : TokenType * string * nat * list Token :=
  (token s, tokenString s, lineno s, source s).

(** The lookahead kinds that start a statement. *)
Definition starts_statement (t : TokenType) : bool :=
  match t with
  | IF | REPEAT | ID | READ | WRITE | WHILE | DO | FOR => true
  | _ => false
  end.

(** The lookahead kinds that start a factor. *)
Definition starts_factor (t : TokenType) : bool :=
  match t with
  | NUM | ID | LPAREN => true
  | _ => false
  end.

(** The output of [syntaxError] followed by [printToken] in state [s]. *)
Definition unexpected_token_report (s : State) : list Output :=
  [Text (newline ++ ">>> ")%string;
   SyntaxErrorAt (lineno s) unexpected_token;
   TokenText (token s) (tokenString s)].

(** A diagnostic is among [out]. *)
Definition has_diagnostic (out : list Output) : Prop :=
  exists line message, In (SyntaxErrorAt line message) out.

(** The number of tokens in [src] after which the grammar has a
    statement. *)
Definition statement_slots (src : list Token) : nat :=
  list_sum (map (fun tk => opens_statement (tk_kind tk)) src).

(** The scanner delivers the end-of-input token only once its source is
    exhausted. *)
Definition proper_source (src : list Token) : Prop :=
  Forall (fun tk => tk_kind tk <> ENDFILE) src.

(** The same of the globals: an end-of-input lookahead means that the
    source is exhausted. *)
Definition at_end_only (s : State) : Prop :=
  proper_source (source s) /\ (token s = ENDFILE -> source s = []).

Definition stays_proper (s s' : State) : Prop :=
  at_end_only s -> at_end_only s'.

(** *** Operators *)

(** The node that [exp], [simple_exp] and [term] build for an operator
    read on line [line]. *)
Definition op_node (line : nat) (op : TokenType) (l r : option TreeNode)
    : TreeNode :=
  mkTreeNode l r None None line (ExpK OpK) (AttrOp op).

(** The two levels of the grammar that fold a run of operators. *)
Inductive Level : Set := Additive | Multiplicative.

(** The rule of a level, the rule that parses its operands, and the test
    for its operators. *)
Definition level_rule (l : Level) : nat -> Parser (option TreeNode) :=
  match l with Additive => simple_exp | Multiplicative => term end.

Definition operand_rule (l : Level) : nat -> Parser (option TreeNode) :=
  match l with Additive => term | Multiplicative => factor end.

Definition level_op (l : Level) : TokenType -> bool :=
  match l with Additive => is_addop | Multiplicative => is_mulop end.

(** *** The calls of a run

    Which rule is called from which, and in what state: one case for each
    call of a rule in parse.c ([read_stmt], which calls no rule, is left
    out).  The state of a call is given by the states the calls before it
    in the same body returned in. *)

Inductive Call : Set :=
  | StmtSequence
  | StmtSequenceLoop (t : option TreeNode)
  | Statement
  | IfStmt | RepeatStmt | AssignStmt | WriteStmt
  | WhileStmt | DoWhileStmt | ForStmt
  | Exp
  | SimpleExp
  | SimpleExpLoop (t : option TreeNode)
  | Term
  | TermLoop (t : option TreeNode)
  | Factor.

Definition rule (c : Call) : nat -> Parser (option TreeNode) :=
  match c with
  | StmtSequence => stmt_sequence
  | StmtSequenceLoop t => fun fuel => stmt_sequence_loop fuel t
  | Statement => statement
  | IfStmt => if_stmt
  | RepeatStmt => repeat_stmt
  | AssignStmt => assign_stmt
  | WriteStmt => write_stmt
  | WhileStmt => while_stmt
  | DoWhileStmt => dowhile_stmt
  | ForStmt => for_stmt
  | Exp => exp
  | SimpleExp => simple_exp
  | SimpleExpLoop t => fun fuel => simple_exp_loop fuel t
  | Term => term
  | TermLoop t => fun fuel => term_loop fuel t
  | Factor => factor
  end.

(** The globals after the two tests for a directional keyword in
    [for_stmt]. *)
Definition past_direction (s : State) : State :=
  let s1 := if tok_eqb (token s) TO then match_ TO s else s in
  if tok_eqb (token s1) DOWNTO then match_ DOWNTO s1 else s1.

(** [enters c s c' s']: the run of [c] from state [s] calls [c'] in state
    [s']. *)
Inductive enters : Call -> State -> Call -> State -> Prop :=
  (* stmt_sequence *)
  | in_sequence_first s :
      enters StmtSequence s Statement s
  | in_sequence_loop s t s1 :
      returns statement s t s1 ->
      enters StmtSequence s (StmtSequenceLoop t) s1
  | in_loop_statement t s :
      ends_sequence (token s) = false ->
      enters (StmtSequenceLoop t) s Statement (match_ SEMI s)
  | in_loop_again t s q s1 :
      ends_sequence (token s) = false ->
      returns statement (match_ SEMI s) q s1 ->
      enters (StmtSequenceLoop t) s (StmtSequenceLoop (link t q)) s1
  (* statement *)
  | in_statement_if s : token s = IF -> enters Statement s IfStmt s
  | in_statement_repeat s : token s = REPEAT -> enters Statement s RepeatStmt s
  | in_statement_assign s : token s = ID -> enters Statement s AssignStmt s
  | in_statement_write s : token s = WRITE -> enters Statement s WriteStmt s
  | in_statement_while s : token s = WHILE -> enters Statement s WhileStmt s
  | in_statement_dowhile s : token s = DO -> enters Statement s DoWhileStmt s
  | in_statement_for s : token s = FOR -> enters Statement s ForStmt s
  (* if_stmt *)
  | in_if_condition s :
      enters IfStmt s Exp (match_ LPAREN (match_ IF s))
  | in_if_then s c s1 :
      returns exp (match_ LPAREN (match_ IF s)) c s1 ->
      enters IfStmt s StmtSequence (match_ THEN (match_ RPAREN s1))
  | in_if_else s c s1 c1 s2 :
      returns exp (match_ LPAREN (match_ IF s)) c s1 ->
      returns stmt_sequence (match_ THEN (match_ RPAREN s1)) c1 s2 ->
      token s2 = ELSE ->
      enters IfStmt s StmtSequence (match_ ELSE s2)
  (* repeat_stmt *)
  | in_repeat_body s :
      enters RepeatStmt s StmtSequence (match_ REPEAT s)
  | in_repeat_condition s b s1 :
      returns stmt_sequence (match_ REPEAT s) b s1 ->
      enters RepeatStmt s Exp (match_ UNTIL s1)
  (* assign_stmt, write_stmt *)
  | in_assign_value s :
      enters AssignStmt s Exp (match_ ASSIGN (match_ ID s))
  | in_write_value s :
      enters WriteStmt s Exp (match_ WRITE s)
  (* while_stmt *)
  | in_while_condition s :
      enters WhileStmt s Exp (match_ WHILE s)
  | in_while_body s c s1 :
      returns exp (match_ WHILE s) c s1 ->
      enters WhileStmt s StmtSequence (match_ DO s1)
  (* dowhile_stmt *)
  | in_dowhile_body s :
      enters DoWhileStmt s StmtSequence (match_ DO s)
  | in_dowhile_condition s b s1 :
      returns stmt_sequence (match_ DO s) b s1 ->
      enters DoWhileStmt s Exp (match_ LPAREN (match_ WHILE s1))
  (* for_stmt *)
  | in_for_start s :
      enters ForStmt s SimpleExp (match_ ASSIGN (match_ ID (match_ FOR s)))
  | in_for_bound s a s1 :
      returns simple_exp (match_ ASSIGN (match_ ID (match_ FOR s))) a s1 ->
      enters ForStmt s SimpleExp (past_direction s1)
  | in_for_body s a s1 b s2 :
      returns simple_exp (match_ ASSIGN (match_ ID (match_ FOR s))) a s1 ->
      returns simple_exp (past_direction s1) b s2 ->
      enters ForStmt s StmtSequence (match_ DO s2)
  (* exp *)
  | in_exp_left s :
      enters Exp s SimpleExp s
  | in_exp_right s a s1 :
      returns simple_exp s a s1 -> is_relop (token s1) = true ->
      enters Exp s SimpleExp (match_ (token s1) s1)
  (* simple_exp *)
  | in_simple_exp_first s :
      enters SimpleExp s Term s
  | in_simple_exp_loop s t s1 :
      returns term s t s1 ->
      enters SimpleExp s (SimpleExpLoop t) s1
  | in_simple_exp_loop_term t s :
      is_addop (token s) = true ->
      enters (SimpleExpLoop t) s Term (match_ (token s) s)
  | in_simple_exp_loop_again t s c s1 :
      is_addop (token s) = true ->
      returns term (match_ (token s) s) c s1 ->
      enters (SimpleExpLoop t) s
        (SimpleExpLoop (Some (op_node (lineno s) (token s) t c))) s1
  (* term *)
  | in_term_first s :
      enters Term s Factor s
  | in_term_loop s t s1 :
      returns factor s t s1 ->
      enters Term s (TermLoop t) s1
  | in_term_loop_factor t s :
      is_mulop (token s) = true ->
      enters (TermLoop t) s Factor (match_ (token s) s)
  | in_term_loop_again t s c s1 :
      is_mulop (token s) = true ->
      returns factor (match_ (token s) s) c s1 ->
      enters (TermLoop t) s
        (TermLoop (Some (op_node (lineno s) (token s) t c))) s1
  (* factor *)
  | in_factor_paren s :
      token s = LPAREN ->
      enters Factor s Exp (match_ LPAREN s).

(** [reaches c s c' s']: the run of [c] from [s] calls [c'] in state [s'],
    at any depth; or it is that call. *)
Inductive reaches : Call -> State -> Call -> State -> Prop :=
  | reaches_here c s : reaches c s c s
  | reaches_deeper c s c1 s1 c2 s2 :
      reaches c s c1 s1 -> enters c1 s1 c2 s2 -> reaches c s c2 s2.

(** *** Sample inputs and trees *)

(** Leaves, and tokens on line 1, for the examples. *)
Definition const_node (line : nat) (val : Z) : TreeNode :=
  mkTreeNode None None None None line (ExpK ConstK) (AttrVal val).

Definition id_node (line : nat) (name : string) : TreeNode :=
  mkTreeNode None None None None line (ExpK IdK) (AttrName name).

Definition num (lexeme : string) : Token := mkToken NUM lexeme 1.
Definition ident (lexeme : string) : Token := mkToken ID lexeme 1.
Definition sym (kind : TokenType) (lexeme : string) : Token := mkToken kind lexeme 1.

(** [1-2-3] and [1-2+3] *)
Definition one_minus_two_minus_three : list Token :=
  [num "1"; sym MINUS "-"; num "2"; sym MINUS "-"; num "3"].

Definition one_minus_two_plus_three : list Token :=
  [num "1"; sym MINUS "-"; num "2"; sym PLUS "+"; num "3"].

(** The state after [parse] has fetched the first token of [src] and [k]
    more tokens have been consumed. *)
Definition primed (src : list Token) (k : nat) : State :=
  Nat.iter (S k) getToken (initial src).

(** [2+3*4], [2*3+4] and [1<2+3] *)
Definition two_plus_three_times_four : list Token :=
  [num "2"; sym PLUS "+"; num "3"; sym TIMES "*"; num "4"].

Definition two_times_three_plus_four : list Token :=
  [num "2"; sym TIMES "*"; num "3"; sym PLUS "+"; num "4"].

Definition one_less_two_plus_three : list Token :=
  [num "1"; sym LT "<"; num "2"; sym PLUS "+"; num "3"].

(** [x := 1<2<3] *)
Definition chained_comparison : list Token :=
  [ident "x"; sym ASSIGN ":="; num "1"; sym LT "<"; num "2"; sym LT "<"; num "3"].

(** [while x do read y endwhile] *)
Definition while_program : list Token :=
  [sym WHILE "while"; ident "x"; sym DO "do"; sym READ "read"; ident "y";
   sym ENDWHILE "endwhile"].

(** [if (x) then end] *)
Definition if_with_empty_body : list Token :=
  [sym IF "if"; sym LPAREN "("; ident "x"; sym RPAREN ")"; sym THEN "then";
   sym END "end"].

(** [if (x<1) then write x end] and the malformed [if x then end] *)
Definition if_example : list Token :=
  [sym IF "if"; sym LPAREN "("; ident "x"; sym LT "<"; num "1"; sym RPAREN ")";
   sym THEN "then"; sym WRITE "write"; ident "x"; sym END "end"].

Definition if_malformed : list Token :=
  [sym IF "if"; ident "x"; sym THEN "then"; sym END "end"].

Definition if_node (line : nat) (cond then_part else_part : option TreeNode)
    : TreeNode :=
  mkTreeNode cond then_part else_part None line (StmtK IfK) NoAttr.

(** [for i:=1 to 10 do write i enddo], and the same loop with no
    directional keyword and with both. *)
Definition for_header : list Token :=
  [sym FOR "for"; ident "i"; sym ASSIGN ":="; num "1"].

Definition for_rest : list Token :=
  [num "10"; sym DO "do"; sym WRITE "write"; ident "i"; sym ENDDO "enddo"].

Definition for_to : list Token := for_header ++ [sym TO "to"] ++ for_rest.

Definition for_without_direction : list Token := for_header ++ for_rest.

Definition for_to_downto : list Token :=
  for_header ++ [sym TO "to"; sym DOWNTO "downto"] ++ for_rest.

(** Statement nodes as the rules fill them. *)
Definition write_node (line : nat) (value : option TreeNode) : TreeNode :=
  mkTreeNode value None None None line (StmtK WriteK) NoAttr.

Definition for_node (line : nat) (name : string)
    (start bound body : option TreeNode) : TreeNode :=
  mkTreeNode start bound body None line (StmtK ForK) (AttrName name).

Definition for_tree : TreeNode :=
  for_node 1 "i" (Some (const_node 1 1)) (Some (const_node 1 10))
    (Some (write_node 1 (Some (id_node 1 "i")))).

(** The globals after a whole one-line source was parsed without any
    diagnostic. *)
Definition clean_end : State := mkState ENDFILE EmptyString 1 [] false [].

(** [a:=1;b:=2], the second assignment on line 2 *)
Definition sample_assignments : list Token :=
  [mkToken ID "a" 1; mkToken ASSIGN ":=" 1; mkToken NUM "1" 1;
   mkToken SEMI ";" 1;
   mkToken ID "b" 2; mkToken ASSIGN ":=" 2; mkToken NUM "2" 2].

Definition assign_node (line : nat) (name : string)
    (value next : option TreeNode) : TreeNode :=
  mkTreeNode value None None next line (StmtK AssignK) (AttrName name).

(** The tree of [a:=1;b:=2]: two Assign nodes, the second the sibling of
    the first. *)
Definition sample_assignments_tree : TreeNode :=
  assign_node 1 "a" (Some (const_node 1 1))
    (Some (assign_node 2 "b" (Some (const_node 2 2)) None)).

(** The globals after [a:=1;b:=2] was parsed. *)
Definition sample_assignments_end : State :=
  mkState ENDFILE EmptyString 2 [] false [].

(** *** The language of the parser *)

(** The token under the cursor. *)
Definition lookahead (s : State) : Token :=
  mkToken (token s) (tokenString s) (lineno s).

(** The tokens from the cursor of [s] on spell [l], and [s'] is [s] after
    [getToken] was called once for each of them. *)
Fixpoint consumes (l : list Token) (s s' : State) : Prop :=
  match l with
  | [] => s' = s
  | tk :: rest => lookahead s = tk /\ consumes rest (getToken s) s'
  end.

(** The three operator classes together. *)
Definition is_operator (t : TokenType) : bool :=
  is_relop t || is_addop t || is_mulop t.

(** The remaining statement nodes as the rules fill them. *)
Definition repeat_node (line : nat) (body test : option TreeNode) : TreeNode :=
  mkTreeNode body test None None line (StmtK RepeatK) NoAttr.

Definition read_node (line : nat) (name : string) : TreeNode :=
  mkTreeNode None None None None line (StmtK ReadK) (AttrName name).

Definition while_node (line : nat) (test body : option TreeNode) : TreeNode :=
  mkTreeNode test body None None line (StmtK WhileK) NoAttr.

Definition dowhile_node (line : nat) (body test : option TreeNode) : TreeNode :=
  mkTreeNode body test None None line (StmtK DoWhileK) NoAttr.

(** The expressions of the grammar with the tree of each, as the rules
    build it when every [match] finds its token and no switch takes its
    default branch.  Operators of one level nest to the left, a
    parenthesised expression is the tree of the expression, a constant
    holds the [int] that [atoi] makes of its lexeme, and a node carries
    the line of the first token of its phrase (that of the operator for
    an operator node). *)
Inductive g_factor : list Token -> TreeNode -> Prop :=
  | g_num tk :
      tk_kind tk = NUM ->
      g_factor [tk] (const_node (tk_line tk) (atoi (tk_string tk)))
  | g_id tk :
      tk_kind tk = ID ->
      g_factor [tk] (id_node (tk_line tk) (copyString (tk_string tk)))
  | g_paren lp l e rp :
      tk_kind lp = LPAREN -> g_exp l e -> tk_kind rp = RPAREN ->
      g_factor (lp :: l ++ [rp]) e

with g_term : list Token -> TreeNode -> Prop :=
  | g_term_factor l f : g_factor l f -> g_term l f
  | g_term_op l a op r b :
      g_term l a -> is_mulop (tk_kind op) = true -> g_factor r b ->
      g_term (l ++ op :: r)
        (op_node (tk_line op) (tk_kind op) (Some a) (Some b))

with g_simple_exp : list Token -> TreeNode -> Prop :=
  | g_simple_term l t : g_term l t -> g_simple_exp l t
  | g_simple_op l a op r b :
      g_simple_exp l a -> is_addop (tk_kind op) = true -> g_term r b ->
      g_simple_exp (l ++ op :: r)
        (op_node (tk_line op) (tk_kind op) (Some a) (Some b))

with g_exp : list Token -> TreeNode -> Prop :=
  | g_exp_simple l e : g_simple_exp l e -> g_exp l e
  | g_exp_rel l a op r b :
      g_simple_exp l a -> is_relop (tk_kind op) = true -> g_simple_exp r b ->
      g_exp (l ++ op :: r)
        (op_node (tk_line op) (tk_kind op) (Some a) (Some b)).

(** The directional part of a [for] statement in the grammar: one of
    [to] and [downto]. *)
Inductive g_direction : list Token -> Prop :=
  | g_to tk : tk_kind tk = TO -> g_direction [tk]
  | g_downto tk : tk_kind tk = DOWNTO -> g_direction [tk].

(** What [for_stmt] lets pass at that place: its two tests follow each
    other without an [else], so that also nothing and [to downto] go
    through without a diagnostic. *)
Inductive lenient_direction : list Token -> Prop :=
  | lenient_neither : lenient_direction []
  | lenient_to tk : tk_kind tk = TO -> lenient_direction [tk]
  | lenient_downto tk : tk_kind tk = DOWNTO -> lenient_direction [tk]
  | lenient_both tk tk' :
      tk_kind tk = TO -> tk_kind tk' = DOWNTO -> lenient_direction [tk; tk'].

(** The statements and the statement sequences, with [D] for the
    directional part of [for]: [g_statement g_direction] is the grammar,
    [g_statement lenient_direction] the language that the statement
    rules let pass. *)
Inductive g_statement (D : list Token -> Prop)
    : list Token -> TreeNode -> Prop :=
  | g_if kw lp c test rp th b body en :
      tk_kind kw = IF -> tk_kind lp = LPAREN -> g_exp c test ->
      tk_kind rp = RPAREN -> tk_kind th = THEN -> g_sequence D b body ->
      tk_kind en = END ->
      g_statement D (kw :: lp :: c ++ rp :: th :: b ++ [en])
        (if_node (tk_line kw) (Some test) (Some body) None)
  | g_if_else kw lp c test rp th b body el b' body' en :
      tk_kind kw = IF -> tk_kind lp = LPAREN -> g_exp c test ->
      tk_kind rp = RPAREN -> tk_kind th = THEN -> g_sequence D b body ->
      tk_kind el = ELSE -> g_sequence D b' body' -> tk_kind en = END ->
      g_statement D (kw :: lp :: c ++ rp :: th :: b ++ el :: b' ++ [en])
        (if_node (tk_line kw) (Some test) (Some body) (Some body'))
  | g_repeat kw b body un c test :
      tk_kind kw = REPEAT -> g_sequence D b body -> tk_kind un = UNTIL ->
      g_exp c test ->
      g_statement D (kw :: b ++ un :: c)
        (repeat_node (tk_line kw) (Some body) (Some test))
  | g_assign id op c value :
      tk_kind id = ID -> tk_kind op = ASSIGN -> g_exp c value ->
      g_statement D (id :: op :: c)
        (assign_node (tk_line id) (copyString (tk_string id)) (Some value) None)
  | g_read kw id :
      tk_kind kw = READ -> tk_kind id = ID ->
      g_statement D [kw; id] (read_node (tk_line kw) (copyString (tk_string id)))
  | g_write kw c value :
      tk_kind kw = WRITE -> g_exp c value ->
      g_statement D (kw :: c) (write_node (tk_line kw) (Some value))
  | g_while kw c test d b body en :
      tk_kind kw = WHILE -> g_exp c test -> tk_kind d = DO ->
      g_sequence D b body -> tk_kind en = ENDWHILE ->
      g_statement D (kw :: c ++ d :: b ++ [en])
        (while_node (tk_line kw) (Some test) (Some body))
  | g_dowhile kw b body wh lp c test rp :
      tk_kind kw = DO -> g_sequence D b body -> tk_kind wh = WHILE ->
      tk_kind lp = LPAREN -> g_exp c test -> tk_kind rp = RPAREN ->
      g_statement D (kw :: b ++ wh :: lp :: c ++ [rp])
        (dowhile_node (tk_line kw) (Some body) (Some test))
  | g_for kw id op c start dir c' bound d b body en :
      tk_kind kw = FOR -> tk_kind id = ID -> tk_kind op = ASSIGN ->
      g_simple_exp c start -> D dir -> g_simple_exp c' bound ->
      tk_kind d = DO -> g_sequence D b body -> tk_kind en = ENDDO ->
      g_statement D (kw :: id :: op :: c ++ dir ++ c' ++ d :: b ++ [en])
        (for_node (tk_line kw) (copyString (tk_string id))
           (Some start) (Some bound) (Some body))

with g_sequence (D : list Token -> Prop)
    : list Token -> TreeNode -> Prop :=
  | g_single l t : g_statement D l t -> g_sequence D l t
  | g_more l t semi l' t' :
      g_sequence D l t -> tk_kind semi = SEMI -> g_statement D l' t' ->
      g_sequence D (l ++ semi :: l') (append_sibling t t').

Arguments g_if {D}.
Arguments g_if_else {D}.
Arguments g_repeat {D}.
Arguments g_assign {D}.
Arguments g_read {D}.
Arguments g_write {D}.
Arguments g_while {D}.
Arguments g_dowhile {D}.
Arguments g_for {D}.
Arguments g_single {D}.
Arguments g_more {D}.

Abbreviation lenient_statement := (g_statement lenient_direction).
Abbreviation lenient_sequence := (g_sequence lenient_direction).

Scheme g_factor_mut := Minimality for g_factor Sort Prop
  with g_term_mut := Minimality for g_term Sort Prop
  with g_simple_exp_mut := Minimality for g_simple_exp Sort Prop
  with g_exp_mut := Minimality for g_exp Sort Prop.

Combined Scheme g_expression_ind
  from g_factor_mut, g_term_mut, g_simple_exp_mut, g_exp_mut.

Scheme g_statement_mut := Minimality for g_statement Sort Prop
  with g_sequence_mut := Minimality for g_sequence Sort Prop.

Combined Scheme g_program_ind from g_statement_mut, g_sequence_mut.

(** A rule returns [a] and [s'] from [s] at every fuel from some fuel on. *)
Definition settles {A} (f : nat -> Parser A) (s : State) (a : A) (s' : State)
    : Prop :=
  exists n, forall m, n <= m -> f m s = Some (a, s').

(** What a rule did that was entered in [s] and returned [r] in [s']: the
    flag was down, and [r] is the tree of a phrase of category [G] that
    spans the tokens from [s] to [s']. *)
Definition parsed (G : list Token -> TreeNode -> Prop)
    (s : State) (r : option TreeNode) (s' : State) : Prop :=
  Error s = false /\
  exists t, r = Some t /\ exists l, G l t /\ consumes l s s'.

(** The same of a loop entered with the accumulator [t0]: whatever phrase
    [t0] is the tree of, [r] is the tree of that phrase extended by the
    tokens from [s] to [s']. *)
Definition extended (G : list Token -> TreeNode -> Prop) (t0 : TreeNode)
    (s : State) (r : option TreeNode) (s' : State) : Prop :=
  Error s = false /\
  exists t, r = Some t /\
  exists l, consumes l s s' /\ forall l0, G l0 t0 -> G (l0 ++ l) t.

(** The tokens not yet consumed: the lookahead, unless it is the
    end-of-input token, and what the scanner still holds. *)
Definition unread (s : State) : list Token :=
  if tok_eqb (token s) ENDFILE then [] else lookahead s :: source s.

(** The trees of [2+3*4] and of [while x do read y endwhile]. *)
Definition two_plus_three_times_four_tree : TreeNode :=
  op_node 1 PLUS (Some (const_node 1 2))
    (Some (op_node 1 TIMES (Some (const_node 1 3)) (Some (const_node 1 4)))).

Definition while_program_tree : TreeNode :=
  while_node 1 (Some (id_node 1 "x")) (Some (read_node 1 "y")).

(** From [s] to [s'] tokens were consumed and none was lost: the
    lookahead of [s'] and what the scanner holds behind it are the rest
    of what was there in [s], unless [s'] is at the end of the input. *)
Definition still_unread (s s' : State) : Prop :=
  (token s' = ENDFILE /\ source s' = []) \/
  exists consumed,
    lookahead s :: source s = consumed ++ lookahead s' :: source s'.

(** *** Nodes by leading token *)

(** The statement kind that [statement] selects on a lookahead. *)
Definition statement_kind (t : TokenType) : option StmtKind :=
  match t with
  | IF => Some IfK
  | REPEAT => Some RepeatK
  | ID => Some AssignK
  | READ => Some ReadK
  | WRITE => Some WriteK
  | WHILE => Some WhileK
  | DO => Some DoWhileK
  | FOR => Some ForK
  | _ => None
  end.

(** *** Well-sorted trees *)

(** A tree as the expression rules build them, also after errors: every
    node is an expression node without sibling, an operator has at most
    its two operands, a leaf has no child; an operand may be missing. *)
Fixpoint expression_tree (n : TreeNode) : bool :=
  match n with
  | mkTreeNode c0 c1 c2 sib _ k _ =>
      let operand (o : option TreeNode) :=
        match o with Some m => expression_tree m | None => true end in
      let absent (o : option TreeNode) :=
        match o with Some _ => false | None => true end in
      match k with
      | ExpK OpK => operand c0 && operand c1 && absent c2 && absent sib
      | ExpK _ => absent c0 && absent c1 && absent c2 && absent sib
      | StmtK _ => false
      end
  end.

(** A chain of statements as the statement rules build them, also after
    errors: every node of the chain is a statement node, and each child
    slot holds what the node's kind puts there (an expression tree, a
    statement chain or nothing) unless it is null. *)
Fixpoint statement_chain (n : TreeNode) : bool :=
  match n with
  | mkTreeNode c0 c1 c2 sib _ k _ =>
      let e (o : option TreeNode) :=
        match o with Some m => expression_tree m | None => true end in
      let q (o : option TreeNode) :=
        match o with Some m => statement_chain m | None => true end in
      let absent (o : option TreeNode) :=
        match o with Some _ => false | None => true end in
      match k with
      | StmtK IfK => e c0 && q c1 && q c2
      | StmtK RepeatK => q c0 && e c1 && absent c2
      | StmtK AssignK => e c0 && absent c1 && absent c2
      | StmtK ReadK => absent c0 && absent c1 && absent c2
      | StmtK WriteK => e c0 && absent c1 && absent c2
      | StmtK WhileK => e c0 && q c1 && absent c2
      | StmtK DoWhileK => q c0 && e c1 && absent c2
      | StmtK ForK => e c0 && e c1 && q c2
      | ExpK _ => false
      end && q sib
  end.

(** The same of a pointer that may be null. *)
Definition expression_or_null (r : option TreeNode) : bool :=
  match r with Some t => expression_tree t | None => true end.

Definition statements_or_null (r : option TreeNode) : bool :=
  match r with Some t => statement_chain t | None => true end.

(** *** The size of a tree *)

(** The number of nodes reachable from [n] through children and siblings. *)
Fixpoint count_nodes (n : TreeNode) : nat :=
  match n with
  | mkTreeNode c0 c1 c2 sib _ _ _ =>
      let sub (o : option TreeNode) :=
        match o with Some m => count_nodes m | None => 0 end in
      1 + sub c0 + sub c1 + sub c2 + sub sib
  end.

Definition tree_size (r : option TreeNode) : nat :=
  match r with Some t => count_nodes t | None => 0 end.

(** [for i:=1 downto 10 do write i enddo] *)
Definition for_downto : list Token :=
  for_header ++ [sym DOWNTO "downto"] ++ for_rest.

(** What [parse] returns on the malformed [if x then end]: the node of
    the statement with its test and without a body, and the globals after
    the four reports. *)
Definition if_malformed_tree : TreeNode :=
  if_node 1 (Some (id_node 1 "x")) None None.

Definition if_malformed_end : State :=
  Eval vm_compute in
    match parse 20 (initial if_malformed) with
    | Some (_, s') => s'
    | None => initial []
    end.

(** [read x end read y]: a stray [end] after the first statement. *)
Definition stray_end : list Token :=
  [sym READ "read"; ident "x"; sym END "end"; sym READ "read"; ident "y"].

(** *** Recovery *)

(** The globals [s] with another flag and another listing. *)
Definition relisted (s : State) (flag : bool) (out : list Output) : State :=
  mkState (token s) (tokenString s) (lineno s) (source s) flag out.

(** [read x read y]: two statements and no semicolon between them. *)
Definition two_reads : list Token :=
  [sym READ "read"; ident "x"; sym READ "read"; ident "y"].

(** *** Trees in memory *)










(** ** Unfolding the rules

    One equation per rule, so that proofs step through a rule's body
    rather than through the whole mutual definition. *)

Lemma stmt_sequence_eq n :
  stmt_sequence (S n) = (t <- statement n ;; stmt_sequence_loop n t).
Proof. reflexivity. Qed.

Lemma stmt_sequence_loop_eq n t :
  stmt_sequence_loop (S n) t =
  (tok <- eval token ;;
   if ends_sequence tok then ret t
   else (exec (match_ SEMI) ;;
         q <- statement n ;;
         stmt_sequence_loop n (link t q))).
Proof. reflexivity. Qed.

Lemma statement_eq n :
  statement (S n) =
  (tok <- eval token ;;
   match tok with
   | IF => if_stmt n
   | REPEAT => repeat_stmt n
   | ID => assign_stmt n
   | READ => read_stmt
   | WRITE => write_stmt n
   | WHILE => while_stmt n
   | DO => dowhile_stmt n
   | FOR => for_stmt n
   | _ => skip_unexpected
   end).
Proof. reflexivity. Qed.

Lemma if_stmt_eq n :
  if_stmt (S n) =
  (t <- eval (newStmtNode IfK) ;;
   exec (match_ IF) ;;
   exec (match_ LPAREN) ;;
   t <- assign_child 0 t (exp n) ;;
   exec (match_ RPAREN) ;;
   exec (match_ THEN) ;;
   t <- assign_child 1 t (stmt_sequence n) ;;
   tok <- eval token ;;
   t <- (if tok_eqb tok ELSE
         then (exec (match_ ELSE) ;; assign_child 2 t (stmt_sequence n))
         else ret t) ;;
   exec (match_ END) ;;
   ret t).
Proof. reflexivity. Qed.

Lemma repeat_stmt_eq n :
  repeat_stmt (S n) =
  (t <- eval (newStmtNode RepeatK) ;;
   exec (match_ REPEAT) ;;
   t <- assign_child 0 t (stmt_sequence n) ;;
   exec (match_ UNTIL) ;;
   t <- assign_child 1 t (exp n) ;;
   ret t).
Proof. reflexivity. Qed.

Lemma assign_stmt_eq n :
  assign_stmt (S n) =
  (t <- eval (newStmtNode AssignK) ;;
   t <- assign_name ID t ;;
   exec (match_ ID) ;;
   exec (match_ ASSIGN) ;;
   t <- assign_child 0 t (exp n) ;;
   ret t).
Proof. reflexivity. Qed.

Lemma write_stmt_eq n :
  write_stmt (S n) =
  (t <- eval (newStmtNode WriteK) ;;
   exec (match_ WRITE) ;;
   t <- assign_child 0 t (exp n) ;;
   ret t).
Proof. reflexivity. Qed.

Lemma exp_eq n :
  exp (S n) =
  (t <- simple_exp n ;;
   tok <- eval token ;;
   if is_relop tok then
     (p <- eval (newExpNode OpK) ;;
      let t := match p with
               | Some pn => Some (set_attr (set_child 0 pn t) (AttrOp tok))
               | None => t
               end in
      exec (match_ tok) ;;
      assign_child 1 t (simple_exp n))
   else ret t).
Proof. reflexivity. Qed.

Lemma simple_exp_eq n :
  simple_exp (S n) = (t <- term n ;; simple_exp_loop n t).
Proof. reflexivity. Qed.

Lemma simple_exp_loop_eq n t :
  simple_exp_loop (S n) t =
  (tok <- eval token ;;
   if is_addop tok then
     (p <- eval (newExpNode OpK) ;;
      match p with
      | Some pn =>
          let t := set_attr (set_child 0 pn t) (AttrOp tok) in
          exec (match_ tok) ;;
          c <- term n ;;
          simple_exp_loop n (Some (set_child 1 t c))
      | None => simple_exp_loop n t
      end)
   else ret t).
Proof. reflexivity. Qed.

Lemma term_eq n : term (S n) = (t <- factor n ;; term_loop n t).
Proof. reflexivity. Qed.

Lemma term_loop_eq n t :
  term_loop (S n) t =
  (tok <- eval token ;;
   if is_mulop tok then
     (p <- eval (newExpNode OpK) ;;
      match p with
      | Some pn =>
          let t := set_attr (set_child 0 pn t) (AttrOp tok) in
          exec (match_ tok) ;;
          c <- factor n ;;
          term_loop n (Some (set_child 1 t c))
      | None => term_loop n t
      end)
   else ret t).
Proof. reflexivity. Qed.

Lemma factor_eq n :
  factor (S n) =
  (tok <- eval token ;;
   match tok with
   | NUM =>
       t <- eval (newExpNode ConstK) ;;
       t <- assign_val NUM t ;;
       exec (match_ NUM) ;;
       ret t
   | ID =>
       t <- eval (newExpNode IdK) ;;
       t <- assign_name ID t ;;
       exec (match_ ID) ;;
       ret t
   | LPAREN =>
       exec (match_ LPAREN) ;;
       t <- exp n ;;
       exec (match_ RPAREN) ;;
       ret t
   | _ => skip_unexpected
   end).
Proof. reflexivity. Qed.

Lemma while_stmt_eq n :
  while_stmt (S n) =
  (node <- eval (newStmtNode WhileK) ;;
   exec (match_ WHILE) ;;
   node <- assign_child 0 node (exp n) ;;
   exec (match_ DO) ;;
   node <- assign_child 1 node (stmt_sequence n) ;;
   exec (match_ ENDWHILE) ;;
   ret node).
Proof. reflexivity. Qed.

Lemma dowhile_stmt_eq n :
  dowhile_stmt (S n) =
  (node <- eval (newStmtNode DoWhileK) ;;
   exec (match_ DO) ;;
   node <- assign_child 0 node (stmt_sequence n) ;;
   exec (match_ WHILE) ;;
   exec (match_ LPAREN) ;;
   node <- assign_child 1 node (exp n) ;;
   exec (match_ RPAREN) ;;
   ret node).
Proof. reflexivity. Qed.

Lemma for_stmt_eq n :
  for_stmt (S n) =
  (node <- eval (newStmtNode ForK) ;;
   exec (match_ FOR) ;;
   node <- assign_name ID node ;;
   exec (match_ ID) ;;
   exec (match_ ASSIGN) ;;
   node <- assign_child 0 node (simple_exp n) ;;
   tok <- eval token ;;
   when (tok_eqb tok TO) (exec (match_ TO)) ;;
   tok <- eval token ;;
   when (tok_eqb tok DOWNTO) (exec (match_ DOWNTO)) ;;
   node <- assign_child 1 node (simple_exp n) ;;
   exec (match_ DO) ;;
   node <- assign_child 2 node (stmt_sequence n) ;;
   exec (match_ ENDDO) ;;
   ret node).
Proof. reflexivity. Qed.

#[global] Arguments stmt_sequence : simpl never.
#[global] Arguments stmt_sequence_loop : simpl never.
#[global] Arguments statement : simpl never.
#[global] Arguments if_stmt : simpl never.
#[global] Arguments repeat_stmt : simpl never.
#[global] Arguments assign_stmt : simpl never.
#[global] Arguments write_stmt : simpl never.
#[global] Arguments exp : simpl never.
#[global] Arguments simple_exp : simpl never.
#[global] Arguments simple_exp_loop : simpl never.
#[global] Arguments term : simpl never.
#[global] Arguments term_loop : simpl never.
#[global] Arguments factor : simpl never.
#[global] Arguments while_stmt : simpl never.
#[global] Arguments dowhile_stmt : simpl never.
#[global] Arguments for_stmt : simpl never.

(** ** Inversion of a run *)

Lemma bind_Some {A B} (p : Parser A) (k : A -> Parser B) s b s' :
  bind p k s = Some (b, s') ->
  exists a s1, p s = Some (a, s1) /\ k a s1 = Some (b, s').
Proof.
  unfold bind. destruct (p s) as [[a s1]|]; [|discriminate].
  intros H. exists a, s1. auto.
Qed.

Lemma bind_run {A B} (p : Parser A) (k : A -> Parser B) s a s1 :
  p s = Some (a, s1) -> bind p k s = k a s1.
Proof. unfold bind. intros ->. reflexivity. Qed.

Lemma bind_exec {B} f (k : unit -> Parser B) s :
  bind (exec f) k s = k tt (f s).
Proof. reflexivity. Qed.

Lemma bind_eval {A B} (f : State -> A) (k : A -> Parser B) s :
  bind (eval f) k s = k (f s) s.
Proof. reflexivity. Qed.

Lemma assign_name_run kind t s : assign_name kind t s = Some (named kind t s, s).
Proof.
  unfold assign_name, named.
  destruct t as [n|]; [destruct (tok_eqb (token s) kind)|]; reflexivity.
Qed.

Lemma bind_assign_name {B} kind t (k : option TreeNode -> Parser B) s :
  bind (assign_name kind t) k s = k (named kind t s) s.
Proof. unfold bind. rewrite assign_name_run. reflexivity. Qed.

Lemma exec_Some f s u s' : exec f s = Some (u, s') -> s' = f s.
Proof. unfold exec. congruence. Qed.

Lemma eval_Some {A} (f : State -> A) s a s' :
  eval f s = Some (a, s') -> a = f s /\ s' = s.
Proof. unfold eval. intros H. injection H as <- <-. auto. Qed.

Lemma ret_Some {A} (a : A) s b s' : ret a s = Some (b, s') -> b = a /\ s' = s.
Proof. unfold ret. intros H. injection H as <- <-. auto. Qed.

Lemma assign_child_Some i t rule s r s' :
  assign_child i t rule s = Some (r, s') ->
  (t = None /\ r = None /\ s' = s) \/
  (exists n c, t = Some n /\ rule s = Some (c, s') /\ r = Some (set_child i n c)).
Proof.
  destruct t as [n|]; simpl.
  - intros H. apply bind_Some in H as (c & s1 & Hc & H).
    apply ret_Some in H as [-> ->]. right. eauto.
  - intros H. apply ret_Some in H as [-> ->]. auto.
Qed.

Lemma assign_name_Some kind t s r s' :
  assign_name kind t s = Some (r, s') ->
  s' = s /\
  r = match t with
      | Some n => if tok_eqb (token s) kind
                  then Some (set_attr n (AttrName (copyString (tokenString s))))
                  else t
      | None => None
      end.
Proof.
  unfold assign_name. destruct t as [n|].
  - destruct (tok_eqb (token s) kind); intros H; injection H as <- <-; auto.
  - intros H; injection H as <- <-; auto.
Qed.

Lemma assign_val_Some kind t s r s' :
  assign_val kind t s = Some (r, s') ->
  s' = s /\
  r = match t with
      | Some n => if tok_eqb (token s) kind
                  then Some (set_attr n (AttrVal (atoi (tokenString s))))
                  else t
      | None => None
      end.
Proof.
  unfold assign_val. destruct t as [n|].
  - destruct (tok_eqb (token s) kind); intros H; injection H as <- <-; auto.
  - intros H; injection H as <- <-; auto.
Qed.

Lemma when_Some b p s u s' :
  when b p s = Some (u, s') ->
  (b = true /\ p s = Some (u, s')) \/ (b = false /\ s' = s).
Proof.
  destruct b; simpl; auto. intros H. apply ret_Some in H as [_ ->]. auto.
Qed.

Lemma skip_unexpected_Some s r s' :
  skip_unexpected s = Some (r, s') ->
  r = None /\ s' = getToken (printToken (syntaxError unexpected_token s)).
Proof. unfold skip_unexpected. cbv [bind exec ret]. intros H. injection H as <- <-. auto. Qed.

Lemma tok_eqb_eq a b : tok_eqb a b = true <-> a = b.
Proof.
  unfold tok_eqb. split.
  - apply internal_TokenType_dec_bl.
  - apply internal_TokenType_dec_lb.
Qed.

Lemma tok_eqb_neq a b : tok_eqb a b = false <-> a <> b.
Proof.
  split.
  - intros H E. apply tok_eqb_eq in E. congruence.
  - intros H. destruct (tok_eqb a b) eqn:E; [|reflexivity].
    apply tok_eqb_eq in E. contradiction.
Qed.

(** ** More fuel never changes a result *)

Lemma refines_refl {A} (p : Parser A) : refines p p.
Proof. intros s r H. exact H. Qed.

Lemma refines_bind {A B} (p p' : Parser A) (k k' : A -> Parser B) :
  refines p p' -> (forall a, refines (k a) (k' a)) ->
  refines (bind p k) (bind p' k').
Proof.
  intros Hp Hk s [b s'] H. apply bind_Some in H as (a & s1 & H1 & H2).
  rewrite (bind_run _ _ _ _ _ (Hp _ _ H1)). apply Hk. exact H2.
Qed.

Lemma refines_assign_child i t (p p' : Parser (option TreeNode)) :
  refines p p' -> refines (assign_child i t p) (assign_child i t p').
Proof.
  intros Hp. destruct t as [n|]; simpl.
  - apply refines_bind; [exact Hp | intros a; apply refines_refl].
  - apply refines_refl.
Qed.

Lemma refines_out_of_fuel {A} (p : Parser A) : refines out_of_fuel p.
Proof. intros s r H. discriminate H. Qed.

Ltac refines_step :=
  match goal with
  | |- refines ?p ?p => apply refines_refl
  | |- refines (let _ := _ in _) _ => cbv zeta
  | |- refines (bind _ _) (bind _ _) => apply refines_bind; [| intros ?]
  | |- refines (assign_child _ _ _) (assign_child _ _ _) =>
      apply refines_assign_child
  | |- refines (if ?b then _ else _) (if ?b then _ else _) => destruct b
  | |- refines (match ?x with _ => _ end) (match ?x with _ => _ end) =>
      destruct x
  | H : _ |- refines _ _ => apply H
  end.

Lemma fuel_step : forall n, EveryRule (fun f => refines (f n) (f (S n))).
Proof.
  induction n as [|n IH].
  - constructor; intros; apply refines_out_of_fuel.
  - destruct IH. constructor; intros.
    + rewrite !stmt_sequence_eq. repeat refines_step.
    + rewrite !stmt_sequence_loop_eq. repeat refines_step.
    + rewrite !statement_eq. repeat refines_step.
    + rewrite !if_stmt_eq. repeat refines_step.
    + rewrite !repeat_stmt_eq. repeat refines_step.
    + rewrite !assign_stmt_eq. repeat refines_step.
    + rewrite !write_stmt_eq. repeat refines_step.
    + rewrite !exp_eq. repeat refines_step.
    + rewrite !simple_exp_eq. repeat refines_step.
    + rewrite !simple_exp_loop_eq. repeat refines_step.
    + rewrite !term_eq. repeat refines_step.
    + rewrite !term_loop_eq. repeat refines_step.
    + rewrite !factor_eq. repeat refines_step.
    + rewrite !while_stmt_eq. repeat refines_step.
    + rewrite !dowhile_stmt_eq. repeat refines_step.
    + rewrite !for_stmt_eq. repeat refines_step.
Qed.

Lemma refines_trans {A} (p q r : Parser A) :
  refines p q -> refines q r -> refines p r.
Proof. intros H1 H2 s x H. apply H2, H1, H. Qed.

Lemma fuel_mono_rules : forall n m, n <= m ->
  EveryRule (fun f => refines (f n) (f m)).
Proof.
  intros n m Hle. induction Hle as [|m Hle IH].
  - constructor; intros; apply refines_refl.
  - destruct IH, (fuel_step m).
    constructor; intros; cbv beta in *; eapply refines_trans; eauto.
Qed.

(** A mismatch leaves the cursor where it is. *)
Lemma match_miss expected s :
  token s <> expected ->
  match_ expected s =
  fprintf_listing (Text "      ") (printToken (syntaxError unexpected_token s)).
Proof. intros H. apply tok_eqb_neq in H. unfold match_. rewrite H. reflexivity. Qed.

Lemma match_hit expected s : token s = expected -> match_ expected s = getToken s.
Proof. intros H. apply tok_eqb_eq in H. unfold match_. rewrite H. reflexivity. Qed.

(** ** Relations every rule preserves

    A reflexive and transitive relation between the state before and the
    state after, that holds across each primitive update of the globals,
    holds across every rule. *)

Section Keeps.
Variable R : State -> State -> Prop.
Hypothesis R_refl : forall s, R s s.
Hypothesis R_trans : forall a b c, R a b -> R b c -> R a c.
Hypothesis R_getToken : forall s, R s (getToken s).
Hypothesis R_syntaxError : forall m s, R s (syntaxError m s).
Hypothesis R_printToken : forall s, R s (printToken s).
Hypothesis R_text : forall x s, R s (fprintf_listing (Text x) s).

Lemma keeps_ret {A} (a : A) : keeps R (ret a).
Proof. intros s b s' H. apply ret_Some in H as [_ ->]. apply R_refl. Qed.

Lemma keeps_eval {A} (f : State -> A) : keeps R (eval f).
Proof. intros s b s' H. apply eval_Some in H as [_ ->]. apply R_refl. Qed.

Lemma keeps_bind {A B} (p : Parser A) (k : A -> Parser B) :
  keeps R p -> (forall a, keeps R (k a)) -> keeps R (bind p k).
Proof.
  intros Hp Hk s b s' H. apply bind_Some in H as (a & s1 & H1 & H2).
  eapply R_trans; [eapply Hp | eapply Hk]; eassumption.
Qed.

Lemma R_match expected s : R s (match_ expected s).
Proof.
  unfold match_. destruct (tok_eqb (token s) expected).
  - apply R_getToken.
  - eapply R_trans; [apply R_syntaxError|].
    eapply R_trans; [apply R_printToken|]. apply R_text.
Qed.

Lemma keeps_match expected : keeps R (exec (match_ expected)).
Proof. intros s u s' H. apply exec_Some in H as ->. apply R_match. Qed.

Lemma keeps_match_token : keeps R (exec (fun s => match_ (token s) s)).
Proof. intros s u s' H. apply exec_Some in H as ->. apply R_match. Qed.

Lemma keeps_getToken : keeps R (exec getToken).
Proof. intros s u s' H. apply exec_Some in H as ->. apply R_getToken. Qed.

Lemma keeps_syntaxError m : keeps R (exec (syntaxError m)).
Proof. intros s u s' H. apply exec_Some in H as ->. apply R_syntaxError. Qed.

Lemma keeps_skip_unexpected : keeps R skip_unexpected.
Proof.
  intros s r s' H. apply skip_unexpected_Some in H as [_ ->].
  eapply R_trans; [apply R_syntaxError|].
  eapply R_trans; [apply R_printToken|]. apply R_getToken.
Qed.

Lemma keeps_assign_child i t p : keeps R p -> keeps R (assign_child i t p).
Proof.
  intros Hp s r s' H.
  apply assign_child_Some in H as [(_ & _ & ->)|(n & c & _ & H & _)].
  - apply R_refl.
  - eapply Hp; eassumption.
Qed.

Lemma keeps_assign_name kind t : keeps R (assign_name kind t).
Proof. intros s r s' H. apply assign_name_Some in H as [-> _]. apply R_refl. Qed.

Lemma keeps_assign_val kind t : keeps R (assign_val kind t).
Proof. intros s r s' H. apply assign_val_Some in H as [-> _]. apply R_refl. Qed.

Lemma keeps_when b p : keeps R p -> keeps R (when b p).
Proof. intros Hp. destruct b; simpl; [exact Hp | apply keeps_ret]. Qed.

Lemma keeps_out_of_fuel {A} : keeps R (@out_of_fuel A).
Proof. intros s a s' H. discriminate H. Qed.

Ltac keeps_step :=
  match goal with
  | |- keeps _ (let _ := _ in _) => cbv zeta
  | |- keeps _ (bind _ _) => apply keeps_bind; [| intros ?]
  | |- keeps _ (ret _) => apply keeps_ret
  | |- keeps _ (eval _) => apply keeps_eval
  | |- keeps _ (exec (match_ _)) => apply keeps_match
  | |- keeps _ (exec getToken) => apply keeps_getToken
  | |- keeps _ (exec (syntaxError _)) => apply keeps_syntaxError
  | |- keeps _ (exec _) => apply keeps_match_token
  | |- keeps _ skip_unexpected => apply keeps_skip_unexpected
  | |- keeps _ (assign_child _ _ _) => apply keeps_assign_child
  | |- keeps _ (assign_name _ _) => apply keeps_assign_name
  | |- keeps _ (assign_val _ _) => apply keeps_assign_val
  | |- keeps _ (when _ _) => apply keeps_when
  | H : _ |- keeps _ _ => apply H
  | |- keeps _ (if ?b then _ else _) => destruct b
  | |- keeps _ (match ?x with _ => _ end) => destruct x
  end.

Lemma keeps_read_stmt : keeps R read_stmt.
Proof. unfold read_stmt. repeat keeps_step. Qed.

Lemma keeps_rules : forall n, EveryRule (fun f => keeps R (f n)).
Proof.
  induction n as [|n IH].
  - constructor; intros; apply keeps_out_of_fuel.
  - destruct IH. pose proof keeps_read_stmt. constructor; intros.
    + rewrite stmt_sequence_eq. repeat keeps_step.
    + rewrite stmt_sequence_loop_eq. repeat keeps_step.
    + rewrite statement_eq. repeat keeps_step.
    + rewrite if_stmt_eq. repeat keeps_step.
    + rewrite repeat_stmt_eq. repeat keeps_step.
    + rewrite assign_stmt_eq. repeat keeps_step.
    + rewrite write_stmt_eq. repeat keeps_step.
    + rewrite exp_eq. repeat keeps_step.
    + rewrite simple_exp_eq. repeat keeps_step.
    + rewrite simple_exp_loop_eq. repeat keeps_step.
    + rewrite term_eq. repeat keeps_step.
    + rewrite term_loop_eq. repeat keeps_step.
    + rewrite factor_eq. repeat keeps_step.
    + rewrite while_stmt_eq. repeat keeps_step.
    + rewrite dowhile_stmt_eq. repeat keeps_step.
    + rewrite for_stmt_eq. repeat keeps_step.
Qed.

Lemma keeps_parse n : keeps R (parse n).
Proof.
  destruct (keeps_rules n). unfold parse. repeat keeps_step.
Qed.
(** Past its leading keyword, a statement rule is a composition of the
    steps above. *)
Ltac after_keyword H Htok :=
  repeat (let a := fresh "a" in let s1 := fresh "s" in
          let H1 := fresh "Hrun" in
          apply bind_Some in H as (a & s1 & H1 & H);
          first [ apply eval_Some in H1 as [? ?]
                | apply assign_name_Some in H1 as [? ?]
                | apply exec_Some in H1 ];
          subst;
          try (rewrite (match_hit _ _ Htok) in H;
               lazymatch type of H with
               | ?p (getToken _) = Some _ =>
                   cut (keeps R p); [intros K; exact (K _ _ _ H) | clear H]
               end)).

Lemma keeps_after_keyword n :
  (forall s r s', token s = IF -> if_stmt n s = Some (r, s') -> R (getToken s) s') /\
  (forall s r s', token s = REPEAT -> repeat_stmt n s = Some (r, s') -> R (getToken s) s') /\
  (forall s r s', token s = ID -> assign_stmt n s = Some (r, s') -> R (getToken s) s') /\
  (forall s r s', token s = READ -> read_stmt s = Some (r, s') -> R (getToken s) s') /\
  (forall s r s', token s = WRITE -> write_stmt n s = Some (r, s') -> R (getToken s) s') /\
  (forall s r s', token s = WHILE -> while_stmt n s = Some (r, s') -> R (getToken s) s') /\
  (forall s r s', token s = DO -> dowhile_stmt n s = Some (r, s') -> R (getToken s) s') /\
  (forall s r s', token s = FOR -> for_stmt n s = Some (r, s') -> R (getToken s) s').
Proof.
  destruct n as [|n].
  - repeat split; intros s r s' Htok H; try discriminate H.
    unfold read_stmt in H. after_keyword H Htok. repeat keeps_step.
  - destruct (keeps_rules n).
    repeat split; intros s r s' Htok H.
    + rewrite if_stmt_eq in H. after_keyword H Htok. repeat keeps_step.
    + rewrite repeat_stmt_eq in H. after_keyword H Htok. repeat keeps_step.
    + rewrite assign_stmt_eq in H. after_keyword H Htok. repeat keeps_step.
    + unfold read_stmt in H. after_keyword H Htok. repeat keeps_step.
    + rewrite write_stmt_eq in H. after_keyword H Htok. repeat keeps_step.
    + rewrite while_stmt_eq in H. after_keyword H Htok. repeat keeps_step.
    + rewrite dowhile_stmt_eq in H. after_keyword H Htok. repeat keeps_step.
    + rewrite for_stmt_eq in H. after_keyword H Htok. repeat keeps_step.
Qed.
End Keeps.

(** ** The tokens left *)

Lemma remaining_getToken s : remaining (getToken s) <= remaining s.
Proof.
  unfold remaining, getToken. destruct (source s) as [|tk rest]; simpl.
  - lia.
  - destruct (tok_eqb (tk_kind tk) ENDFILE), (tok_eqb (token s) ENDFILE); lia.
Qed.

Lemma remaining_getToken_lt s :
  token s <> ENDFILE -> remaining (getToken s) < remaining s.
Proof.
  intros H. apply tok_eqb_neq in H.
  unfold remaining, getToken. rewrite H. destruct (source s) as [|tk rest]; simpl.
  - lia.
  - destruct (tok_eqb (tk_kind tk) ENDFILE); lia.
Qed.

Lemma remaining_pos s : token s <> ENDFILE -> 0 < remaining s.
Proof. intros H. apply tok_eqb_neq in H. unfold remaining. rewrite H. lia. Qed.

Lemma no_more_than_rules n : EveryRule (fun f => keeps no_more_than (f n)).
Proof.
  apply keeps_rules; unfold no_more_than; intros; try reflexivity.
  - lia.
  - apply remaining_getToken.
Qed.

Lemma remaining_match expected s : remaining (match_ expected s) <= remaining s.
Proof.
  unfold match_. destruct (tok_eqb (token s) expected).
  - apply remaining_getToken.
  - reflexivity.
Qed.

Lemma no_more_than_after_keyword n :
  (forall s r s', token s = IF -> if_stmt n s = Some (r, s') ->
     no_more_than (getToken s) s') /\
  (forall s r s', token s = REPEAT -> repeat_stmt n s = Some (r, s') ->
     no_more_than (getToken s) s') /\
  (forall s r s', token s = ID -> assign_stmt n s = Some (r, s') ->
     no_more_than (getToken s) s') /\
  (forall s r s', token s = READ -> read_stmt s = Some (r, s') ->
     no_more_than (getToken s) s') /\
  (forall s r s', token s = WRITE -> write_stmt n s = Some (r, s') ->
     no_more_than (getToken s) s') /\
  (forall s r s', token s = WHILE -> while_stmt n s = Some (r, s') ->
     no_more_than (getToken s) s') /\
  (forall s r s', token s = DO -> dowhile_stmt n s = Some (r, s') ->
     no_more_than (getToken s) s') /\
  (forall s r s', token s = FOR -> for_stmt n s = Some (r, s') ->
     no_more_than (getToken s) s').
Proof.
  apply keeps_after_keyword; unfold no_more_than; intros; try reflexivity.
  - lia.
  - apply remaining_getToken.
Qed.

Lemma remaining_skip m s :
  remaining (getToken (printToken (syntaxError m s))) = remaining (getToken s).
Proof. unfold remaining, getToken. simpl. destruct (source s); reflexivity. Qed.

(** A statement consumes at least one token, unless it starts at the end
    of the input. *)
Lemma statement_progress n s r s' :
  statement n s = Some (r, s') -> token s <> ENDFILE ->
  remaining s' < remaining s.
Proof.
  destruct n as [|n]; [discriminate|].
  rewrite statement_eq. intros H Hne.
  apply bind_Some in H as (tok & s0 & H0 & H).
  apply eval_Some in H0 as [-> ->].
  pose proof (remaining_getToken_lt s Hne) as Hlt.
  destruct (no_more_than_after_keyword n)
    as (Hif & Hrepeat & Hassign & Hread & Hwrite & Hwhile & Hdo & Hfor).
  unfold no_more_than in *.
  revert H. destruct (token s) eqn:E; intros H;
    try (apply skip_unexpected_Some in H as [_ ->];
         rewrite remaining_skip; exact Hlt).
  - apply Hif in H; [lia|assumption].
  - apply Hrepeat in H; [lia|assumption].
  - apply Hread in H; [lia|assumption].
  - apply Hwrite in H; [lia|assumption].
  - apply Hwhile in H; [lia|assumption].
  - apply Hdo in H; [lia|assumption].
  - apply Hfor in H; [lia|assumption].
  - apply Hassign in H; [lia|assumption].
Qed.

(** ** Termination *)

Lemma runs_ret m {A} (a : A) : runs m (ret a).
Proof. intros s H. exists a, s. auto. Qed.

Lemma runs_eval m {A} (f : State -> A) : runs m (eval f).
Proof. intros s H. exists (f s), s. auto. Qed.

Lemma runs_bind m {A B} (p : Parser A) (k : A -> Parser B) :
  runs m p -> (forall a, runs m (k a)) -> runs m (bind p k).
Proof.
  intros Hp Hk s H. destruct (Hp s H) as (a & s1 & E1 & H1).
  destruct (Hk a s1 H1) as (b & s2 & E2 & H2).
  exists b, s2. split; [|exact H2].
  rewrite (bind_run _ _ _ _ _ E1). exact E2.
Qed.

Lemma runs_match m expected : runs m (exec (match_ expected)).
Proof.
  intros s H. exists tt, (match_ expected s). split; [reflexivity|].
  pose proof (remaining_match expected s). lia.
Qed.

Lemma runs_skip_unexpected m : runs m skip_unexpected.
Proof.
  intros s H. eexists _, _. split; [reflexivity|].
  rewrite remaining_skip. pose proof (remaining_getToken s). lia.
Qed.

Lemma runs_assign_child m i t p : runs m p -> runs m (assign_child i t p).
Proof.
  intros Hp. destruct t as [n|]; simpl.
  - apply runs_bind; [exact Hp | intros c; apply runs_ret].
  - apply runs_ret.
Qed.

Lemma runs_assign_name m kind t : runs m (assign_name kind t).
Proof.
  intros s H. unfold assign_name.
  destruct t as [n|]; [destruct (tok_eqb (token s) kind)|]; eauto.
Qed.

Lemma runs_assign_val m kind t : runs m (assign_val kind t).
Proof.
  intros s H. unfold assign_val.
  destruct t as [n|]; [destruct (tok_eqb (token s) kind)|]; eauto.
Qed.

Lemma runs_when m b p : runs m p -> runs m (when b p).
Proof. intros Hp. destruct b; simpl; [exact Hp | apply runs_ret]. Qed.

Ltac runs_step :=
  match goal with
  | |- runs _ (let _ := _ in _) => cbv zeta
  | |- runs _ (bind _ _) => apply runs_bind; [| intros ?]
  | |- runs _ (ret _) => apply runs_ret
  | |- runs _ (eval _) => apply runs_eval
  | |- runs _ (exec (match_ _)) => apply runs_match
  | |- runs _ skip_unexpected => apply runs_skip_unexpected
  | |- runs _ (assign_child _ _ _) => apply runs_assign_child
  | |- runs _ (assign_name _ _) => apply runs_assign_name
  | |- runs _ (assign_val _ _) => apply runs_assign_val
  | |- runs _ (when _ _) => apply runs_when
  | H : forall m, _ -> runs m ?p |- runs _ ?p => apply H; lia
  | H : forall t m, _ -> runs m (?f ?n t) |- runs _ (?f ?n _) => apply H; lia
  | |- runs _ (if ?b then _ else _) => destruct b
  end.

(** Past a token that was matched, what runs within one token less runs. *)
Lemma runs_after_hit m {A} (p : Parser A) s :
  token s <> ENDFILE -> remaining s <= m ->
  (0 < m -> runs (pred m) p) ->
  exists a s', p (getToken s) = Some (a, s') /\ remaining s' <= m.
Proof.
  intros Hne Hs Hp.
  pose proof (remaining_getToken_lt s Hne) as Hlt.
  destruct (Hp ltac:(lia) (getToken s) ltac:(lia)) as (a & s' & E & H').
  exists a, s'. split; [exact E | lia].
Qed.

Ltac keyword_hit Htok :=
  repeat first [ rewrite bind_eval | rewrite bind_assign_name ];
  rewrite bind_exec, (match_hit _ _ Htok);
  apply runs_after_hit; [rewrite Htok; discriminate | assumption | intros ?].

Lemma read_stmt_runs m : runs_from READ m read_stmt.
Proof.
  intros s Htok Hs. unfold read_stmt. keyword_hit Htok. repeat runs_step.
Qed.

(** Fuel [5 * m + c] is enough for a rule started with at most [m] tokens
    left, where [c] is the number of rules that may be entered before the
    next token is consumed. *)
Lemma rules_run : forall n,
  (forall m, 5 * m + 4 <= n -> runs m (stmt_sequence n)) /\
  (forall t m, 5 * m + 3 <= n -> runs m (stmt_sequence_loop n t)) /\
  (forall m, 5 * m + 2 <= n -> runs m (statement n)) /\
  (forall m, 5 * m + 1 <= n -> runs_from IF m (if_stmt n)) /\
  (forall m, 5 * m + 1 <= n -> runs_from REPEAT m (repeat_stmt n)) /\
  (forall m, 5 * m + 1 <= n -> runs_from ID m (assign_stmt n)) /\
  (forall m, 5 * m + 1 <= n -> runs_from WRITE m (write_stmt n)) /\
  (forall m, 5 * m + 1 <= n -> runs_from WHILE m (while_stmt n)) /\
  (forall m, 5 * m + 1 <= n -> runs_from DO m (dowhile_stmt n)) /\
  (forall m, 5 * m + 1 <= n -> runs_from FOR m (for_stmt n)) /\
  (forall m, 5 * m + 4 <= n -> runs m (exp n)) /\
  (forall m, 5 * m + 3 <= n -> runs m (simple_exp n)) /\
  (forall t m, 5 * m + 1 <= n -> runs m (simple_exp_loop n t)) /\
  (forall m, 5 * m + 2 <= n -> runs m (term n)) /\
  (forall t m, 5 * m + 1 <= n -> runs m (term_loop n t)) /\
  (forall m, 5 * m + 1 <= n -> runs m (factor n)).
Proof.
  induction n as [|n IH].
  - repeat split; intros; lia.
  - destruct IH as (Hseq & Hseql & Hstmt & Hif & Hrepeat & Hassign & Hwrite &
                    Hwhile & Hdo & Hfor & Hexp & Hsimple & Hsimplel & Hterm &
                    Htermr & Hfactor).
    repeat split.
    + (* stmt_sequence *)
      intros m Hm. rewrite stmt_sequence_eq. repeat runs_step.
    + (* its loop *)
      intros t m Hm s Hs. rewrite stmt_sequence_loop_eq, bind_eval.
      destruct (ends_sequence (token s)) eqn:Eend; [apply runs_ret; exact Hs|].
      assert (Hne : token s <> ENDFILE) by (intros E; rewrite E in Eend; discriminate).
      pose proof (remaining_pos s Hne) as Hpos.
      rewrite bind_exec.
      assert (Hq : exists q s1, statement n (match_ SEMI s) = Some (q, s1) /\
                                remaining s1 <= pred m).
      { destruct (tok_eqb (token s) SEMI) eqn:Esemi.
        - apply tok_eqb_eq in Esemi. rewrite (match_hit _ _ Esemi).
          apply (Hstmt (pred m)); [lia|].
          pose proof (remaining_getToken_lt s Hne). lia.
        - apply tok_eqb_neq in Esemi. rewrite (match_miss _ _ Esemi).
          destruct (Hstmt m ltac:(lia)
                      (fprintf_listing (Text "      ")
                         (printToken (syntaxError unexpected_token s))) Hs)
            as (q & s1 & Eq & _).
          exists q, s1. split; [exact Eq|].
          apply statement_progress in Eq; [|exact Hne].
          change (remaining s1 < remaining s) in Eq. lia. }
      destruct Hq as (q & s1 & Eq & Hs1).
      rewrite (bind_run _ _ _ _ _ Eq).
      destruct (Hseql (link t q) (pred m) ltac:(lia) s1 Hs1) as (r & s' & Er & Hr).
      exists r, s'. split; [exact Er | lia].
    + (* statement *)
      intros m Hm s Hs. rewrite statement_eq, bind_eval.
      destruct (token s) eqn:E; try (apply runs_skip_unexpected; exact Hs).
      * apply Hif; [lia | exact E | exact Hs].
      * apply Hrepeat; [lia | exact E | exact Hs].
      * apply read_stmt_runs; [exact E | exact Hs].
      * apply Hwrite; [lia | exact E | exact Hs].
      * apply Hwhile; [lia | exact E | exact Hs].
      * apply Hdo; [lia | exact E | exact Hs].
      * apply Hfor; [lia | exact E | exact Hs].
      * apply Hassign; [lia | exact E | exact Hs].
    + intros m Hm s Htok Hs. rewrite if_stmt_eq. keyword_hit Htok. repeat runs_step.
    + intros m Hm s Htok Hs. rewrite repeat_stmt_eq. keyword_hit Htok. repeat runs_step.
    + intros m Hm s Htok Hs. rewrite assign_stmt_eq. keyword_hit Htok. repeat runs_step.
    + intros m Hm s Htok Hs. rewrite write_stmt_eq. keyword_hit Htok. repeat runs_step.
    + intros m Hm s Htok Hs. rewrite while_stmt_eq. keyword_hit Htok. repeat runs_step.
    + intros m Hm s Htok Hs. rewrite dowhile_stmt_eq. keyword_hit Htok. repeat runs_step.
    + intros m Hm s Htok Hs. rewrite for_stmt_eq. keyword_hit Htok. repeat runs_step.
    + (* exp *)
      intros m Hm. rewrite exp_eq. repeat runs_step.
    + intros m Hm. rewrite simple_exp_eq. repeat runs_step.
    + (* the loop of simple_exp *)
      intros t m Hm s Hs. rewrite simple_exp_loop_eq, bind_eval.
      destruct (is_addop (token s)) eqn:Eop; [|apply runs_ret; exact Hs].
      rewrite bind_eval. simpl. rewrite bind_exec, (match_hit _ _ eq_refl).
      apply runs_after_hit; [intros E; rewrite E in Eop; discriminate | exact Hs |].
      intros Hpos. repeat runs_step.
    + intros m Hm. rewrite term_eq. repeat runs_step.
    + (* the loop of term *)
      intros t m Hm s Hs. rewrite term_loop_eq, bind_eval.
      destruct (is_mulop (token s)) eqn:Eop; [|apply runs_ret; exact Hs].
      rewrite bind_eval. simpl. rewrite bind_exec, (match_hit _ _ eq_refl).
      apply runs_after_hit; [intros E; rewrite E in Eop; discriminate | exact Hs |].
      intros Hpos. repeat runs_step.
    + (* factor *)
      intros m Hm s Hs. rewrite factor_eq, bind_eval.
      destruct (token s) eqn:E; try (apply runs_skip_unexpected; exact Hs).
      * repeat first [rewrite bind_eval | rewrite bind_assign_name].
        apply runs_bind; [apply runs_match | intros ?; apply runs_ret | exact Hs].
      * rewrite bind_eval.
        apply runs_bind; [apply runs_assign_val | intros ? | exact Hs].
        repeat runs_step.
      * rewrite bind_exec, (match_hit _ _ E).
        apply runs_after_hit; [rewrite E; discriminate | exact Hs |].
        intros Hpos. repeat runs_step.
Qed.

(** ** Diagnostics and the error flag *)

Lemma flagged_refl s : flagged s s.
Proof. exists []. rewrite app_nil_r, orb_false_r. auto. Qed.

Lemma flagged_trans a b c : flagged a b -> flagged b c -> flagged a c.
Proof.
  intros (o1 & L1 & E1) (o2 & L2 & E2). exists (o1 ++ o2). split.
  - rewrite L2, L1, app_assoc. reflexivity.
  - rewrite E2, E1, existsb_app, orb_assoc. reflexivity.
Qed.

Lemma Error_getToken s : Error (getToken s) = Error s.
Proof. unfold getToken. destruct (source s); reflexivity. Qed.

Lemma listing_getToken s : listing (getToken s) = listing s.
Proof. unfold getToken. destruct (source s); reflexivity. Qed.

Lemma flagged_getToken s : flagged s (getToken s).
Proof.
  exists []. rewrite app_nil_r, orb_false_r, Error_getToken, listing_getToken. auto.
Qed.

Lemma flagged_syntaxError m s : flagged s (syntaxError m s).
Proof.
  exists [Text (newline ++ ">>> ")%string; SyntaxErrorAt (lineno s) m]. split.
  - simpl. rewrite <- app_assoc. reflexivity.
  - simpl. rewrite orb_true_r. reflexivity.
Qed.

Lemma flagged_printToken s : flagged s (printToken s).
Proof. exists [TokenText (token s) (tokenString s)]. simpl. rewrite orb_false_r. auto. Qed.

Lemma flagged_text x s : flagged s (fprintf_listing (Text x) s).
Proof. exists [Text x]. simpl. rewrite orb_false_r. auto. Qed.

Lemma flagged_rules n : EveryRule (fun f => keeps flagged (f n)).
Proof.
  apply keeps_rules.
  - apply flagged_refl.
  - apply flagged_trans.
  - apply flagged_getToken.
  - apply flagged_syntaxError.
  - apply flagged_printToken.
  - apply flagged_text.
Qed.

Lemma flagged_parse n : keeps flagged (parse n).
Proof.
  apply keeps_parse.
  - apply flagged_refl.
  - apply flagged_trans.
  - apply flagged_getToken.
  - apply flagged_syntaxError.
  - apply flagged_printToken.
  - apply flagged_text.
Qed.

Lemma flagged_clean s s' : flagged s s' -> Error s' = false -> Error s = false.
Proof.
  intros (out & _ & E) H. rewrite H in E. symmetry in E.
  apply orb_false_iff in E as [E _]. exact E.
Qed.

(** A state with the flag down after [match] is the state after a hit. *)
Lemma match_clean expected s :
  Error (match_ expected s) = false ->
  token s = expected /\ Error s = false /\ match_ expected s = getToken s.
Proof.
  unfold match_. destruct (tok_eqb (token s) expected) eqn:E.
  - apply tok_eqb_eq in E. rewrite Error_getToken. auto.
  - discriminate.
Qed.

(** ** Trees of a parse without diagnostics *)

Lemma pending_getToken s :
  pending (getToken s) + opens_statement (token s) = pending s.
Proof.
  unfold pending, getToken. destruct (source s) as [|tk rest]; simpl; lia.
Qed.

Lemma match_clean_pending expected s :
  Error (match_ expected s) = false ->
  token s = expected /\ Error s = false /\
  pending (match_ expected s) + opens_statement expected = pending s.
Proof.
  intros H. apply match_clean in H as (Htok & Hc & ->).
  subst expected. repeat split; auto using pending_getToken.
Qed.

Lemma complete_append_sibling : forall t q,
  complete (append_sibling t q) = complete t && complete q.
Proof.
  fix IH 1. intros [c0 c1 c2 [m|] ln k a] q; simpl.
  - rewrite IH. rewrite !andb_assoc. reflexivity.
  - rewrite andb_true_r. reflexivity.
Qed.

Lemma count_append_sibling : forall t q,
  count_statements (append_sibling t q) = count_statements t + count_statements q.
Proof.
  fix IH 1. intros [c0 c1 c2 [m|] ln k a] q; simpl.
  - rewrite IH. lia.
  - lia.
Qed.

Lemma named_Some kind n s :
  named kind (Some n) s =
  Some (if tok_eqb (token s) kind
        then set_attr n (AttrName (copyString (tokenString s))) else n).
Proof. unfold named. destruct (tok_eqb (token s) kind); reflexivity. Qed.

Lemma assign_name_named kind t s r s' :
  assign_name kind t s = Some (r, s') -> s' = s /\ r = named kind t s.
Proof. rewrite assign_name_run. intros H. injection H as <- <-. auto. Qed.

Lemma assign_child_node i n rule s r s' :
  assign_child i (Some n) rule s = Some (r, s') ->
  exists c, rule s = Some (c, s') /\ r = Some (set_child i n c).
Proof.
  intros H. apply assign_child_Some in H as [(E & _)|(n' & c & E & H & ->)].
  - discriminate.
  - injection E as <-. eauto.
Qed.

(** Takes a run of a rule's body apart, every node pointer in it being
    known not to be null. *)
Ltac take_apart H :=
  cbv beta iota zeta delta [newStmtNode newExpNode] in H;
  rewrite ?named_Some in H;
  lazymatch type of H with
  | bind _ _ _ = Some _ =>
      let a := fresh "a" in let s1 := fresh "s" in
      let H1 := fresh "Hrun" in let H2 := fresh "Hrun" in
      apply bind_Some in H as (a & s1 & H1 & H2);
      take_apart H1; take_apart H2
  | exec _ _ = Some _ => apply exec_Some in H; subst
  | eval _ _ = Some _ => apply eval_Some in H as [? ?]; subst
  | ret _ _ = Some _ => apply ret_Some in H as [? ?]; subst
  | skip_unexpected _ = Some _ => apply skip_unexpected_Some in H as [? ?]; subst
  | assign_name _ _ _ = Some _ => apply assign_name_named in H as [? ?]; subst
  | assign_val _ _ _ = Some _ => apply assign_val_Some in H as [? ?]; subst
  | assign_child _ (Some _) _ _ = Some _ =>
      let c := fresh "c" in
      apply assign_child_node in H as (c & H & ?); subst
  | when ?b _ _ = Some _ =>
      let Hb := fresh "Hwhen" in
      apply when_Some in H as [[Hb H]|[Hb ?]]; [take_apart H | subst]
  | (if ?b then _ else _) _ = Some _ =>
      let Hb := fresh "Hif" in destruct b eqn:Hb; take_apart H
  | _ => idtac
  end.

Lemma skip_flagged m s : Error (getToken (printToken (syntaxError m s))) = true.
Proof. rewrite Error_getToken. reflexivity. Qed.

Ltac split_facts :=
  repeat match goal with
         | H : _ /\ _ |- _ => destruct H
         | H : exists _, _ |- _ => destruct H
         | H : clean_exp _ _ _ |- _ => unfold clean_exp in H
         | H : clean_stmt _ _ _ |- _ => unfold clean_stmt in H
         | H : clean_seq _ _ _ |- _ => unfold clean_seq in H
         end.

(** Walks a run backwards from a state whose flag is down. *)
Ltac clean_back :=
  repeat match goal with
         | Hc : Error (getToken (printToken (syntaxError _ _))) = false |- _ =>
             rewrite skip_flagged in Hc; discriminate Hc
         | Hc : Error (match_ ?k ?s) = false |- _ =>
             let Ht := fresh "Htok" in
             let Hc' := fresh "Hclean" in
             let Hp := fresh "Hpend" in
             destruct (match_clean_pending k s Hc) as (Ht & Hc' & Hp);
             clear Hc; simpl opens_statement in Hp
         | Hc : Error ?s' = false, H : ?p ?s = Some (?r, ?s'),
           IH : forall s r s', ?p s = Some (r, s') -> Error s' = false -> _ |- _ =>
             let F := fresh "Hfact" in
             pose proof (IH s r s' H Hc) as F; clear H; split_facts
         end.

Ltac finish_clean :=
  split_facts; subst;
  repeat match goal with
         | |- context [tok_eqb ?a ?b] => destruct (tok_eqb a b)
         end;
  repeat match goal with
         | |- _ /\ _ => split
         | |- exists _, Some _ = Some _ /\ _ => eexists; split; [reflexivity|]
         end;
  try assumption; try reflexivity;
  simpl;
  repeat match goal with
         | H : complete _ = true |- _ => rewrite H
         | H : count_statements _ = 0 |- _ => rewrite H
         end;
  simpl; try reflexivity; try lia.

Lemma flag_was_down n :
  EveryRule (fun f => forall s r s',
               f n s = Some (r, s') -> Error s' = false -> Error s = false).
Proof.
  destruct (flagged_rules n).
  constructor; intros; eapply flagged_clean; eauto;
    match goal with
    | K : keeps flagged ?p, H : ?p _ = Some _ |- _ => exact (K _ _ _ H)
    | K : forall t, keeps flagged _, H : _ = Some _ |- _ => exact (K _ _ _ _ H)
    end.
Qed.

Lemma read_stmt_clean s r s' :
  read_stmt s = Some (r, s') -> Error s' = false -> clean_stmt s r s'.
Proof.
  intros H Hc. unfold read_stmt in H. take_apart H. clean_back.
  unfold clean_stmt. finish_clean.
Qed.

(** When a rule returns with the flag down, it was entered with the flag
    down, every match in it was a hit, and its tree has no hole. *)
Lemma rules_clean : forall n,
  (forall s r s', stmt_sequence n s = Some (r, s') -> Error s' = false ->
     clean_seq s r s') /\
  (forall t0 s r s', stmt_sequence_loop n (Some t0) s = Some (r, s') ->
     Error s' = false -> complete t0 = true ->
     Error s = false /\
     exists t, r = Some t /\ complete t = true /\
       count_statements t + pending s' = count_statements t0 + pending s) /\
  (forall s r s', statement n s = Some (r, s') -> Error s' = false ->
     clean_stmt s r s') /\
  (forall s r s', if_stmt n s = Some (r, s') -> Error s' = false ->
     clean_stmt s r s') /\
  (forall s r s', repeat_stmt n s = Some (r, s') -> Error s' = false ->
     clean_stmt s r s') /\
  (forall s r s', assign_stmt n s = Some (r, s') -> Error s' = false ->
     clean_stmt s r s') /\
  (forall s r s', write_stmt n s = Some (r, s') -> Error s' = false ->
     clean_stmt s r s') /\
  (forall s r s', while_stmt n s = Some (r, s') -> Error s' = false ->
     clean_stmt s r s') /\
  (forall s r s', dowhile_stmt n s = Some (r, s') -> Error s' = false ->
     clean_stmt s r s') /\
  (forall s r s', for_stmt n s = Some (r, s') -> Error s' = false ->
     clean_stmt s r s') /\
  (forall s r s', exp n s = Some (r, s') -> Error s' = false ->
     clean_exp s r s') /\
  (forall s r s', simple_exp n s = Some (r, s') -> Error s' = false ->
     clean_exp s r s') /\
  (forall e0 s r s', simple_exp_loop n (Some e0) s = Some (r, s') ->
     Error s' = false -> complete e0 = true -> count_statements e0 = 0 ->
     clean_exp s r s') /\
  (forall s r s', term n s = Some (r, s') -> Error s' = false ->
     clean_exp s r s') /\
  (forall e0 s r s', term_loop n (Some e0) s = Some (r, s') ->
     Error s' = false -> complete e0 = true -> count_statements e0 = 0 ->
     clean_exp s r s') /\
  (forall s r s', factor n s = Some (r, s') -> Error s' = false ->
     clean_exp s r s').
Proof.
  induction n as [|n IH].
  - repeat match goal with |- _ /\ _ => split end; intros; discriminate.
  - destruct IH as (Hseq & Hseql & Hstmt & Hif & Hrepeat & Hassign & Hwrite &
                    Hwhile & Hdo & Hfor & Hexp & Hsimple & Hsimplel & Hterm &
                    Hterml & Hfactor).
    repeat match goal with |- _ /\ _ => split end.
    + (* stmt_sequence *)
      intros s r s' H Hc. rewrite stmt_sequence_eq in H.
      apply bind_Some in H as (t & s1 & H1 & H2).
      assert (Hc1 : Error s1 = false).
      { destruct (flagged_rules n) as [_ K _ _ _ _ _ _ _ _ _ _ _ _ _ _].
        eapply flagged_clean; [eapply K; exact H2 | exact Hc]. }
      destruct (Hstmt _ _ _ H1 Hc1) as (Hs & t1 & -> & Ht1 & Hsib & Hn1).
      destruct (Hseql _ _ _ _ H2 Hc Ht1) as (_ & t2 & -> & Ht2 & Hn2).
      split; [exact Hs|]. exists t2. repeat split; auto. lia.
    + (* its loop *)
      intros t0 s r s' H Hc Ht0. rewrite stmt_sequence_loop_eq in H.
      apply bind_Some in H as (tok & s0 & H0 & H).
      apply eval_Some in H0 as [-> ->].
      destruct (ends_sequence (token s)).
      * apply ret_Some in H as [-> ->].
        split; [exact Hc|]. exists t0. auto.
      * apply bind_Some in H as (u & s1 & H1 & H).
        apply exec_Some in H1 as ->.
        apply bind_Some in H as (q & s2 & H2 & H).
        assert (Hc2 : Error s2 = false).
        { destruct (flagged_rules n) as [_ K _ _ _ _ _ _ _ _ _ _ _ _ _ _].
          eapply flagged_clean; [eapply K; exact H | exact Hc]. }
        destruct (Hstmt _ _ _ H2 Hc2) as (Hc1 & t1 & -> & Ht1 & Hsib & Hn1).
        simpl link in H.
        destruct (Hseql _ _ _ _ H Hc) as (_ & t2 & -> & Ht2 & Hn2).
        { rewrite complete_append_sibling, Ht0, Ht1. reflexivity. }
        rewrite count_append_sibling in Hn2.
        clean_back. split; [assumption|].
        exists t2. repeat split; auto. lia.
    + (* statement *)
      intros s r s' H Hc. rewrite statement_eq in H.
      apply bind_Some in H as (tok & s0 & H0 & H).
      apply eval_Some in H0 as [-> ->].
      destruct (token s);
        try (apply skip_unexpected_Some in H as [_ ->];
             rewrite skip_flagged in Hc; discriminate Hc); auto.
      apply read_stmt_clean; assumption.
    + intros s r s' H Hc. rewrite if_stmt_eq in H. take_apart H; clean_back;
        unfold clean_stmt; finish_clean.
    + intros s r s' H Hc. rewrite repeat_stmt_eq in H. take_apart H; clean_back;
        unfold clean_stmt; finish_clean.
    + intros s r s' H Hc. rewrite assign_stmt_eq in H. take_apart H; clean_back;
        unfold clean_stmt; finish_clean.
    + intros s r s' H Hc. rewrite write_stmt_eq in H. take_apart H; clean_back;
        unfold clean_stmt; finish_clean.
    + intros s r s' H Hc. rewrite while_stmt_eq in H. take_apart H; clean_back;
        unfold clean_stmt; finish_clean.
    + intros s r s' H Hc. rewrite dowhile_stmt_eq in H. take_apart H; clean_back;
        unfold clean_stmt; finish_clean.
    + intros s r s' H Hc. rewrite for_stmt_eq in H. take_apart H; clean_back;
        unfold clean_stmt; finish_clean.
    + (* exp *)
      intros s r s' H Hc. rewrite exp_eq in H. take_apart H; clean_back;
        try match goal with
            | Hr : is_relop ?t = true |- _ =>
                assert (opens_statement t = 0)
                  by (destruct t; try discriminate Hr; reflexivity)
            end;
        unfold clean_exp; finish_clean.
    + (* simple_exp *)
      intros s r s' H Hc. rewrite simple_exp_eq in H.
      apply bind_Some in H as (t & s1 & H1 & H2).
      pose proof (er_simple_exp_loop _ (flag_was_down n) t _ _ _ H2 Hc) as Hc1.
      destruct (Hterm _ _ _ H1 Hc1) as (Hs & Hp1 & e1 & -> & He1 & Hn1).
      destruct (Hsimplel _ _ _ _ H2 Hc He1 Hn1) as (_ & Hp2 & e2 & -> & He2 & Hn2).
      unfold clean_exp. finish_clean.
    + (* its loop *)
      intros e0 s r s' H Hc He0 Hn0. rewrite simple_exp_loop_eq in H.
      apply bind_Some in H as (tok & s0 & H0 & H).
      apply eval_Some in H0 as [-> ->].
      destruct (is_addop (token s)) eqn:Eop.
      * assert (opens_statement (token s) = 0)
          by (destruct (token s); try discriminate Eop; reflexivity).
        take_apart H.
        match goal with
        | Hl : simple_exp_loop n ?t ?s1 = Some _ |- _ =>
            pose proof (er_simple_exp_loop _ (flag_was_down n) t _ _ _ Hl Hc) as Hc1
        end.
        clean_back. subst.
        match goal with
        | Hl : simple_exp_loop n _ _ = Some _ |- _ =>
            apply Hsimplel in Hl; [| exact Hc | |]
        end.
        -- unfold clean_exp in *. finish_clean.
        -- finish_clean.
        -- finish_clean.
      * apply ret_Some in H as [-> ->]. unfold clean_exp. finish_clean.
    + (* term *)
      intros s r s' H Hc. rewrite term_eq in H.
      apply bind_Some in H as (t & s1 & H1 & H2).
      pose proof (er_term_loop _ (flag_was_down n) t _ _ _ H2 Hc) as Hc1.
      destruct (Hfactor _ _ _ H1 Hc1) as (Hs & Hp1 & e1 & -> & He1 & Hn1).
      destruct (Hterml _ _ _ _ H2 Hc He1 Hn1) as (_ & Hp2 & e2 & -> & He2 & Hn2).
      unfold clean_exp. finish_clean.
    + (* its loop *)
      intros e0 s r s' H Hc He0 Hn0. rewrite term_loop_eq in H.
      apply bind_Some in H as (tok & s0 & H0 & H).
      apply eval_Some in H0 as [-> ->].
      destruct (is_mulop (token s)) eqn:Eop.
      * assert (opens_statement (token s) = 0)
          by (destruct (token s); try discriminate Eop; reflexivity).
        take_apart H.
        match goal with
        | Hl : term_loop n ?t ?s1 = Some _ |- _ =>
            pose proof (er_term_loop _ (flag_was_down n) t _ _ _ Hl Hc) as Hc1
        end.
        clean_back. subst.
        match goal with
        | Hl : term_loop n _ _ = Some _ |- _ =>
            apply Hterml in Hl; [| exact Hc | |]
        end.
        -- unfold clean_exp in *. finish_clean.
        -- finish_clean.
        -- finish_clean.
      * apply ret_Some in H as [-> ->]. unfold clean_exp. finish_clean.
    + (* factor *)
      intros s r s' H Hc. rewrite factor_eq in H.
      apply bind_Some in H as (tok & s0 & H0 & H).
      apply eval_Some in H0 as [-> ->].
      destruct (token s) eqn:Etok;
        try (apply skip_unexpected_Some in H as [_ ->];
             rewrite skip_flagged in Hc; discriminate Hc);
        take_apart H; clean_back; unfold clean_exp; finish_clean.
Qed.

(** ** The sibling link

    [statement] hands back a node whose sibling is null, so when
    [stmt_sequence] links it, the new node is the end of the chain: the
    pointer [p] of the C code, which moves to each node as it is linked,
    is the last node of the chain that [append_sibling] walks to. *)

Lemma read_stmt_no_sibling s r s' :
  read_stmt s = Some (r, s') -> no_sibling r.
Proof.
  intros H. unfold read_stmt in H. take_apart H.
  simpl.
  match goal with |- context [tok_eqb ?a ?b] => destruct (tok_eqb a b) end;
    reflexivity.
Qed.

Lemma statement_no_sibling n s r s' :
  statement n s = Some (r, s') -> no_sibling r.
Proof.
  destruct n as [|[|n]]; try discriminate.
  - rewrite statement_eq. intros H.
    apply bind_Some in H as (tok & s0 & H0 & H).
    apply eval_Some in H0 as [-> ->].
    destruct (token s); try discriminate H;
      try (apply skip_unexpected_Some in H as [-> _]; exact I).
    apply read_stmt_no_sibling in H. exact H.
  - rewrite statement_eq. intros H.
    apply bind_Some in H as (tok & s0 & H0 & H).
    apply eval_Some in H0 as [-> ->].
    destruct (token s);
      try (apply skip_unexpected_Some in H as [-> _]; exact I).
    + rewrite if_stmt_eq in H. take_apart H; reflexivity.
    + rewrite repeat_stmt_eq in H. take_apart H; reflexivity.
    + apply read_stmt_no_sibling in H. exact H.
    + rewrite write_stmt_eq in H. take_apart H; reflexivity.
    + rewrite while_stmt_eq in H. take_apart H; reflexivity.
    + rewrite dowhile_stmt_eq in H. take_apart H; reflexivity.
    + rewrite for_stmt_eq in H. take_apart H; simpl;
        match goal with |- context [tok_eqb ?a ?b] => destruct (tok_eqb a b) end;
        reflexivity.
    + rewrite assign_stmt_eq in H. take_apart H; simpl;
        match goal with |- context [tok_eqb ?a ?b] => destruct (tok_eqb a b) end;
        reflexivity.
Qed.

Lemma last_sibling_append : forall t q,
  last_sibling (append_sibling t q) = last_sibling q.
Proof.
  fix IH 1. intros [c0 c1 c2 [m|] ln k a] q; simpl.
  - apply IH.
  - reflexivity.
Qed.

(** After [q = statement()] has been linked, the end of the chain is [q]
    itself. *)
Lemma linked_node_is_last n s q s' t :
  statement n s = Some (Some q, s') ->
  exists t', link (Some t) (Some q) = Some t' /\ last_sibling t' = q.
Proof.
  intros H. apply statement_no_sibling in H. simpl in H.
  exists (append_sibling t q). split; [reflexivity|].
  rewrite last_sibling_append.
  destruct q as [c0 c1 c2 [m|] ln k a]; [discriminate H | reflexivity].
Qed.

(** ** Results that do not depend on the fuel *)

Lemma same_result :
  EveryRule (fun f => forall n m s x y,
               f n s = Some x -> f m s = Some y -> x = y).
Proof.
  assert (K : forall n m, EveryRule (fun f => forall s x y,
               f n s = Some x -> f m s = Some y -> x = y)).
  { intros n m.
    destruct (fuel_mono_rules n (max n m) (Nat.le_max_l n m)).
    destruct (fuel_mono_rules m (max n m) (Nat.le_max_r n m)).
    constructor; intros; cbv beta in *;
      match goal with
      | Hx : ?f n ?s = Some ?x, Hy : ?f m ?s = Some ?y,
        R1 : refines (?f n) _, R2 : refines (?f m) _ |- _ =>
          apply R1 in Hx; apply R2 in Hy; congruence
      | Hx : ?f n ?t ?s = Some ?x, Hy : ?f m ?t ?s = Some ?y,
        R1 : forall t, refines (?f n t) _, R2 : forall t, refines (?f m t) _ |- _ =>
          apply R1 in Hx; apply R2 in Hy; congruence
      end. }
  constructor; intros; cbv beta in *.
  all: match goal with
       | Hx : _ = Some ?x, Hy : _ = Some ?y |- _ =>
           revert Hx Hy
       end.
  - apply (er_stmt_sequence _ (K n m)).
  - apply (er_stmt_sequence_loop _ (K n m)).
  - apply (er_statement _ (K n m)).
  - apply (er_if_stmt _ (K n m)).
  - apply (er_repeat_stmt _ (K n m)).
  - apply (er_assign_stmt _ (K n m)).
  - apply (er_write_stmt _ (K n m)).
  - apply (er_exp _ (K n m)).
  - apply (er_simple_exp _ (K n m)).
  - apply (er_simple_exp_loop _ (K n m)).
  - apply (er_term _ (K n m)).
  - apply (er_term_loop _ (K n m)).
  - apply (er_factor _ (K n m)).
  - apply (er_while_stmt _ (K n m)).
  - apply (er_dowhile_stmt _ (K n m)).
  - apply (er_for_stmt _ (K n m)).
Qed.

Lemma parse_more n m : n <= m -> refines (parse n) (parse m).
Proof.
  intros Hle. destruct (fuel_mono_rules n m Hle). unfold parse.
  repeat refines_step.
Qed.

Lemma parse_same_result n m s x y :
  parse n s = Some x -> parse m s = Some y -> x = y.
Proof.
  intros Hx Hy.
  apply (parse_more n (max n m) (Nat.le_max_l n m)) in Hx.
  apply (parse_more m (max n m) (Nat.le_max_r n m)) in Hy.
  congruence.
Qed.

(** ** The top-level entry *)

Lemma remaining_primed s : remaining (getToken s) <= List.length (source s).
Proof.
  unfold remaining, getToken. destruct (source s) as [|tk rest]; simpl.
  - lia.
  - destruct (tok_eqb (tk_kind tk) ENDFILE); lia.
Qed.

Lemma stmt_sequence_total s :
  exists t s1, stmt_sequence (5 * remaining s + 4) s = Some (t, s1).
Proof.
  destruct (rules_run (5 * remaining s + 4)) as (Hseq & _).
  destruct (Hseq (remaining s) (Nat.le_refl _) s (Nat.le_refl _))
    as (t & s1 & E & _).
  eauto.
Qed.

Lemma parse_unfold n s t s1 :
  stmt_sequence n (getToken s) = Some (t, s1) ->
  parse n s =
  Some (t, if tok_eqb (token s1) ENDFILE then s1
           else syntaxError code_ends_before_file s1).
Proof.
  intros E. unfold parse. rewrite bind_exec, (bind_run _ _ _ _ _ E), bind_eval.
  destruct (tok_eqb (token s1) ENDFILE); reflexivity.
Qed.

Lemma sequence_iteration_progress fuel s q s1 :
  ends_sequence (token s) = false ->
  statement fuel (match_ SEMI s) = Some (q, s1) ->
  remaining s1 < remaining s.
Proof.
  intros Hend H.
  assert (Hne : token s <> ENDFILE) by (intros E; rewrite E in Hend; discriminate).
  destruct (tok_eqb (token s) SEMI) eqn:Esemi.
  - apply tok_eqb_eq in Esemi. rewrite (match_hit _ _ Esemi) in H.
    apply (er_statement _ (no_more_than_rules fuel)) in H.
    pose proof (remaining_getToken_lt s Hne). unfold no_more_than in H. lia.
  - apply tok_eqb_neq in Esemi. rewrite (match_miss _ _ Esemi) in H.
    apply statement_progress in H; [exact H | exact Hne].
Qed.

Lemma operator_iteration_progress (operand : Parser (option TreeNode)) s c s1 :
  keeps no_more_than operand -> token s <> ENDFILE ->
  operand (match_ (token s) s) = Some (c, s1) ->
  remaining s1 < remaining s.
Proof.
  intros K Hne H. rewrite (match_hit _ _ eq_refl) in H.
  apply K in H. pose proof (remaining_getToken_lt s Hne).
  unfold no_more_than in H. lia.
Qed.

Lemma parse_total s :
  exists t s', forall fuel,
    5 * List.length (source s) + 4 <= fuel -> parse fuel s = Some (t, s').
Proof.
  destruct (rules_run (5 * List.length (source s) + 4)) as (Hseq & _).
  destruct (Hseq (List.length (source s)) (Nat.le_refl _) (getToken s)
              (remaining_primed s)) as (t & s1 & E & _).
  eexists t, _. intros fuel Hle.
  apply (parse_more _ _ Hle). apply parse_unfold. exact E.
Qed.

(** C8: from any state of the globals, whatever the tokens the scanner
    still holds (a finite list, followed by end-of-input for ever),
    [parse] returns; fuel of five units per token and four more is
    enough, and so is any larger amount.  Behind it: no rule ever leaves
    more tokens than it found; [statement], entered anywhere but at the
    end of the input, consumes at least one token, so a rule entered
    through it has fewer tokens left; and every iteration of the loops of
    [stmt_sequence], [simple_exp] and [term] consumes at least one token,
    also when its [match] of the separator is a mismatch. *)
Theorem parse_terminates :
  (forall s, exists t s', forall fuel,
     5 * List.length (source s) + 4 <= fuel -> parse fuel s = Some (t, s')) /\
  (forall fuel, EveryRule (fun f => keeps no_more_than (f fuel))) /\
  (forall fuel s r s', token s <> ENDFILE ->
     statement fuel s = Some (r, s') -> remaining s' < remaining s) /\
  (forall fuel s q s1, ends_sequence (token s) = false ->
     statement fuel (match_ SEMI s) = Some (q, s1) ->
     remaining s1 < remaining s) /\
  (forall fuel s c s1, is_addop (token s) = true ->
     term fuel (match_ (token s) s) = Some (c, s1) ->
     remaining s1 < remaining s) /\
  (forall fuel s c s1, is_mulop (token s) = true ->
     factor fuel (match_ (token s) s) = Some (c, s1) ->
     remaining s1 < remaining s).
Proof.
  repeat match goal with |- _ /\ _ => split end.
  - apply parse_total.
  - apply no_more_than_rules.
  - intros fuel s r s' Hne H. exact (statement_progress _ _ _ _ H Hne).
  - apply sequence_iteration_progress.
  - intros fuel s c s1 Hop.
    apply operator_iteration_progress.
    + apply (er_term _ (no_more_than_rules fuel)).
    + intros E. rewrite E in Hop. discriminate Hop.
  - intros fuel s c s1 Hop.
    apply operator_iteration_progress.
    + apply (er_factor _ (no_more_than_rules fuel)).
    + intros E. rewrite E in Hop. discriminate Hop.
Qed.

(** C7: [parse] fetches the first token and runs [stmt_sequence] once; it
    always returns, and what it returns is the tree of that statement
    sequence; the globals are those the statement sequence left, with the
    trailing-input diagnostic added exactly when the lookahead is not the
    end-of-input token. *)
Theorem parse_is_one_sequence_then_end_check : forall s,
  exists t s1,
    returns stmt_sequence (getToken s) t s1 /\
    returns parse s t
      (if tok_eqb (token s1) ENDFILE then s1
       else syntaxError code_ends_before_file s1) /\
    forall t' s', returns parse s t' s' ->
      t' = t /\
      (token s1 = ENDFILE -> s' = s1) /\
      (token s1 <> ENDFILE ->
         Error s' = true /\
         listing s' =
           listing s1 ++ [Text (newline ++ ">>> ")%string;
                          SyntaxErrorAt (lineno s1) code_ends_before_file]).
Proof.
  intros s.
  destruct (stmt_sequence_total (getToken s)) as (t & s1 & E).
  exists t, s1.
  pose proof (parse_unfold _ _ _ _ E) as P.
  split; [eexists; exact E|]. split; [eexists; exact P|].
  intros t' s' [fuel' P'].
  pose proof (parse_same_result _ _ _ _ _ P' P) as Eq.
  injection Eq as -> ->. split; [reflexivity|]. split.
  - intros Htok. apply tok_eqb_eq in Htok. rewrite Htok. reflexivity.
  - intros Htok. apply tok_eqb_neq in Htok. rewrite Htok. simpl.
    rewrite <- app_assoc. auto.
Qed.


(** ** Cursor movement *)

Lemma cursor_getToken_skip m s :
  cursor (getToken (printToken (syntaxError m s))) = cursor (getToken s).
Proof. unfold cursor, getToken. simpl. destruct (source s); reflexivity. Qed.

Lemma statement_default n s :
  starts_statement (token s) = false ->
  statement (S n) s =
  Some (None, getToken (printToken (syntaxError unexpected_token s))).
Proof.
  intros H. rewrite statement_eq, bind_eval.
  destruct (token s); try discriminate H; reflexivity.
Qed.

Lemma factor_default n s :
  starts_factor (token s) = false ->
  factor (S n) s =
  Some (None, getToken (printToken (syntaxError unexpected_token s))).
Proof.
  intros H. rewrite factor_eq, bind_eval.
  destruct (token s); try discriminate H; reflexivity.
Qed.

Lemma listing_skip s :
  listing (getToken (printToken (syntaxError unexpected_token s))) =
  listing s ++ unexpected_token_report s.
Proof.
  rewrite listing_getToken. simpl. rewrite <- !app_assoc. reflexivity.
Qed.

(** C6: [getToken] takes exactly one token off the source.  On a hit,
    [match] is one [getToken] and nothing else; on a mismatch it leaves
    the cursor alone, raises the flag and reports.  The default branches
    of [statement] and of [factor] raise the flag, report, move the cursor
    by exactly one [getToken] and yield no node. *)
Theorem cursor_movement_by_error_class :
  (forall s, source (getToken s) = tl (source s) /\
             token (getToken s) =
               match source s with tk :: _ => tk_kind tk | [] => ENDFILE end) /\
  (forall expected s, token s = expected ->
     match_ expected s = getToken s /\
     Error (match_ expected s) = Error s /\
     listing (match_ expected s) = listing s) /\
  (forall expected s, token s <> expected ->
     cursor (match_ expected s) = cursor s /\
     Error (match_ expected s) = true /\
     listing (match_ expected s) =
       listing s ++ unexpected_token_report s ++ [Text "      "]) /\
  (forall s, starts_statement (token s) = false ->
     exists s',
       (forall fuel, statement (S fuel) s = Some (None, s')) /\
       cursor s' = cursor (getToken s) /\ Error s' = true /\
       listing s' = listing s ++ unexpected_token_report s) /\
  (forall s, starts_factor (token s) = false ->
     exists s',
       (forall fuel, factor (S fuel) s = Some (None, s')) /\
       cursor s' = cursor (getToken s) /\ Error s' = true /\
       listing s' = listing s ++ unexpected_token_report s).
Proof.
  repeat match goal with |- _ /\ _ => split end.
  - intros s. unfold getToken. destruct (source s); auto.
  - intros expected s H. rewrite (match_hit _ _ H).
    auto using Error_getToken, listing_getToken.
  - intros expected s H. rewrite (match_miss _ _ H). simpl.
    repeat split. rewrite <- !app_assoc. reflexivity.
  - intros s H. eexists. split; [intros fuel; apply statement_default, H|].
    auto using cursor_getToken_skip, skip_flagged, listing_skip.
  - intros s H. eexists. split; [intros fuel; apply factor_default, H|].
    auto using cursor_getToken_skip, skip_flagged, listing_skip.
Qed.

(** ** The error flag and the tree *)

Lemma existsb_is_diagnostic out :
  existsb is_diagnostic out = true <-> has_diagnostic out.
Proof.
  rewrite existsb_exists. split.
  - intros ([x|line m|t x] & Hin & Hd); try discriminate Hd.
    exists line, m. exact Hin.
  - intros (line & m & Hin). exists (SyntaxErrorAt line m). auto.
Qed.

Lemma pending_primed s : pending (getToken s) = statement_slots (source s).
Proof.
  unfold pending, statement_slots, getToken.
  destruct (source s) as [|tk rest]; reflexivity.
Qed.

Lemma at_end_only_primed s : proper_source (source s) -> at_end_only (getToken s).
Proof.
  unfold at_end_only, proper_source, getToken. intros H.
  destruct (source s) as [|tk rest]; simpl.
  - auto.
  - inversion H; subst. split; [assumption|]. intros E. contradiction.
Qed.

Lemma stays_proper_rules n : EveryRule (fun f => keeps stays_proper (f n)).
Proof.
  apply keeps_rules; unfold stays_proper; auto.
  intros s [H _]. apply at_end_only_primed. exact H.
Qed.

(** C2: over a run of [parse], the flag is up at the end exactly when it
    was up at the start or a diagnostic was written to the listing during
    the run.  When the flag is down at the end, the tree is not null, every
    node in it has the child slots its variant requires, the lookahead is
    the end-of-input token, and the tree holds one statement node for each
    statement of the consumed input: one for the start of the program and
    one for each separator and each sequence-opening keyword ([then],
    [else], [repeat], [do]) consumed; and all of a proper source is
    consumed. *)
Theorem flag_follows_diagnostics_and_clean_tree_is_complete :
  forall fuel s r s',
    parse fuel s = Some (r, s') ->
    (exists out, listing s' = listing s ++ out /\
                 (Error s' = true <-> Error s = true \/ has_diagnostic out)) /\
    (Error s' = false ->
     exists t, r = Some t /\ complete t = true /\
               token s' = ENDFILE /\
               count_statements t + statement_slots (source s') =
                 S (statement_slots (source s)) /\
               (proper_source (source s) -> source s' = [])).
Proof.
  intros fuel s r s' H. split.
  - destruct (flagged_parse _ _ _ _ H) as (out & L & E).
    exists out. split; [exact L|].
    rewrite E, orb_true_iff, existsb_is_diagnostic. reflexivity.
  - intros Hc. unfold parse in H.
    apply bind_Some in H as (u & s0 & H0 & H). apply exec_Some in H0 as ->.
    apply bind_Some in H as (t & s1 & H1 & H).
    apply bind_Some in H as (tok & s2 & H2 & H). apply eval_Some in H2 as [-> ->].
    apply bind_Some in H as (u' & s3 & H3 & H). apply ret_Some in H as [-> ->].
    destruct (tok_eqb (token s1) ENDFILE) eqn:Etok; simpl in H3.
    + apply ret_Some in H3 as [_ ->]. apply tok_eqb_eq in Etok.
      destruct (rules_clean fuel) as (Hseq & _).
      destruct (Hseq _ _ _ H1 Hc) as (_ & t1 & -> & Ht & Hn).
      rewrite pending_primed in Hn. unfold pending in Hn. rewrite Etok in Hn.
      exists t1. repeat split; auto.
      intros Hp.
      apply (er_stmt_sequence _ (stays_proper_rules fuel) _ _ _ H1); auto.
      apply at_end_only_primed. exact Hp.
    + apply exec_Some in H3 as ->. discriminate Hc.
Qed.

(** ** Associativity and precedence *)

Lemma simple_exp_loop_stop n t s :
  is_addop (token s) = false -> simple_exp_loop (S n) t s = Some (t, s).
Proof. intros H. rewrite simple_exp_loop_eq, bind_eval, H. reflexivity. Qed.

Lemma simple_exp_loop_step n t s c s1 :
  is_addop (token s) = true ->
  term n (getToken s) = Some (c, s1) ->
  simple_exp_loop (S n) t s =
  simple_exp_loop n (Some (op_node (lineno s) (token s) t c)) s1.
Proof.
  intros H E. rewrite simple_exp_loop_eq, bind_eval, H, bind_eval. simpl.
  rewrite bind_exec, (match_hit _ _ eq_refl), (bind_run _ _ _ _ _ E).
  reflexivity.
Qed.

Lemma term_loop_stop n t s :
  is_mulop (token s) = false -> term_loop (S n) t s = Some (t, s).
Proof. intros H. rewrite term_loop_eq, bind_eval, H. reflexivity. Qed.

Lemma term_loop_step n t s c s1 :
  is_mulop (token s) = true ->
  factor n (getToken s) = Some (c, s1) ->
  term_loop (S n) t s =
  term_loop n (Some (op_node (lineno s) (token s) t c)) s1.
Proof.
  intros H E. rewrite term_loop_eq, bind_eval, H, bind_eval. simpl.
  rewrite bind_exec, (match_hit _ _ eq_refl), (bind_run _ _ _ _ _ E).
  reflexivity.
Qed.

Lemma term_more n m s x : n <= m -> term n s = Some x -> term m s = Some x.
Proof. intros Hle. apply (er_term _ (fuel_mono_rules n m Hle)). Qed.

Lemma factor_more n m s x : n <= m -> factor n s = Some x -> factor m s = Some x.
Proof. intros Hle. apply (er_factor _ (fuel_mono_rules n m Hle)). Qed.

Lemma simple_exp_more n m s x :
  n <= m -> simple_exp n s = Some x -> simple_exp m s = Some x.
Proof. intros Hle. apply (er_simple_exp _ (fuel_mono_rules n m Hle)). Qed.

Lemma exp_more n m s x : n <= m -> exp n s = Some x -> exp m s = Some x.
Proof. intros Hle. apply (er_exp _ (fuel_mono_rules n m Hle)). Qed.

Lemma simple_exp_three s t1 s1 t2 s2 t3 s3 :
  returns term s t1 s1 -> is_addop (token s1) = true ->
  returns term (getToken s1) t2 s2 -> is_addop (token s2) = true ->
  returns term (getToken s2) t3 s3 -> is_addop (token s3) = false ->
  returns simple_exp s
    (Some (op_node (lineno s2) (token s2)
             (Some (op_node (lineno s1) (token s1) t1 t2)) t3)) s3.
Proof.
  intros [n1 E1] Ho1 [n2 E2] Ho2 [n3 E3] Ho3.
  set (N := n1 + n2 + n3).
  exists (S (S (S (S N)))).
  apply (term_more _ (S (S (S N)))) in E1; [|lia].
  apply (term_more _ (S (S N))) in E2; [|lia].
  apply (term_more _ (S N)) in E3; [|lia].
  rewrite simple_exp_eq, (bind_run _ _ _ _ _ E1).
  rewrite (simple_exp_loop_step _ _ _ _ _ Ho1 E2).
  rewrite (simple_exp_loop_step _ _ _ _ _ Ho2 E3).
  apply simple_exp_loop_stop. exact Ho3.
Qed.

Lemma term_three s t1 s1 t2 s2 t3 s3 :
  returns factor s t1 s1 -> is_mulop (token s1) = true ->
  returns factor (getToken s1) t2 s2 -> is_mulop (token s2) = true ->
  returns factor (getToken s2) t3 s3 -> is_mulop (token s3) = false ->
  returns term s
    (Some (op_node (lineno s2) (token s2)
             (Some (op_node (lineno s1) (token s1) t1 t2)) t3)) s3.
Proof.
  intros [n1 E1] Ho1 [n2 E2] Ho2 [n3 E3] Ho3.
  set (N := n1 + n2 + n3).
  exists (S (S (S (S N)))).
  apply (factor_more _ (S (S (S N)))) in E1; [|lia].
  apply (factor_more _ (S (S N))) in E2; [|lia].
  apply (factor_more _ (S N)) in E3; [|lia].
  rewrite term_eq, (bind_run _ _ _ _ _ E1).
  rewrite (term_loop_step _ _ _ _ _ Ho1 E2).
  rewrite (term_loop_step _ _ _ _ _ Ho2 E3).
  apply term_loop_stop. exact Ho3.
Qed.

(** C3: at the additive level (operands parsed by [term], operators [+]
    and [-]) and at the multiplicative level (operands parsed by [factor],
    operators [*], [/] and [%]), an input of the shape operand, operator,
    operand, operator, operand yields the tree whose root is the second
    operator, whose left child is the node of the first operator over the
    first two operands, and whose right child is the third operand. *)
Theorem operators_fold_to_the_left :
  forall (l : Level) s t1 s1 t2 s2 t3 s3,
    returns (operand_rule l) s t1 s1 -> level_op l (token s1) = true ->
    returns (operand_rule l) (getToken s1) t2 s2 -> level_op l (token s2) = true ->
    returns (operand_rule l) (getToken s2) t3 s3 -> level_op l (token s3) = false ->
    returns (level_rule l) s
      (Some (op_node (lineno s2) (token s2)
               (Some (op_node (lineno s1) (token s1) t1 t2)) t3)) s3.
Proof.
  intros [|]; simpl.
  - apply simple_exp_three.
  - apply term_three.
Qed.

Lemma operators_fold_to_the_left_witness :
  returns simple_exp (primed one_minus_two_minus_three 0)
    (Some (op_node 1 MINUS
             (Some (op_node 1 MINUS (Some (const_node 1 1)) (Some (const_node 1 2))))
             (Some (const_node 1 3))))
    (primed one_minus_two_minus_three 5) /\
  returns simple_exp (primed one_minus_two_plus_three 0)
    (Some (op_node 1 PLUS
             (Some (op_node 1 MINUS (Some (const_node 1 1)) (Some (const_node 1 2))))
             (Some (const_node 1 3))))
    (primed one_minus_two_plus_three 5).
Proof.
  split.
  - apply (operators_fold_to_the_left Additive
             (primed one_minus_two_minus_three 0)
             (Some (const_node 1 1)) (primed one_minus_two_minus_three 1)
             (Some (const_node 1 2)) (primed one_minus_two_minus_three 3)
             (Some (const_node 1 3)) (primed one_minus_two_minus_three 5));
      first [reflexivity | exists 3; reflexivity].
  - apply (operators_fold_to_the_left Additive
             (primed one_minus_two_plus_three 0)
             (Some (const_node 1 1)) (primed one_minus_two_plus_three 1)
             (Some (const_node 1 2)) (primed one_minus_two_plus_three 3)
             (Some (const_node 1 3)) (primed one_minus_two_plus_three 5));
      first [reflexivity | exists 3; reflexivity].
Defined.

Lemma addop_not_mulop t : is_addop t = true -> is_mulop t = false.
Proof. destruct t; simpl; congruence. Qed.

Lemma term_one s f s1 :
  returns factor s f s1 -> is_mulop (token s1) = false -> returns term s f s1.
Proof.
  intros [n E] Ho. exists (S (S n)).
  apply (factor_more _ (S n)) in E; [|lia].
  rewrite term_eq, (bind_run _ _ _ _ _ E). apply term_loop_stop. exact Ho.
Qed.

Lemma term_two s f1 s1 f2 s2 :
  returns factor s f1 s1 -> is_mulop (token s1) = true ->
  returns factor (getToken s1) f2 s2 -> is_mulop (token s2) = false ->
  returns term s (Some (op_node (lineno s1) (token s1) f1 f2)) s2.
Proof.
  intros [n1 E1] Ho1 [n2 E2] Ho2. exists (S (S (S (n1 + n2)))).
  apply (factor_more _ (S (S (n1 + n2)))) in E1; [|lia].
  apply (factor_more _ (S (n1 + n2))) in E2; [|lia].
  rewrite term_eq, (bind_run _ _ _ _ _ E1).
  rewrite (term_loop_step _ _ _ _ _ Ho1 E2).
  apply term_loop_stop. exact Ho2.
Qed.

Lemma simple_exp_one s t s1 :
  returns term s t s1 -> is_addop (token s1) = false -> returns simple_exp s t s1.
Proof.
  intros [n E] Ho. exists (S (S n)).
  apply (term_more _ (S n)) in E; [|lia].
  rewrite simple_exp_eq, (bind_run _ _ _ _ _ E).
  apply simple_exp_loop_stop. exact Ho.
Qed.

Lemma simple_exp_two s t1 s1 t2 s2 :
  returns term s t1 s1 -> is_addop (token s1) = true ->
  returns term (getToken s1) t2 s2 -> is_addop (token s2) = false ->
  returns simple_exp s (Some (op_node (lineno s1) (token s1) t1 t2)) s2.
Proof.
  intros [n1 E1] Ho1 [n2 E2] Ho2. exists (S (S (S (n1 + n2)))).
  apply (term_more _ (S (S (n1 + n2)))) in E1; [|lia].
  apply (term_more _ (S (n1 + n2))) in E2; [|lia].
  rewrite simple_exp_eq, (bind_run _ _ _ _ _ E1).
  rewrite (simple_exp_loop_step _ _ _ _ _ Ho1 E2).
  apply simple_exp_loop_stop. exact Ho2.
Qed.

Lemma exp_one s t s1 :
  returns simple_exp s t s1 -> is_relop (token s1) = false -> returns exp s t s1.
Proof.
  intros [n E] Ho. exists (S n).
  rewrite exp_eq, (bind_run _ _ _ _ _ E), bind_eval, Ho. reflexivity.
Qed.

Lemma exp_two s a s1 b s2 :
  returns simple_exp s a s1 -> is_relop (token s1) = true ->
  returns simple_exp (getToken s1) b s2 ->
  returns exp s (Some (op_node (lineno s1) (token s1) a b)) s2.
Proof.
  intros [n1 E1] Ho [n2 E2]. exists (S (n1 + n2)).
  apply (simple_exp_more _ (n1 + n2)) in E1; [|lia].
  apply (simple_exp_more _ (n1 + n2)) in E2; [|lia].
  rewrite exp_eq, (bind_run _ _ _ _ _ E1), bind_eval, Ho, bind_eval. simpl.
  rewrite bind_exec, (match_hit _ _ eq_refl), (bind_run _ _ _ _ _ E2).
  reflexivity.
Qed.

Lemma returns_one_result :
  EveryRule (fun f => forall s r1 s1 r2 s2,
               returns f s r1 s1 -> returns f s r2 s2 -> r1 = r2 /\ s1 = s2).
Proof.
  destruct same_result.
  constructor; intros; cbv beta in *;
    match goal with
    | H1 : returns _ _ _ _, H2 : returns _ _ _ _ |- _ =>
        destruct H1 as [n1 H1]; destruct H2 as [n2 H2]
    end;
    match goal with
    | K : forall n m s x y, ?f n s = Some x -> ?f m s = Some y -> x = y,
      H1 : ?f _ _ = Some _, H2 : ?f _ _ = Some _ |- _ =>
        pose proof (K _ _ _ _ _ H1 H2) as Eq; injection Eq as -> ->; auto
    | K : forall t n m s x y, ?f n t s = Some x -> ?f m t s = Some y -> x = y,
      H1 : ?f _ _ _ = Some _, H2 : ?f _ _ _ = Some _ |- _ =>
        pose proof (K _ _ _ _ _ _ H1 H2) as Eq; injection Eq as -> ->; auto
    end.
Qed.

(** C4: with factors [a], [b], [c] as operands, [a + b * c] yields the
    additive operator at the root with the node of [b * c] as its right
    child, and [a * b + c] yields the additive operator at the root with
    the node of [a * b] as its left child; and whatever [simple_exp]
    yields on either side of a relational operator becomes a child of the
    node of that operator.  These are the only trees: [simple_exp] and
    [exp] return one result from one state. *)
Theorem precedence_by_nesting :
  (forall s a s1 b s2 c s3,
     returns factor s a s1 -> is_addop (token s1) = true ->
     returns factor (getToken s1) b s2 -> is_mulop (token s2) = true ->
     returns factor (getToken s2) c s3 ->
     is_mulop (token s3) = false -> is_addop (token s3) = false ->
     returns simple_exp s
       (Some (op_node (lineno s1) (token s1) a
                (Some (op_node (lineno s2) (token s2) b c)))) s3) /\
  (forall s a s1 b s2 c s3,
     returns factor s a s1 -> is_mulop (token s1) = true ->
     returns factor (getToken s1) b s2 -> is_addop (token s2) = true ->
     returns factor (getToken s2) c s3 ->
     is_mulop (token s3) = false -> is_addop (token s3) = false ->
     returns simple_exp s
       (Some (op_node (lineno s2) (token s2)
                (Some (op_node (lineno s1) (token s1) a b)) c)) s3) /\
  (forall s l s1 r s2,
     returns simple_exp s l s1 -> is_relop (token s1) = true ->
     returns simple_exp (getToken s1) r s2 ->
     returns exp s (Some (op_node (lineno s1) (token s1) l r)) s2) /\
  (forall s r1 s1 r2 s2,
     returns simple_exp s r1 s1 -> returns simple_exp s r2 s2 ->
     r1 = r2 /\ s1 = s2) /\
  (forall s r1 s1 r2 s2,
     returns exp s r1 s1 -> returns exp s r2 s2 -> r1 = r2 /\ s1 = s2).
Proof.
  repeat match goal with |- _ /\ _ => split end;
    try apply (er_simple_exp _ returns_one_result);
    try apply (er_exp _ returns_one_result).
  - intros s a s1 b s2 c s3 Ha Ho1 Hb Ho2 Hc Hm3 Ha3.
    eapply simple_exp_two.
    + eapply term_one; [exact Ha | apply addop_not_mulop, Ho1].
    + exact Ho1.
    + eapply term_two; eassumption.
    + exact Ha3.
  - intros s a s1 b s2 c s3 Ha Ho1 Hb Ho2 Hc Hm3 Ha3.
    eapply simple_exp_two.
    + eapply term_two; [exact Ha | exact Ho1 | exact Hb
                       | apply addop_not_mulop, Ho2].
    + exact Ho2.
    + eapply term_one; eassumption.
    + exact Ha3.
  - intros s l s1 r s2. apply exp_two.
Qed.

Lemma precedence_by_nesting_witness :
  returns simple_exp (primed two_plus_three_times_four 0)
    (Some (op_node 1 PLUS (Some (const_node 1 2))
             (Some (op_node 1 TIMES (Some (const_node 1 3))
                                    (Some (const_node 1 4))))))
    (primed two_plus_three_times_four 5) /\
  returns simple_exp (primed two_times_three_plus_four 0)
    (Some (op_node 1 PLUS
             (Some (op_node 1 TIMES (Some (const_node 1 2))
                                    (Some (const_node 1 3))))
             (Some (const_node 1 4))))
    (primed two_times_three_plus_four 5) /\
  returns exp (primed one_less_two_plus_three 0)
    (Some (op_node 1 LT (Some (const_node 1 1))
             (Some (op_node 1 PLUS (Some (const_node 1 2))
                                   (Some (const_node 1 3))))))
    (primed one_less_two_plus_three 5).
Proof.
  destruct precedence_by_nesting as (Hadd_mul & Hmul_add & Hrel & _).
  repeat match goal with |- _ /\ _ => split end.
  - apply (Hadd_mul (primed two_plus_three_times_four 0)
             (Some (const_node 1 2)) (primed two_plus_three_times_four 1)
             (Some (const_node 1 3)) (primed two_plus_three_times_four 3)
             (Some (const_node 1 4)) (primed two_plus_three_times_four 5));
      first [reflexivity | exists 2; reflexivity].
  - apply (Hmul_add (primed two_times_three_plus_four 0)
             (Some (const_node 1 2)) (primed two_times_three_plus_four 1)
             (Some (const_node 1 3)) (primed two_times_three_plus_four 3)
             (Some (const_node 1 4)) (primed two_times_three_plus_four 5));
      first [reflexivity | exists 2; reflexivity].
  - apply (Hrel (primed one_less_two_plus_three 0)
             (Some (const_node 1 1)) (primed one_less_two_plus_three 1)
             (Some (op_node 1 PLUS (Some (const_node 1 2))
                                   (Some (const_node 1 3))))
             (primed one_less_two_plus_three 5));
      first [reflexivity | exists 6; reflexivity].
Defined.

(** ** Relational operators do not chain *)

Lemma relop_not_end t : is_relop t = true -> ends_sequence t = false.
Proof. destruct t; simpl; congruence. Qed.

Lemma exp_same n m s x y : exp n s = Some x -> exp m s = Some y -> x = y.
Proof. apply (er_exp _ same_result). Qed.

Lemma stmt_sequence_same n m s x y :
  stmt_sequence n s = Some x -> stmt_sequence m s = Some y -> x = y.
Proof. apply (er_stmt_sequence _ same_result). Qed.

(** A relational lookahead after [exp] is a second operator: [exp] has
    consumed one already. *)
Lemma exp_leaves_second_operator s t s2 :
  returns exp s t s2 -> is_relop (token s2) = true ->
  exists a s1 b,
    returns simple_exp s a s1 /\ is_relop (token s1) = true /\
    returns simple_exp (getToken s1) b s2 /\
    t = Some (op_node (lineno s1) (token s1) a b).
Proof.
  intros [[|n] H] Hrel; [discriminate H|].
  rewrite exp_eq in H.
  apply bind_Some in H as (a & s1 & H1 & H).
  apply bind_Some in H as (tok & s0 & H0 & H). apply eval_Some in H0 as [-> ->].
  destruct (is_relop (token s1)) eqn:E1.
  - take_apart H.
    match goal with
    | R : simple_exp n (match_ (token s1) s1) = Some (?c, _) |- _ =>
        rewrite (match_hit _ _ eq_refl) in R;
        exists a, s1, c; repeat split;
          first [assumption | eexists; eassumption | reflexivity]
    end.
  - apply ret_Some in H as [-> ->]. congruence.
Qed.

Lemma statement_same n m s x y :
  statement n s = Some x -> statement m s = Some y -> x = y.
Proof. apply (er_statement _ same_result). Qed.

Ltac flag_is_up :=
  match goal with
  | |- Error ?s = true =>
      let Hc := fresh "Hc" in
      destruct (Error s) eqn:Hc; [reflexivity | exfalso]
  end.

Ltac same_exp E :=
  match goal with
  | H : exp _ ?s = Some _ |- _ =>
      let Eq := fresh "Eq" in
      pose proof (exp_same _ _ _ _ _ H E) as Eq; injection Eq as -> ->; clear H
  end.

Ltac same_sequence E :=
  match goal with
  | H : stmt_sequence _ ?s = Some _ |- _ =>
      let Eq := fresh "Eq" in
      pose proof (stmt_sequence_same _ _ _ _ _ H E) as Eq;
      injection Eq as -> ->; clear H
  end.

Ltac not_the_expected Hrel :=
  match goal with
  | Htok : token ?s = _, Hrel : is_relop (token ?s) = true |- _ =>
      rewrite Htok in Hrel; discriminate Hrel
  end.

(** The loop of [stmt_sequence], entered at a relational operator, misses
    its separator. *)
Lemma sequence_resumed_at_relop t s2 r s' :
  is_relop (token s2) = true ->
  returns (fun fuel => stmt_sequence_loop fuel t) s2 r s' ->
  Error s' = true.
Proof.
  intros Hrel [[|n] H]; [discriminate H|].
  rewrite stmt_sequence_loop_eq, bind_eval, (relop_not_end _ Hrel) in H.
  apply bind_Some in H as (u & s3 & H3 & H). apply exec_Some in H3 as ->.
  apply bind_Some in H as (q & s4 & H4 & H).
  flag_is_up.
  pose proof (er_stmt_sequence_loop _ (flag_was_down n) _ _ _ _ H Hc) as Hc4.
  pose proof (er_statement _ (flag_was_down n) _ _ _ H4 Hc4) as Hc3.
  clean_back. not_the_expected Hrel.
Qed.

(** What follows each call of [exp] when it returns at a relational
    operator: [factor], [if_stmt], [while_stmt] and [dowhile_stmt] go on
    with a [match] that raises the flag; [repeat_stmt], [assign_stmt] and
    [write_stmt] return at once. *)
Lemma exp_call_sites :
  (forall s t s2 r s', token s = LPAREN ->
     returns exp (getToken s) t s2 -> is_relop (token s2) = true ->
     returns factor s r s' -> Error s' = true) /\
  (forall s t s2 r s',
     returns exp (match_ LPAREN (match_ IF s)) t s2 ->
     is_relop (token s2) = true ->
     returns if_stmt s r s' -> Error s' = true) /\
  (forall s t s2 r s',
     returns exp (match_ WHILE s) t s2 -> is_relop (token s2) = true ->
     returns while_stmt s r s' -> Error s' = true) /\
  (forall s body s1 t s2 r s',
     returns stmt_sequence (match_ DO s) body s1 ->
     returns exp (match_ LPAREN (match_ WHILE s1)) t s2 ->
     is_relop (token s2) = true ->
     returns dowhile_stmt s r s' -> Error s' = true) /\
  (forall s body s1 t s2 r s',
     returns stmt_sequence (match_ REPEAT s) body s1 ->
     returns exp (match_ UNTIL s1) t s2 ->
     returns repeat_stmt s r s' -> s' = s2) /\
  (forall s t s2 r s',
     returns exp (match_ ASSIGN (match_ ID s)) t s2 ->
     returns assign_stmt s r s' -> s' = s2) /\
  (forall s t s2 r s',
     returns exp (match_ WRITE s) t s2 ->
     returns write_stmt s r s' -> s' = s2).
Proof.
  repeat match goal with |- _ /\ _ => split end.
  - (* factor *)
    intros s t s2 r s' Htok [m E] Hrel [[|n] H]; [discriminate H|].
    rewrite factor_eq, bind_eval, Htok in H. take_apart H.
    rewrite (match_hit _ _ Htok) in *. same_exp E.
    flag_is_up. clean_back. not_the_expected Hrel.
  - (* if_stmt *)
    intros s t s2 r s' [m E] Hrel [[|n] H]; [discriminate H|].
    rewrite if_stmt_eq in H.
    destruct (rules_clean n) as (Hseq & _).
    flag_is_up. take_apart H; same_exp E; clean_back; not_the_expected Hrel.
  - (* while_stmt *)
    intros s t s2 r s' [m E] Hrel [[|n] H]; [discriminate H|].
    rewrite while_stmt_eq in H.
    destruct (rules_clean n) as (Hseq & _).
    flag_is_up. take_apart H; same_exp E; clean_back; not_the_expected Hrel.
  - (* dowhile_stmt *)
    intros s body s1 t s2 r s' [k B] [m E] Hrel [[|n] H]; [discriminate H|].
    rewrite dowhile_stmt_eq in H.
    flag_is_up. take_apart H; same_sequence B; same_exp E; clean_back;
      not_the_expected Hrel.
  - (* repeat_stmt *)
    intros s body s1 t s2 r s' [k B] [m E] [[|n] H]; [discriminate H|].
    rewrite repeat_stmt_eq in H.
    take_apart H; same_sequence B; same_exp E; reflexivity.
  - (* assign_stmt *)
    intros s t s2 r s' [m E] [[|n] H]; [discriminate H|].
    rewrite assign_stmt_eq in H. take_apart H; same_exp E; reflexivity.
  - (* write_stmt *)
    intros s t s2 r s' [m E] [[|n] H]; [discriminate H|].
    rewrite write_stmt_eq in H. take_apart H; same_exp E; reflexivity.
Qed.

(** *** Following the calls of a run *)

(** What holds of every rule holds of the rule of every call. *)
Lemma rule_same c n m s x y :
  rule c n s = Some x -> rule c m s = Some y -> x = y.
Proof.
  destruct same_result. destruct c; simpl; eauto.
Qed.

Lemma simple_exp_same n m s x y :
  simple_exp n s = Some x -> simple_exp m s = Some y -> x = y.
Proof. apply (rule_same SimpleExp). Qed.

Lemma term_same n m s x y : term n s = Some x -> term m s = Some y -> x = y.
Proof. apply (rule_same Term). Qed.

Lemma factor_same n m s x y :
  factor n s = Some x -> factor m s = Some y -> x = y.
Proof. apply (rule_same Factor). Qed.

Lemma match_flag_down k s : Error (match_ k s) = false -> Error s = false.
Proof. intros H. apply match_clean in H. tauto. Qed.

Lemma rule_flag_was_down c n s r s' :
  rule c n s = Some (r, s') -> Error s' = false -> Error s = false.
Proof.
  destruct (flag_was_down n). destruct c; simpl; eauto.
Qed.

(** Two runs of one rule from one state are one run. *)
Ltac same_run :=
  match goal with
  | E : ?f ?m ?x = Some (_, _), H : ?f ?n ?x = Some (_, _) |- _ =>
      let Eq := fresh "Eq" in
      first [ pose proof (statement_same _ _ _ _ _ H E) as Eq
            | pose proof (stmt_sequence_same _ _ _ _ _ H E) as Eq
            | pose proof (exp_same _ _ _ _ _ H E) as Eq
            | pose proof (simple_exp_same _ _ _ _ _ H E) as Eq
            | pose proof (term_same _ _ _ _ _ H E) as Eq
            | pose proof (factor_same _ _ _ _ _ H E) as Eq ];
      injection Eq as ? ?; subst; clear H
  end.

(** Puts the known outcome of a test on the lookahead in its place. *)
Ltac use_test :=
  match goal with
  | Hb : tok_eqb ?a ?b = _, E : ?lhs = Some _ |- _ =>
      match lhs with context [tok_eqb a b] => rewrite Hb in E end
  | Hb : tok_eqb ?a ?b = _ |- context [tok_eqb ?a ?b] => rewrite Hb
  end.

(** From a state with the flag down back through the steps that led to
    it, until a state known to have the flag up is met. *)
Ltac flag_back :=
  repeat first
    [ congruence
    | match goal with
      | Hc : Error (match_ ?k ?x) = false |- _ => apply match_flag_down in Hc
      | Hc : Error ?x = false, H : stmt_sequence_loop ?n ?t ?y = Some (_, ?x) |- _ =>
          pose proof (rule_flag_was_down (StmtSequenceLoop t) _ _ _ _ H Hc); clear H
      | Hc : Error ?x = false, H : simple_exp_loop ?n ?t ?y = Some (_, ?x) |- _ =>
          pose proof (rule_flag_was_down (SimpleExpLoop t) _ _ _ _ H Hc); clear H
      | Hc : Error ?x = false, H : term_loop ?n ?t ?y = Some (_, ?x) |- _ =>
          pose proof (rule_flag_was_down (TermLoop t) _ _ _ _ H Hc); clear H
      | Hc : Error ?x = false, H : ?f ?n ?y = Some (_, ?x) |- _ =>
          first [ pose proof (rule_flag_was_down StmtSequence _ _ _ _ H Hc)
                | pose proof (rule_flag_was_down Statement _ _ _ _ H Hc)
                | pose proof (rule_flag_was_down Exp _ _ _ _ H Hc)
                | pose proof (rule_flag_was_down SimpleExp _ _ _ _ H Hc)
                | pose proof (rule_flag_was_down Term _ _ _ _ H Hc)
                | pose proof (rule_flag_was_down Factor _ _ _ _ H Hc) ];
          clear H
      end ].

(** One call site: the run of the callee is part of the run of the caller,
    and a flag that is up when the callee returns is up when the caller
    does. *)
Ltac callee_and_flag :=
  repeat first [ same_run | use_test ];
  first
    [ congruence
    | match goal with
      | Hif : tok_eqb ?a ?b = false, E : ?a = ?b |- _ =>
          apply tok_eqb_neq in Hif; contradiction
      end
    | eexists _, _; split;
      [ eexists; eassumption
      | let Hup := fresh "Hup" in intros Hup; flag_is_up; flag_back ] ].

Ltac call_site H :=
  rewrite ?stmt_sequence_eq, ?stmt_sequence_loop_eq, ?statement_eq, ?if_stmt_eq,
    ?repeat_stmt_eq, ?assign_stmt_eq, ?write_stmt_eq, ?while_stmt_eq,
    ?dowhile_stmt_eq, ?for_stmt_eq, ?exp_eq, ?simple_exp_eq,
    ?simple_exp_loop_eq, ?term_eq, ?term_loop_eq, ?factor_eq in H;
  rewrite ?bind_eval in H;
  repeat match goal with
         | E : token _ = _ |- _ => rewrite E in H
         | E : _ = true |- _ => rewrite E in H
         | E : _ = false |- _ => rewrite E in H
         end;
  repeat match goal with
         | R : returns _ _ _ _ |- _ => destruct R as [? R]
         end;
  unfold past_direction in *;
  take_apart H;
  callee_and_flag.

(** A call made in a run that returns, returns; and the flag, up at the
    return of the callee, is up at the return of the caller. *)
Lemma enters_sound c s c' s1 r s' :
  enters c s c' s1 -> returns (rule c) s r s' ->
  exists r' s1', returns (rule c') s1 r' s1' /\
                 (Error s1' = true -> Error s' = true).
Proof.
  intros Hen [fuel H].
  destruct Hen; simpl rule in *; (destruct fuel as [|n]; [discriminate H|]).
  all: call_site H.
Qed.

(** The same at any depth. *)
Lemma reaches_sound c s c' s1 r s' :
  reaches c s c' s1 -> returns (rule c) s r s' ->
  exists r' s1', returns (rule c') s1 r' s1' /\
                 (Error s1' = true -> Error s' = true).
Proof.
  induction 1 as [c s|c s c1 s1 c2 s2 Hreach IH Hen]; intros R.
  - exists r, s'. auto.
  - destruct (IH R) as (r1 & s1' & R1 & F1).
    destruct (enters_sound _ _ _ _ _ _ Hen R1) as (r2 & s2' & R2 & F2).
    exists r2, s2'. auto.
Qed.

Lemma rule_one_result c s r1 s1 r2 s2 :
  returns (rule c) s r1 s1 -> returns (rule c) s r2 s2 -> r1 = r2 /\ s1 = s2.
Proof.
  intros [n1 H1] [n2 H2]. pose proof (rule_same _ _ _ _ _ _ H1 H2) as Eq.
  injection Eq as -> ->. auto.
Qed.

(** [statement] returns what the rule it dispatches to returns. *)
Lemma statement_is_its_rule s c r s' :
  enters Statement s c s -> returns statement s r s' ->
  returns (rule c) s r s'.
Proof.
  intros Hen [[|n] H]; [discriminate H|].
  rewrite statement_eq, bind_eval in H.
  inversion Hen; subst; simpl;
    match goal with E : token _ = _ |- _ => rewrite E in H end;
    exists n; exact H.
Qed.

(** After a statement that returns at a relational operator, the loop of
    the statement sequence that called it misses its separator. *)
Lemma statement_at_relop c0 s0 s1 q s2 r s' :
  enters c0 s0 Statement s1 -> returns statement s1 q s2 ->
  is_relop (token s2) = true ->
  returns (rule c0) s0 r s' -> Error s' = true.
Proof.
  intros Hen [m E] Hrel [fuel H].
  inversion Hen; subst; simpl in H; (destruct fuel as [|n]; [discriminate H|]).
  - rewrite stmt_sequence_eq in H.
    apply bind_Some in H as (q' & s2' & Hq & Hloop).
    pose proof (statement_same _ _ _ _ _ Hq E) as Eq. injection Eq as -> ->.
    apply (sequence_resumed_at_relop q s2 r s' Hrel). exists n. exact Hloop.
  - rewrite stmt_sequence_loop_eq, bind_eval in H.
    match goal with E' : ends_sequence _ = false |- _ => rewrite E' in H end.
    apply bind_Some in H as (u & s3 & H3 & H). apply exec_Some in H3 as ->.
    apply bind_Some in H as (q' & s2' & Hq & Hloop).
    pose proof (statement_same _ _ _ _ _ Hq E) as Eq. injection Eq as -> ->.
    apply (sequence_resumed_at_relop (link t q) s2 r s' Hrel).
    exists n. exact Hloop.
Qed.



(** The rule that called [exp] ends with the flag up, or it is one of the
    three statement rules that end with [exp] and it returns where [exp]
    did. *)
Lemma exp_caller_at_relop c1 s1 s_e t s2 r s' :
  enters c1 s1 Exp s_e -> returns exp s_e t s2 ->
  is_relop (token s2) = true ->
  returns (rule c1) s1 r s' ->
  Error s' = true \/
  (s' = s2 /\ (c1 = RepeatStmt \/ c1 = AssignStmt \/ c1 = WriteStmt)).
Proof.
  destruct exp_call_sites
    as (Hfactor & Hif & Hwhile & Hdo & Hrepeat & Hassign & Hwrite).
  intros Hen E Hrel R. inversion Hen; subst; simpl in R.
  - left. eapply Hif; eassumption.
  - right. split; [eapply Hrepeat; eassumption | auto].
  - right. split; [eapply Hassign; eassumption | auto].
  - right. split; [eapply Hwrite; eassumption | auto].
  - left. eapply Hwhile; eassumption.
  - left. eapply Hdo; eassumption.
  - left. eapply Hfactor; try eassumption.
    match goal with Ht : token _ = LPAREN |- _ =>
      rewrite (match_hit _ _ Ht) in E end. exact E.
Qed.


(** A statement sequence in which some call of [exp], at any depth,
    returns at a relational operator ends with the flag up. *)
Lemma chain_flags_sequence s r s' s_e t s2 :
  reaches StmtSequence s Exp s_e -> returns exp s_e t s2 ->
  is_relop (token s2) = true ->
  returns stmt_sequence s r s' -> Error s' = true.
Proof.
  intros Hreach E Hrel R.
  inversion Hreach as [|? ? c1 s1 ? ? Hreach1 Hen1]; subst.
  destruct (reaches_sound _ _ _ _ _ _ Hreach1 R) as (r1 & s1' & R1 & F1).
  destruct (exp_caller_at_relop _ _ _ _ _ _ _ Hen1 E Hrel R1)
    as [Hup|[-> Hc1]]; [auto|].
  (* the caller of exp is a statement rule that returned at the operator *)
  inversion Hreach1 as [|? ? c0 s0 ? ? Hreach0 Hen0]; subst;
    [destruct Hc1 as [Hc1|[Hc1|Hc1]]; discriminate Hc1|].
  assert (c0 = Statement /\ s0 = s1) as [-> ->]
    by (destruct Hc1 as [->|[->| ->]]; inversion Hen0; auto).
  destruct (reaches_sound _ _ _ _ _ _ Hreach0 R) as (r0 & s0' & R0 & F0).
  pose proof (statement_is_its_rule _ _ _ _ Hen0 R0) as R0'.
  destruct (rule_one_result _ _ _ _ _ _ R0' R1) as [-> ->].
  (* and statement was called from a statement sequence or its loop *)
  inversion Hreach0 as [|? ? c00 s00 ? ? Hreach00 Hen00]; subst.
  destruct (reaches_sound _ _ _ _ _ _ Hreach00 R) as (r00 & s00' & R00 & F00).
  apply F00. eapply statement_at_relop; eassumption.
Qed.

Lemma parse_runs_one_sequence s r s' :
  returns parse s r s' ->
  exists s1, returns stmt_sequence (getToken s) r s1 /\
             (Error s1 = true -> Error s' = true).
Proof.
  intros [fuel H]. unfold parse in H. rewrite bind_exec in H.
  apply bind_Some in H as (t & s1 & H1 & H).
  exists s1. take_apart H.
  - split; [exists fuel; exact H1 | reflexivity].
  - split; [exists fuel; exact H1 | auto].
Qed.

(** C5: [exp] is one [simple_exp], or one [simple_exp], one relational
    operator and one more [simple_exp]; a relational operator that is the
    lookahead when [exp] returns is therefore a second one, left
    unconsumed.  And whenever, in the course of [parse], a call of [exp]
    at any depth returns at a relational operator, [parse] returns with
    the flag up, and with a diagnostic added to the listing if the flag
    was down at the start. *)
Theorem relational_operators_do_not_chain :
  (forall s a s1, returns simple_exp s a s1 -> is_relop (token s1) = false ->
     returns exp s a s1) /\
  (forall s a s1 b s2,
     returns simple_exp s a s1 -> is_relop (token s1) = true ->
     returns simple_exp (getToken s1) b s2 ->
     returns exp s (Some (op_node (lineno s1) (token s1) a b)) s2) /\
  (forall s t s2, returns exp s t s2 -> is_relop (token s2) = true ->
     exists a s1 b,
       returns simple_exp s a s1 /\ is_relop (token s1) = true /\
       returns simple_exp (getToken s1) b s2 /\
       t = Some (op_node (lineno s1) (token s1) a b)) /\
  (forall s s_exp t s2,
     reaches StmtSequence (getToken s) Exp s_exp ->
     returns exp s_exp t s2 -> is_relop (token s2) = true ->
     (exists r s', returns parse s r s') /\
     (forall r s', returns parse s r s' ->
        Error s' = true /\
        (Error s = false ->
         exists out, listing s' = listing s ++ out /\ has_diagnostic out))).
Proof.
  repeat match goal with |- _ /\ _ => split end.
  - apply exp_one.
  - apply exp_two.
  - apply exp_leaves_second_operator.
  - intros s s_exp t s2 Hreach Hexp Hrel. split.
    + destruct (parse_total s) as (r & s' & H).
      exists r, s', (5 * List.length (source s) + 4). apply H, Nat.le_refl.
    + intros r s' R.
      assert (Hup : Error s' = true).
      { destruct (parse_runs_one_sequence _ _ _ R) as (s1 & R1 & F).
        apply F. eapply chain_flags_sequence; eassumption. }
      split; [exact Hup|]. intros Hdown.
      destruct R as [fuel R].
      destruct (flagged_parse _ _ _ _ R) as (out & L & E).
      exists out. split; [exact L|].
      apply existsb_is_diagnostic.
      rewrite Hup, Hdown in E. symmetry. exact E.
Qed.

Lemma relational_operators_do_not_chain_witness :
  reaches StmtSequence (getToken (initial chained_comparison)) Exp
    (primed chained_comparison 2) /\
  returns exp (primed chained_comparison 2)
    (Some (op_node 1 LT (Some (const_node 1 1)) (Some (const_node 1 2))))
    (primed chained_comparison 5) /\
  is_relop (token (primed chained_comparison 5)) = true /\
  (forall r s', returns parse (initial chained_comparison) r s' ->
     Error s' = true /\
     (Error (initial chained_comparison) = false ->
      exists out, listing s' = listing (initial chained_comparison) ++ out /\
                  has_diagnostic out)).
Proof.
  destruct relational_operators_do_not_chain as (_ & Htwo & _ & Hparse).
  assert (P : reaches StmtSequence (getToken (initial chained_comparison)) Exp
                (primed chained_comparison 2)).
  { apply (reaches_deeper _ _ AssignStmt (primed chained_comparison 0));
      [|apply in_assign_value].
    apply (reaches_deeper _ _ Statement (primed chained_comparison 0));
      [|apply in_statement_assign; reflexivity].
    apply (reaches_deeper _ _ StmtSequence (primed chained_comparison 0));
      [apply reaches_here | apply in_sequence_first]. }
  assert (E : returns exp (primed chained_comparison 2)
                (Some (op_node 1 LT (Some (const_node 1 1)) (Some (const_node 1 2))))
                (primed chained_comparison 5)).
  { apply (Htwo (primed chained_comparison 2)
             (Some (const_node 1 1)) (primed chained_comparison 3)
             (Some (const_node 1 2)) (primed chained_comparison 5));
      first [reflexivity | exists 4; reflexivity]. }
  split; [exact P|]. split; [exact E|]. split; [reflexivity|].
  apply (Hparse (initial chained_comparison) _ _ _ P E eq_refl).
Defined.

(** ** A statement sequence that starts at a terminator *)

(** C10, as stated, fails at [while]: the keyword is in the terminator
    set, yet a statement sequence that starts at it is a while statement,
    parsed without any diagnostic. *)
Lemma sequence_at_while_is_not_reported :
  ends_sequence (token (primed while_program 0)) = true /\
  exists t s',
    stmt_sequence 20 (primed while_program 0) = Some (Some t, s') /\
    nodekind t = StmtK WhileK /\ Error s' = false /\ listing s' = [].
Proof.
  split; [reflexivity|]. eexists _, _. split; [reflexivity|].
  repeat split.
Qed.

Lemma end_not_while_is_no_start t :
  ends_sequence t = true -> t <> WHILE -> starts_statement t = false.
Proof. destruct t; simpl; congruence. Qed.

(** C10, amended: when a statement sequence starts at a terminator other
    than [while] (end of input, [end], [else], [until], [endwhile],
    [enddo]), [stmt_sequence] calls [statement] before it looks at the
    terminator set: the unexpected-token diagnostic is written, the flag
    raised and the terminator consumed by one [getToken], and no node is
    made; the loop of [stmt_sequence] then runs from there with an empty
    chain, and [stmt_sequence] returns what that loop returns, with the
    flag up. *)
Theorem sequence_at_terminator_is_reported :
  forall s,
    ends_sequence (token s) = true -> token s <> WHILE ->
    exists s1,
      returns statement s None s1 /\
      cursor s1 = cursor (getToken s) /\
      Error s1 = true /\
      listing s1 = listing s ++ unexpected_token_report s /\
      exists r s',
        returns stmt_sequence s r s' /\
        returns (fun fuel => stmt_sequence_loop fuel None) s1 r s' /\
        Error s' = true /\
        exists out, listing s' = listing s ++ unexpected_token_report s ++ out.
Proof.
  intros s Hend Hw.
  pose proof (end_not_while_is_no_start _ Hend Hw) as Hno.
  exists (getToken (printToken (syntaxError unexpected_token s))).
  split; [exists 1; apply statement_default, Hno|].
  split; [apply cursor_getToken_skip|].
  split; [apply skip_flagged|].
  split; [apply listing_skip|].
  destruct (stmt_sequence_total s) as (r & s' & H).
  exists r, s'. split; [eexists; exact H|].
  destruct (5 * remaining s + 4) as [|[|n]] eqn:Efuel; try discriminate H.
  rewrite stmt_sequence_eq in H.
  rewrite (bind_run _ _ _ _ _ (statement_default n s Hno)) in H.
  pose proof (er_stmt_sequence_loop _ (flagged_rules (S n)) _ _ _ _ H)
    as (out & L & E).
  split; [exists (S n); exact H|].
  split; [rewrite E, skip_flagged; reflexivity|].
  exists out. rewrite L, listing_skip, <- app_assoc. reflexivity.
Qed.

Lemma sequence_at_terminator_is_reported_witness :
  ends_sequence (token (primed if_with_empty_body 5)) = true /\
  token (primed if_with_empty_body 5) <> WHILE /\
  exists s1,
    returns statement (primed if_with_empty_body 5) None s1 /\
    cursor s1 = cursor (primed if_with_empty_body 6) /\
    Error s1 = true.
Proof.
  split; [reflexivity|]. split; [discriminate|].
  destruct (sequence_at_terminator_is_reported
              (primed if_with_empty_body 5) eq_refl ltac:(discriminate))
    as (s1 & Hrun & Hcur & Herr & _).
  exists s1. split; [exact Hrun|]. split; [exact Hcur | exact Herr].
Defined.

(** ** The for statement *)

(** C1: [for i:=1 to 10 do write i enddo] parses to a For node with name
    [i], child 0 the constant 1, child 1 the constant 10 and child 2 the
    one-statement body, without a diagnostic; but so do the loop that has
    no directional keyword between the two expressions and the loop that
    has [to] followed by [downto]: [for_stmt] consumes each keyword if it
    is there and reports nothing when it is not, or when both are. *)
Theorem for_direction_is_not_enforced :
  parse 20 (initial for_to) = Some (Some for_tree, clean_end) /\
  parse 20 (initial for_without_direction) = Some (Some for_tree, clean_end) /\
  parse 20 (initial for_to_downto) = Some (Some for_tree, clean_end).
Proof. repeat split. Qed.

(** ** Instances *)

Lemma sample_assignments_parse :
  parse 30 (initial sample_assignments) =
  Some (Some sample_assignments_tree, sample_assignments_end).
Proof. reflexivity. Qed.

(** [if (x<1) then write x end]: child 0 the comparison, child 1 the
    write statement, child 2 absent. *)
Lemma if_example_parse :
  parse 20 (initial if_example) =
  Some (Some (if_node 1
                (Some (op_node 1 LT (Some (id_node 1 "x")) (Some (const_node 1 1))))
                (Some (write_node 1 (Some (id_node 1 "x"))))
                None),
        clean_end).
Proof. reflexivity. Qed.

(** [if x then end]: a partial tree, with the flag up and a first
    diagnostic on line 1. *)
Lemma if_malformed_parse :
  exists t s',
    parse 20 (initial if_malformed) = Some (Some t, s') /\
    nodekind t = StmtK IfK /\ Error s' = true /\
    firstn 2 (listing s') =
      [Text (newline ++ ">>> ")%string; SyntaxErrorAt 1 unexpected_token].
Proof.
  eexists _, _. split; [vm_compute; reflexivity|].
  split; [reflexivity|]. split; reflexivity.
Qed.

Lemma flag_follows_diagnostics_and_clean_tree_is_complete_witness :
  parse 30 (initial sample_assignments) =
    Some (Some sample_assignments_tree, sample_assignments_end) /\
  (exists out, listing sample_assignments_end = [] ++ out /\
               (Error sample_assignments_end = true <->
                false = true \/ has_diagnostic out)) /\
  (Error sample_assignments_end = false ->
   exists t, Some sample_assignments_tree = Some t /\ complete t = true /\
             token sample_assignments_end = ENDFILE /\
             count_statements t + statement_slots [] =
               S (statement_slots sample_assignments) /\
             (proper_source sample_assignments ->
              source sample_assignments_end = [])).
Proof.
  split; [reflexivity|].
  exact (flag_follows_diagnostics_and_clean_tree_is_complete
           30 (initial sample_assignments) _ _ sample_assignments_parse).
Defined.

Lemma cursor_movement_by_error_class_witness :
  (token (primed if_with_empty_body 5) <> SEMI /\
   cursor (match_ SEMI (primed if_with_empty_body 5)) =
     cursor (primed if_with_empty_body 5)) /\
  (token (primed if_with_empty_body 5) = END /\
   match_ END (primed if_with_empty_body 5) = primed if_with_empty_body 6) /\
  (starts_statement (token (primed if_with_empty_body 5)) = false /\
   exists s',
     statement 1 (primed if_with_empty_body 5) = Some (None, s') /\
     cursor s' = cursor (primed if_with_empty_body 6)).
Proof.
  destruct cursor_movement_by_error_class as (_ & Hhit & Hmiss & Hstmt & _).
  split; [|split].
  - split; [discriminate|].
    apply (Hmiss SEMI (primed if_with_empty_body 5)). discriminate.
  - split; [reflexivity|].
    apply (Hhit END (primed if_with_empty_body 5) eq_refl).
  - split; [reflexivity|].
    destruct (Hstmt (primed if_with_empty_body 5) eq_refl)
      as (s' & Hrun & Hc & _).
    exists s'. split; [apply Hrun | exact Hc].
Defined.

Lemma parse_terminates_witness :
  (exists t s', parse 39 (initial sample_assignments) = Some (t, s')) /\
  remaining (getToken (printToken (syntaxError unexpected_token
                          (match_ SEMI (primed chained_comparison 5)))))
  < remaining (primed chained_comparison 5).
Proof.
  destruct parse_terminates as (Hparse & _ & _ & Hiteration & _).
  split.
  - destruct (Hparse (initial sample_assignments)) as (t & s' & H).
    exists t, s'. apply H. simpl. lia.
  - apply (Hiteration 2 (primed chained_comparison 5) None); reflexivity.
Defined.

(** ** Grammatical phrases are parsed to their trees *)

Lemma settles_returns {A} (f : nat -> Parser A) s a s' :
  settles f s a s' -> returns f s a s'.
Proof. intros [n H]. exists n. apply H. apply Nat.le_refl. Qed.

Lemma consumes_app l l' s s' :
  consumes (l ++ l') s s' <-> exists s1, consumes l s s1 /\ consumes l' s1 s'.
Proof.
  revert s. induction l as [|tk l IH]; intros s; simpl.
  - split.
    + intros H. exists s. auto.
    + intros (s1 & -> & H). exact H.
  - rewrite IH. split.
    + intros (E & s1 & H1 & H2). exists s1. auto.
    + intros (s1 & (E & H1) & H2). split; [exact E|]. exists s1. auto.
Qed.

(** Splits what is known of a run of tokens into what is known of each
    token and of each phrase in it. *)
Ltac split_consumes :=
  repeat match goal with
  | H : consumes (_ ++ _) _ _ |- _ =>
      apply consumes_app in H; destruct H as (? & ? & ?)
  | H : consumes (?tk :: ?l) ?s ?s' |- _ =>
      change (lookahead s = tk /\ consumes l (getToken s) s') in H;
      destruct H as [<- ?]
  | H : consumes [] ?s ?s' |- _ => change (s' = s) in H; subst s'
  end;
  subst; cbn [tk_kind tk_string tk_line lookahead] in *.

Lemma assign_child_run i n (p : Parser (option TreeNode)) s c s1 :
  p s = Some (c, s1) ->
  assign_child i (Some n) p s = Some (Some (set_child i n c), s1).
Proof. intros H. unfold assign_child, bind. rewrite H. reflexivity. Qed.

Lemma bind_assign_child {B} i n (p : Parser (option TreeNode))
    (k : option TreeNode -> Parser B) s c s1 :
  p s = Some (c, s1) ->
  bind (assign_child i (Some n) p) k s = k (Some (set_child i n c)) s1.
Proof. intros H. unfold bind at 1. rewrite (assign_child_run _ _ _ _ _ _ H). reflexivity. Qed.

Lemma bind_ret {A B} (a : A) (k : A -> Parser B) s : bind (ret a) k s = k a s.
Proof. reflexivity. Qed.

Lemma bind_assoc {A B C} (p : Parser A) (k : A -> Parser B)
    (k' : B -> Parser C) s :
  bind (bind p k) k' s = bind p (fun a => bind (k a) k') s.
Proof. unfold bind. destruct (p s) as [[a s1]|]; reflexivity. Qed.

(** Evaluates the tests on token kinds that are known. *)
Ltac decide_tests :=
  repeat match goal with
  | |- context [tok_eqb ?a ?b] =>
      let v := eval vm_compute in (tok_eqb a b) in
      match v with
      | true => change (tok_eqb a b) with true
      | false => change (tok_eqb a b) with false
      end
  end.

(** One step forward through the body of a rule, in a state whose
    lookahead is known and with the results of the rules it calls at
    hand. *)
Ltac run_step :=
  first
    [ rewrite bind_assoc
    | rewrite bind_eval
    | rewrite bind_ret
    | rewrite bind_exec
    | rewrite bind_assign_name
    | match goal with
      | |- context [match_ ?k ?s] =>
          rewrite (match_hit k s) by (assumption || reflexivity)
      end
    | erewrite bind_assign_child by
        (match goal with H : forall m, _ <= m -> _ = Some _ |- _ =>
           apply H; lia end)
    | erewrite assign_child_run by
        (match goal with H : forall m, _ <= m -> _ = Some _ |- _ =>
           apply H; lia end)
    | erewrite bind_run by
        (match goal with H : forall m, _ <= m -> _ = Some _ |- _ =>
           apply H; lia end)
    | match goal with
      | H : forall m, _ <= m -> _ = Some _ |- _ => rewrite H by lia
      end
    | match goal with
      | H : token ?s = _ |- context [token ?s] => rewrite H
      end
    | progress cbv beta iota zeta delta
        [newStmtNode newExpNode when named]
    | progress decide_tests
    | progress cbn [is_relop is_addop is_mulop ends_sequence] ].

(** Settles a test on the kind of a lookahead that is known. *)
Ltac by_kind :=
  match goal with
  | H : token ?s = _ |- _ (token ?s) = _ => rewrite H; reflexivity
  | H : _ (token ?s) = true |- _ (token ?s) = false =>
      destruct (token s); try discriminate; reflexivity
  end.

Ltac run_rule := repeat run_step; try reflexivity.

(** Chooses a fuel that is enough for every run at hand and for one
    more call. *)
Ltac settle_after acc :=
  lazymatch goal with
  | H : settles _ _ _ _ |- _ =>
      let n := fresh "n" in destruct H as [n H]; settle_after (acc + n)
  | _ => exists (S acc)
  end.

Ltac settle :=
  settle_after 0;
  let m := fresh "m" in
  intros m ?; destruct m as [|m]; [lia|].

Lemma bind_assign_val {B} kind n (k : option TreeNode -> Parser B) s :
  token s = kind ->
  bind (assign_val kind (Some n)) k s =
  k (Some (set_attr n (AttrVal (atoi (tokenString s))))) s.
Proof.
  intros H. apply tok_eqb_eq in H. unfold bind, assign_val. rewrite H.
  reflexivity.
Qed.

Lemma grammar_first :
  (forall l t, g_factor l t ->
     exists tk l', l = tk :: l' /\ starts_factor (tk_kind tk) = true) /\
  (forall l t, g_term l t ->
     exists tk l', l = tk :: l' /\ starts_factor (tk_kind tk) = true) /\
  (forall l t, g_simple_exp l t ->
     exists tk l', l = tk :: l' /\ starts_factor (tk_kind tk) = true) /\
  (forall l t, g_exp l t ->
     exists tk l', l = tk :: l' /\ starts_factor (tk_kind tk) = true).
Proof.
  apply g_expression_ind; intros;
    repeat match goal with
    | H : exists tk l', _ |- _ => destruct H as (? & ? & -> & ?)
    end;
    try (eexists _, _; split; [reflexivity|]; solve [assumption | congruence]).
  - exists tk, []. rewrite H. auto.
  - exists tk, []. rewrite H. auto.
  - eexists lp, _. rewrite H. auto.
Qed.

Lemma simple_exp_operand l t :
  (forall s s', consumes l s s' -> is_mulop (token s') = false ->
     forall x s'', settles (fun n => simple_exp_loop n (Some t)) s' x s'' ->
     settles simple_exp s x s'') ->
  forall s s', consumes l s s' ->
  is_addop (token s') = false -> is_mulop (token s') = false ->
  settles simple_exp s (Some t) s'.
Proof.
  intros IH s s' Hc Hadd Hmul. apply (IH _ _ Hc Hmul).
  exists 1. intros m Hm. destruct m as [|m]; [lia|].
  apply simple_exp_loop_stop. exact Hadd.
Qed.

Lemma expressions_settle :
  (forall l t, g_factor l t -> forall s s', consumes l s s' ->
     settles factor s (Some t) s') /\
  (forall l t, g_term l t -> forall s s', consumes l s s' ->
     forall x s'', settles (fun n => term_loop n (Some t)) s' x s'' ->
     settles term s x s'') /\
  (forall l t, g_simple_exp l t -> forall s s', consumes l s s' ->
     is_mulop (token s') = false ->
     forall x s'', settles (fun n => simple_exp_loop n (Some t)) s' x s'' ->
     settles simple_exp s x s'') /\
  (forall l t, g_exp l t -> forall s s', consumes l s s' ->
     is_operator (token s') = false -> settles exp s (Some t) s').
Proof.
  apply g_expression_ind.
  - (* a number *)
    intros tk Hk s s' Hc. split_consumes. settle.
    rewrite factor_eq, bind_eval, Hk, bind_eval.
    unfold newExpNode. rewrite bind_assign_val by assumption.
    run_rule.
  - (* an identifier *)
    intros tk Hk s s' Hc. split_consumes. settle.
    rewrite factor_eq, bind_eval, Hk.
    run_rule.
  - (* a parenthesised expression *)
    intros lp l e rp Hlp _ IH Hrp s s' Hc. split_consumes.
    match goal with H : consumes l _ _ |- _ => apply IH in H end.
    2: { unfold is_operator. rewrite Hrp. reflexivity. }
    settle.
    rewrite factor_eq, bind_eval, Hlp.
    run_rule.
  - (* a factor as a term *)
    intros l f _ IH s s' Hc x s'' Hloop.
    apply IH in Hc. settle.
    rewrite term_eq. run_rule.
  - (* a term, an operator, a factor *)
    intros l a op r b _ IHa Hop _ IHb s s' Hc x s'' Hloop.
    split_consumes.
    match goal with H : consumes l _ _ |- _ => apply (IHa _ _ H) end.
    match goal with H : consumes r _ _ |- _ => apply IHb in H end.
    settle.
    rewrite term_loop_eq, bind_eval, Hop.
    run_rule.
  - (* a term as a simple expression *)
    intros l t _ IH s s' Hc Hmul x s'' Hloop.
    assert (Hstop : settles (fun n => term_loop n (Some t)) s' (Some t) s').
    { exists 1. intros m Hm. destruct m as [|m]; [lia|].
      apply term_loop_stop. exact Hmul. }
    apply (IH _ _ Hc) in Hstop. settle.
    rewrite simple_exp_eq. run_rule.
  - (* a simple expression, an operator, a term *)
    intros l a op r b _ IHa Hop _ IHb s s' Hc Hmul x s'' Hloop.
    split_consumes.
    match goal with H : consumes l _ _ |- _ => apply (IHa _ _ H) end.
    { by_kind. }
    assert (Hstop : settles (fun n => term_loop n (Some b)) s' (Some b) s').
    { exists 1. intros m Hm. destruct m as [|m]; [lia|].
      apply term_loop_stop. exact Hmul. }
    match goal with H : consumes r _ _ |- _ => apply (IHb _ _ H) in Hstop end.
    settle.
    rewrite simple_exp_loop_eq, bind_eval, Hop.
    run_rule.
  - (* a simple expression as an expression *)
    intros l e _ IH s s' Hc Hop.
    unfold is_operator in Hop. apply orb_false_elim in Hop as [Hop Hmul].
    apply orb_false_elim in Hop as [Hrel Hadd].
    assert (Hstop : settles (fun n => simple_exp_loop n (Some e)) s' (Some e) s').
    { exists 1. intros m Hm. destruct m as [|m]; [lia|].
      apply simple_exp_loop_stop. exact Hadd. }
    apply (IH _ _ Hc Hmul) in Hstop. settle.
    rewrite exp_eq. run_rule. rewrite Hrel. reflexivity.
  - (* a comparison *)
    intros l a op r b _ IHa Hop _ IHb s s' Hc Hfollow.
    unfold is_operator in Hfollow. apply orb_false_elim in Hfollow as [H1 Hmul].
    apply orb_false_elim in H1 as [Hrel Hadd].
    split_consumes.
    match goal with H : consumes l _ _ |- _ =>
      apply (simple_exp_operand _ _ IHa) in H; [|by_kind ..] end.
    match goal with H : consumes r _ _ |- _ =>
      apply (simple_exp_operand _ _ IHb) in H; [|assumption ..] end.
    settle.
    rewrite exp_eq. run_rule. rewrite Hop. run_rule.
Qed.

Lemma exp_settles l t s s' :
  g_exp l t -> consumes l s s' -> is_operator (token s') = false ->
  settles exp s (Some t) s'.
Proof. intros H. revert s s'. apply expressions_settle. exact H. Qed.

Lemma simple_exp_settles l t s s' :
  g_simple_exp l t -> consumes l s s' ->
  is_addop (token s') = false -> is_mulop (token s') = false ->
  settles simple_exp s (Some t) s'.
Proof.
  intros H Hc Hadd Hmul.
  destruct expressions_settle as (_ & _ & K & _).
  apply (K _ _ H _ _ Hc Hmul).
  exists 1. intros m Hm. destruct m as [|m]; [lia|].
  apply simple_exp_loop_stop. exact Hadd.
Qed.

Lemma stmt_sequence_loop_stop n t s :
  ends_sequence (token s) = true -> stmt_sequence_loop (S n) t s = Some (t, s).
Proof. intros H. rewrite stmt_sequence_loop_eq, bind_eval, H. reflexivity. Qed.

Lemma sequence_settles_at_end t s :
  ends_sequence (token s) = true ->
  settles (fun n => stmt_sequence_loop n (Some t)) s (Some t) s.
Proof.
  intros H. exists 1. intros m Hm. destruct m as [|m]; [lia|].
  apply stmt_sequence_loop_stop. exact H.
Qed.

Lemma simple_exp_first l t s s' :
  g_simple_exp l t -> consumes l s s' -> starts_factor (token s) = true.
Proof.
  intros H Hc. destruct grammar_first as (_ & _ & K & _).
  destruct (K _ _ H) as (tk & l' & -> & Hk).
  destruct Hc as [<- _]. exact Hk.
Qed.

(** The two tests of [for_stmt] on a direction that the grammar has. *)
Lemma direction_run {B} dir s s' (k : Parser B) :
  lenient_direction dir -> consumes dir s s' -> starts_factor (token s') = true ->
  (tok <- eval token ;;
   when (tok_eqb tok TO) (exec (match_ TO)) ;;
   tok <- eval token ;;
   when (tok_eqb tok DOWNTO) (exec (match_ DOWNTO)) ;;
   k) s = k s'.
Proof.
  intros Hd Hc Hf. destruct Hd; cbn [consumes] in Hc.
  - subst s'. rewrite bind_eval.
    destruct (token s) eqn:E; try discriminate;
      unfold bind, eval, when, ret; decide_tests; cbv beta iota;
      rewrite E; reflexivity.
  - destruct Hc as [<- ->]. cbn [tk_kind lookahead] in *.
    repeat run_step.
    destruct (token (getToken s)) eqn:E; try discriminate; reflexivity.
  - destruct Hc as [<- ->]. cbn [tk_kind lookahead] in *.
    repeat run_step. reflexivity.
  - destruct Hc as (<- & <- & ->). cbn [tk_kind lookahead] in *.
    repeat run_step. reflexivity.
Qed.

Ltac settle_twice :=
  settle_after 1;
  let m := fresh "m" in
  intros m ?; destruct m as [|[|m]]; [lia|lia|].

Lemma programs_settle :
  (forall l t, lenient_statement l t -> forall s s', consumes l s s' ->
     is_operator (token s') = false -> settles statement s (Some t) s') /\
  (forall l t, lenient_sequence l t -> forall s s', consumes l s s' ->
     is_operator (token s') = false ->
     forall x s'', settles (fun n => stmt_sequence_loop n (Some t)) s' x s'' ->
     settles stmt_sequence s x s'').
Proof.
  apply g_program_ind.
  - (* if without else *)
    intros kw lp c test rp th b body en Hkw Hlp Hc Hrp Hth _ IH Hen s s' H Hf.
    split_consumes.
    match goal with H : consumes c _ _ |- _ =>
      apply (exp_settles _ _ _ _ Hc) in H; [|by_kind] end.
    match goal with H : consumes b _ ?s1 |- _ =>
      apply IH with (x := Some body) (s'' := s1) in H;
        [|by_kind|apply sequence_settles_at_end; by_kind] end.
    settle_twice.
    rewrite statement_eq, bind_eval, Hkw, if_stmt_eq. run_rule.
  - (* if with else *)
    intros kw lp c test rp th b body el b' body' en
      Hkw Hlp Hc Hrp Hth _ IH Hel _ IH' Hen s s' H Hf.
    split_consumes.
    match goal with H : consumes c _ _ |- _ =>
      apply (exp_settles _ _ _ _ Hc) in H; [|by_kind] end.
    match goal with H : consumes b _ ?s1 |- _ =>
      apply IH with (x := Some body) (s'' := s1) in H;
        [|by_kind|apply sequence_settles_at_end; by_kind] end.
    match goal with H : consumes b' _ ?s1 |- _ =>
      apply IH' with (x := Some body') (s'' := s1) in H;
        [|by_kind|apply sequence_settles_at_end; by_kind] end.
    settle_twice.
    rewrite statement_eq, bind_eval, Hkw, if_stmt_eq. run_rule.
  - (* repeat *)
    intros kw b body un c test Hkw _ IH Hun Hc s s' H Hf.
    split_consumes.
    match goal with H : consumes b _ ?s1 |- _ =>
      apply IH with (x := Some body) (s'' := s1) in H;
        [|by_kind|apply sequence_settles_at_end; by_kind] end.
    match goal with H : consumes c _ _ |- _ =>
      apply (exp_settles _ _ _ _ Hc) in H; [|exact Hf] end.
    settle_twice.
    rewrite statement_eq, bind_eval, Hkw, repeat_stmt_eq. run_rule.
  - (* assignment *)
    intros id op c value Hid Hop Hc s s' H Hf.
    split_consumes.
    match goal with H : consumes c _ _ |- _ =>
      apply (exp_settles _ _ _ _ Hc) in H; [|exact Hf] end.
    settle_twice.
    rewrite statement_eq, bind_eval, Hid, assign_stmt_eq. run_rule.
  - (* read *)
    intros kw id Hkw Hid s s' H Hf.
    split_consumes.
    settle_twice.
    rewrite statement_eq, bind_eval, Hkw. unfold read_stmt. run_rule.
  - (* write *)
    intros kw c value Hkw Hc s s' H Hf.
    split_consumes.
    match goal with H : consumes c _ _ |- _ =>
      apply (exp_settles _ _ _ _ Hc) in H; [|exact Hf] end.
    settle_twice.
    rewrite statement_eq, bind_eval, Hkw, write_stmt_eq. run_rule.
  - (* while *)
    intros kw c test d b body en Hkw Hc Hd _ IH Hen s s' H Hf.
    split_consumes.
    match goal with H : consumes c _ _ |- _ =>
      apply (exp_settles _ _ _ _ Hc) in H; [|by_kind] end.
    match goal with H : consumes b _ ?s1 |- _ =>
      apply IH with (x := Some body) (s'' := s1) in H;
        [|by_kind|apply sequence_settles_at_end; by_kind] end.
    settle_twice.
    rewrite statement_eq, bind_eval, Hkw, while_stmt_eq. run_rule.
  - (* do while *)
    intros kw b body wh lp c test rp Hkw _ IH Hwh Hlp Hc Hrp s s' H Hf.
    split_consumes.
    match goal with H : consumes b _ ?s1 |- _ =>
      apply IH with (x := Some body) (s'' := s1) in H;
        [|by_kind|apply sequence_settles_at_end; by_kind] end.
    match goal with H : consumes c _ _ |- _ =>
      apply (exp_settles _ _ _ _ Hc) in H; [|by_kind] end.
    settle_twice.
    rewrite statement_eq, bind_eval, Hkw, dowhile_stmt_eq. run_rule.
  - (* for *)
    intros kw id op c start dir c' bound d b body en
      Hkw Hid Hop Hc Hdir Hc' Hd _ IH Hen s s' H Hf.
    split_consumes.
    match goal with H : consumes c' ?s1 _ |- _ =>
      pose proof (simple_exp_first _ _ _ _ Hc' H) as Hfirst end.
    match goal with H : consumes dir ?s1 _ |- _ =>
      assert (Hstart : is_operator (token s1) = false)
    end.
    { inversion Hdir; subst; split_consumes;
        match goal with
        | H : token ?s1 = _ |- _ (token ?s1) = _ => rewrite H; reflexivity
        | H : starts_factor (token ?s1) = true |- _ (token ?s1) = _ =>
            destruct (token s1); try discriminate; reflexivity
        end. }
    unfold is_operator in Hstart.
    apply orb_false_elim in Hstart as [Hstart Hmul].
    apply orb_false_elim in Hstart as [_ Hadd].
    match goal with H : consumes c _ _ |- _ =>
      apply (simple_exp_settles _ _ _ _ Hc) in H; [|assumption ..] end.
    match goal with H : consumes c' _ _ |- _ =>
      apply (simple_exp_settles _ _ _ _ Hc') in H; [|by_kind ..] end.
    match goal with H : consumes b _ ?s1 |- _ =>
      apply IH with (x := Some body) (s'' := s1) in H;
        [|by_kind|apply sequence_settles_at_end; by_kind] end.
    match goal with H : consumes dir _ _ |- _ =>
      pose proof (fun B k => @direction_run B _ _ _ k Hdir H Hfirst) as Hrun end.
    settle_twice.
    rewrite statement_eq, bind_eval, Hkw, for_stmt_eq.
    repeat first [rewrite Hrun | run_step]. reflexivity.
  - (* one statement *)
    intros l t _ IH s s' H Hf x s'' Hloop.
    apply IH in H; [|exact Hf].
    settle. rewrite stmt_sequence_eq. run_rule.
  - (* a sequence, a semicolon, a statement *)
    intros l t semi l' t' _ IH Hsemi _ IH' s s' H Hf x s'' Hloop.
    split_consumes.
    match goal with H : consumes l _ _ |- _ => apply (IH _ _ H) end.
    { by_kind. }
    match goal with H : consumes l' _ _ |- _ => apply IH' in H; [|exact Hf] end.
    settle.
    rewrite stmt_sequence_loop_eq. run_rule.
Qed.

(** ** A parse without diagnostics follows the grammar *)

Lemma consumes_one s : consumes [lookahead s] s (getToken s).
Proof. split; reflexivity. Qed.

Lemma consumes_cons l s s' :
  consumes l (getToken s) s' -> consumes (lookahead s :: l) s s'.
Proof. intros H. split; [reflexivity|exact H]. Qed.

Lemma consumes_join l l' s s1 s' :
  consumes l s s1 -> consumes l' s1 s' -> consumes (l ++ l') s s'.
Proof. intros H1 H2. apply consumes_app. exists s1. auto. Qed.

Ltac spell :=
  repeat first
    [ eassumption
    | simple apply consumes_one
    | simple apply consumes_cons
    | eapply consumes_join; [eassumption|] ].

Section Phrases.

Variable s : State.

Lemma if_phrase c test s1 b body s2 :
  token s = IF -> token (getToken s) = LPAREN ->
  consumes c (getToken (getToken s)) s1 -> g_exp c test ->
  token s1 = RPAREN -> token (getToken s1) = THEN ->
  consumes b (getToken (getToken s1)) s2 -> lenient_sequence b body ->
  token s2 = END ->
  exists l, lenient_statement l (if_node (lineno s) (Some test) (Some body) None) /\
            consumes l s (getToken s2).
Proof.
  intros. eexists. split.
  - apply (g_if (lookahead s) (lookahead (getToken s)) c test (lookahead s1)
             (lookahead (getToken s1)) b body (lookahead s2)); assumption.
  - spell.
Qed.

Lemma if_else_phrase c test s1 b body s2 b' body' s3 :
  token s = IF -> token (getToken s) = LPAREN ->
  consumes c (getToken (getToken s)) s1 -> g_exp c test ->
  token s1 = RPAREN -> token (getToken s1) = THEN ->
  consumes b (getToken (getToken s1)) s2 -> lenient_sequence b body ->
  token s2 = ELSE ->
  consumes b' (getToken s2) s3 -> lenient_sequence b' body' ->
  token s3 = END ->
  exists l,
    lenient_statement l (if_node (lineno s) (Some test) (Some body) (Some body')) /\
    consumes l s (getToken s3).
Proof.
  intros. eexists. split.
  - apply (g_if_else (lookahead s) (lookahead (getToken s)) c test
             (lookahead s1) (lookahead (getToken s1)) b body (lookahead s2)
             b' body' (lookahead s3)); assumption.
  - spell.
Qed.

Lemma repeat_phrase b body s1 c test s' :
  token s = REPEAT ->
  consumes b (getToken s) s1 -> lenient_sequence b body ->
  token s1 = UNTIL ->
  consumes c (getToken s1) s' -> g_exp c test ->
  exists l, lenient_statement l (repeat_node (lineno s) (Some body) (Some test)) /\
            consumes l s s'.
Proof.
  intros. eexists. split.
  - apply (g_repeat (lookahead s) b body (lookahead s1) c test); assumption.
  - spell.
Qed.

Lemma assign_phrase c value s' :
  token s = ID -> token (getToken s) = ASSIGN ->
  consumes c (getToken (getToken s)) s' -> g_exp c value ->
  exists l,
    lenient_statement l
      (assign_node (lineno s) (copyString (tokenString s)) (Some value) None) /\
    consumes l s s'.
Proof.
  intros. eexists. split.
  - apply (g_assign (lookahead s) (lookahead (getToken s)) c value); assumption.
  - spell.
Qed.

Lemma read_phrase :
  token s = READ -> token (getToken s) = ID ->
  exists l,
    lenient_statement l
      (read_node (lineno s) (copyString (tokenString (getToken s)))) /\
    consumes l s (getToken (getToken s)).
Proof.
  intros. eexists. split.
  - apply (g_read (lookahead s) (lookahead (getToken s))); assumption.
  - spell.
Qed.

Lemma write_phrase c value s' :
  token s = WRITE ->
  consumes c (getToken s) s' -> g_exp c value ->
  exists l, lenient_statement l (write_node (lineno s) (Some value)) /\
            consumes l s s'.
Proof.
  intros. eexists. split.
  - apply (g_write (lookahead s) c value); assumption.
  - spell.
Qed.

Lemma while_phrase c test s1 b body s2 :
  token s = WHILE ->
  consumes c (getToken s) s1 -> g_exp c test ->
  token s1 = DO ->
  consumes b (getToken s1) s2 -> lenient_sequence b body ->
  token s2 = ENDWHILE ->
  exists l, lenient_statement l (while_node (lineno s) (Some test) (Some body)) /\
            consumes l s (getToken s2).
Proof.
  intros. eexists. split.
  - apply (g_while (lookahead s) c test (lookahead s1) b body (lookahead s2));
      assumption.
  - spell.
Qed.

Lemma dowhile_phrase b body s1 c test s2 :
  token s = DO ->
  consumes b (getToken s) s1 -> lenient_sequence b body ->
  token s1 = WHILE -> token (getToken s1) = LPAREN ->
  consumes c (getToken (getToken s1)) s2 -> g_exp c test ->
  token s2 = RPAREN ->
  exists l, lenient_statement l (dowhile_node (lineno s) (Some body) (Some test)) /\
            consumes l s (getToken s2).
Proof.
  intros. eexists. split.
  - apply (g_dowhile (lookahead s) b body (lookahead s1)
             (lookahead (getToken s1)) c test (lookahead s2)); assumption.
  - spell.
Qed.

Lemma for_phrase c start s1 dir s2 c' bound s3 b body s4 :
  token s = FOR -> token (getToken s) = ID ->
  token (getToken (getToken s)) = ASSIGN ->
  consumes c (getToken (getToken (getToken s))) s1 -> g_simple_exp c start ->
  consumes dir s1 s2 -> lenient_direction dir ->
  consumes c' s2 s3 -> g_simple_exp c' bound ->
  token s3 = DO ->
  consumes b (getToken s3) s4 -> lenient_sequence b body ->
  token s4 = ENDDO ->
  exists l,
    lenient_statement l
      (for_node (lineno s) (copyString (tokenString (getToken s)))
         (Some start) (Some bound) (Some body)) /\
    consumes l s (getToken s4).
Proof.
  intros. eexists. split.
  - apply (g_for (lookahead s) (lookahead (getToken s))
             (lookahead (getToken (getToken s))) c start dir c' bound
             (lookahead s3) b body (lookahead s4)); assumption.
  - spell.
Qed.

Lemma for_to_downto_phrase c start s1 c' bound s3 b body s4 :
  token s = FOR -> token (getToken s) = ID ->
  token (getToken (getToken s)) = ASSIGN ->
  consumes c (getToken (getToken (getToken s))) s1 -> g_simple_exp c start ->
  token s1 = TO -> token (getToken s1) = DOWNTO ->
  consumes c' (getToken (getToken s1)) s3 -> g_simple_exp c' bound ->
  token s3 = DO ->
  consumes b (getToken s3) s4 -> lenient_sequence b body ->
  token s4 = ENDDO ->
  exists l,
    lenient_statement l
      (for_node (lineno s) (copyString (tokenString (getToken s)))
         (Some start) (Some bound) (Some body)) /\
    consumes l s (getToken s4).
Proof.
  intros.
  apply (for_phrase c start s1 [lookahead s1; lookahead (getToken s1)]
           (getToken (getToken s1)) c' bound s3 b body s4);
    try assumption.
  - spell.
  - apply lenient_both; assumption.
Qed.

Lemma for_to_phrase c start s1 c' bound s3 b body s4 :
  token s = FOR -> token (getToken s) = ID ->
  token (getToken (getToken s)) = ASSIGN ->
  consumes c (getToken (getToken (getToken s))) s1 -> g_simple_exp c start ->
  token s1 = TO ->
  consumes c' (getToken s1) s3 -> g_simple_exp c' bound ->
  token s3 = DO ->
  consumes b (getToken s3) s4 -> lenient_sequence b body ->
  token s4 = ENDDO ->
  exists l,
    lenient_statement l
      (for_node (lineno s) (copyString (tokenString (getToken s)))
         (Some start) (Some bound) (Some body)) /\
    consumes l s (getToken s4).
Proof.
  intros.
  apply (for_phrase c start s1 [lookahead s1] (getToken s1) c' bound s3
           b body s4);
    try assumption.
  - spell.
  - apply lenient_to; assumption.
Qed.

Lemma for_downto_phrase c start s1 c' bound s3 b body s4 :
  token s = FOR -> token (getToken s) = ID ->
  token (getToken (getToken s)) = ASSIGN ->
  consumes c (getToken (getToken (getToken s))) s1 -> g_simple_exp c start ->
  token s1 = DOWNTO ->
  consumes c' (getToken s1) s3 -> g_simple_exp c' bound ->
  token s3 = DO ->
  consumes b (getToken s3) s4 -> lenient_sequence b body ->
  token s4 = ENDDO ->
  exists l,
    lenient_statement l
      (for_node (lineno s) (copyString (tokenString (getToken s)))
         (Some start) (Some bound) (Some body)) /\
    consumes l s (getToken s4).
Proof.
  intros.
  apply (for_phrase c start s1 [lookahead s1] (getToken s1) c' bound s3
           b body s4);
    try assumption.
  - spell.
  - apply lenient_downto; assumption.
Qed.

Lemma for_bare_phrase c start s1 c' bound s3 b body s4 :
  token s = FOR -> token (getToken s) = ID ->
  token (getToken (getToken s)) = ASSIGN ->
  consumes c (getToken (getToken (getToken s))) s1 -> g_simple_exp c start ->
  consumes c' s1 s3 -> g_simple_exp c' bound ->
  token s3 = DO ->
  consumes b (getToken s3) s4 -> lenient_sequence b body ->
  token s4 = ENDDO ->
  exists l,
    lenient_statement l
      (for_node (lineno s) (copyString (tokenString (getToken s)))
         (Some start) (Some bound) (Some body)) /\
    consumes l s (getToken s4).
Proof.
  intros.
  apply (for_phrase c start s1 [] s1 c' bound s3 b body s4); try assumption.
  - reflexivity.
  - apply lenient_neither.
Qed.

Lemma comparison_phrase l a s1 r b s' :
  consumes l s s1 -> g_simple_exp l a ->
  is_relop (token s1) = true ->
  consumes r (getToken s1) s' -> g_simple_exp r b ->
  exists l', g_exp l' (op_node (lineno s1) (token s1) (Some a) (Some b)) /\
             consumes l' s s'.
Proof.
  intros. eexists. split.
  - apply (g_exp_rel l a (lookahead s1) r b); assumption.
  - spell.
Qed.

Lemma parenthesis_phrase l e s1 :
  token s = LPAREN ->
  consumes l (getToken s) s1 -> g_exp l e ->
  token s1 = RPAREN ->
  exists l', g_factor l' e /\ consumes l' s (getToken s1).
Proof.
  intros. eexists. split.
  - apply (g_paren (lookahead s) l e (lookahead s1)); assumption.
  - spell.
Qed.

Lemma number_phrase :
  token s = NUM ->
  exists l, g_factor l (const_node (lineno s) (atoi (tokenString s))) /\
            consumes l s (getToken s).
Proof.
  intros. eexists. split.
  - apply (g_num (lookahead s)); assumption.
  - spell.
Qed.

Lemma identifier_phrase :
  token s = ID ->
  exists l, g_factor l (id_node (lineno s) (copyString (tokenString s))) /\
            consumes l s (getToken s).
Proof.
  intros. eexists. split.
  - apply (g_id (lookahead s)); assumption.
  - spell.
Qed.

End Phrases.

Ltac split_parsed :=
  repeat match goal with
         | H : _ /\ _ |- _ => destruct H
         | H : exists _, _ |- _ => destruct H
         | H : parsed _ _ _ _ |- _ => unfold parsed in H
         end.

(** Walks a run backwards from a state whose flag is down: every match
    before it was a hit, every rule before it parsed a phrase. *)
Ltac grammar_back :=
  repeat match goal with
         | Hc : Error (getToken (printToken (syntaxError _ _))) = false |- _ =>
             rewrite skip_flagged in Hc; discriminate Hc
         | Hc : Error (match_ ?k ?s) = false |- _ =>
             let Ht := fresh "Htok" in
             let Hc' := fresh "Hclean" in
             let Hm := fresh "Hm" in
             destruct (match_clean k s Hc) as (Ht & Hc' & Hm);
             clear Hc; rewrite Hm in *; clear Hm
         | Hc : Error (getToken ?s) = false |- _ =>
             rewrite Error_getToken in Hc
         | Hc : Error ?s' = false, H : ?p ?s = Some (?r, ?s'),
           IH : forall s r s', ?p s = Some (r, s') -> Error s' = false -> _ |- _ =>
             let F := fresh "Hfact" in
             pose proof (IH s r s' H Hc) as F; clear H; split_parsed; subst
         end.

Ltac known_tests :=
  repeat match goal with
         | Ht : token ?s = ?k |- context [tok_eqb (token ?s) ?k] =>
             rewrite (proj2 (tok_eqb_eq _ _) Ht)
         end.

Ltac phrase L :=
  split; [assumption|];
  known_tests;
  eexists; split; [reflexivity|];
  eapply L; eassumption.

Lemma read_stmt_follows s r s' :
  read_stmt s = Some (r, s') -> Error s' = false -> parsed lenient_statement s r s'.
Proof.
  intros H Hc. unfold read_stmt in H. take_apart H. grammar_back.
  phrase read_phrase.
Qed.

Lemma rules_follow_grammar : forall n,
  (forall s r s', stmt_sequence n s = Some (r, s') -> Error s' = false ->
     parsed lenient_sequence s r s') /\
  (forall t0 s r s', stmt_sequence_loop n (Some t0) s = Some (r, s') ->
     Error s' = false -> extended lenient_sequence t0 s r s') /\
  (forall s r s', statement n s = Some (r, s') -> Error s' = false ->
     parsed lenient_statement s r s') /\
  (forall s r s', if_stmt n s = Some (r, s') -> Error s' = false ->
     parsed lenient_statement s r s') /\
  (forall s r s', repeat_stmt n s = Some (r, s') -> Error s' = false ->
     parsed lenient_statement s r s') /\
  (forall s r s', assign_stmt n s = Some (r, s') -> Error s' = false ->
     parsed lenient_statement s r s') /\
  (forall s r s', write_stmt n s = Some (r, s') -> Error s' = false ->
     parsed lenient_statement s r s') /\
  (forall s r s', while_stmt n s = Some (r, s') -> Error s' = false ->
     parsed lenient_statement s r s') /\
  (forall s r s', dowhile_stmt n s = Some (r, s') -> Error s' = false ->
     parsed lenient_statement s r s') /\
  (forall s r s', for_stmt n s = Some (r, s') -> Error s' = false ->
     parsed lenient_statement s r s') /\
  (forall s r s', exp n s = Some (r, s') -> Error s' = false ->
     parsed g_exp s r s') /\
  (forall s r s', simple_exp n s = Some (r, s') -> Error s' = false ->
     parsed g_simple_exp s r s') /\
  (forall t0 s r s', simple_exp_loop n (Some t0) s = Some (r, s') ->
     Error s' = false -> extended g_simple_exp t0 s r s') /\
  (forall s r s', term n s = Some (r, s') -> Error s' = false ->
     parsed g_term s r s') /\
  (forall t0 s r s', term_loop n (Some t0) s = Some (r, s') ->
     Error s' = false -> extended g_term t0 s r s') /\
  (forall s r s', factor n s = Some (r, s') -> Error s' = false ->
     parsed g_factor s r s').
Proof.
  induction n as [|n IH].
  - repeat match goal with |- _ /\ _ => split end; intros; discriminate.
  - destruct IH as (Hseq & Hseql & Hstmt & Hif & Hrepeat & Hassign & Hwrite &
                    Hwhile & Hdo & Hfor & Hexp & Hsimple & Hsimplel & Hterm &
                    Hterml & Hfactor).
    repeat match goal with |- _ /\ _ => split end.
    + (* stmt_sequence *)
      intros s r s' H Hc. rewrite stmt_sequence_eq in H.
      apply bind_Some in H as (t & s1 & H1 & H2).
      pose proof (er_stmt_sequence_loop _ (flag_was_down n) t _ _ _ H2 Hc) as Hc1.
      destruct (Hstmt _ _ _ H1 Hc1) as (Hs & t1 & -> & l1 & Hg1 & Hl1).
      destruct (Hseql _ _ _ _ H2 Hc) as (_ & t2 & -> & l2 & Hl2 & Hg2).
      split; [exact Hs|]. exists t2. split; [reflexivity|].
      exists (l1 ++ l2). split.
      * apply Hg2. apply g_single. exact Hg1.
      * eapply consumes_join; eassumption.
    + (* its loop *)
      intros t0 s r s' H Hc. rewrite stmt_sequence_loop_eq in H.
      apply bind_Some in H as (tok & s0 & H0 & H).
      apply eval_Some in H0 as [-> ->].
      destruct (ends_sequence (token s)).
      * apply ret_Some in H as [-> ->].
        split; [exact Hc|]. exists t0. split; [reflexivity|].
        exists []. split; [reflexivity|].
        intros l0 Hg. rewrite app_nil_r. exact Hg.
      * apply bind_Some in H as (u & s1 & H1 & H).
        apply exec_Some in H1 as ->.
        apply bind_Some in H as (q & s2 & H2 & H).
        pose proof (er_stmt_sequence_loop _ (flag_was_down n) _ _ _ _ H Hc)
          as Hc2.
        destruct (Hstmt _ _ _ H2 Hc2) as (Hc1 & t1 & -> & l1 & Hg1 & Hl1).
        simpl link in H.
        destruct (Hseql _ _ _ _ H Hc) as (_ & t2 & -> & l2 & Hl2 & Hg2).
        grammar_back.
        split; [assumption|]. exists t2. split; [reflexivity|].
        exists (lookahead s :: l1 ++ l2). split.
        -- spell.
        -- intros l0 Hg.
           change (l0 ++ lookahead s :: l1 ++ l2)
             with (l0 ++ (lookahead s :: l1) ++ l2).
           rewrite app_assoc. apply Hg2.
           apply g_more; assumption.
    + (* statement *)
      intros s r s' H Hc. rewrite statement_eq in H.
      apply bind_Some in H as (tok & s0 & H0 & H).
      apply eval_Some in H0 as [-> ->].
      destruct (token s);
        try (apply skip_unexpected_Some in H as [_ ->];
             rewrite skip_flagged in Hc; discriminate Hc); auto.
      apply read_stmt_follows; assumption.
    + intros s r s' H Hc. rewrite if_stmt_eq in H. take_apart H; grammar_back.
      * phrase if_else_phrase.
      * phrase if_phrase.
    + intros s r s' H Hc. rewrite repeat_stmt_eq in H. take_apart H; grammar_back.
      phrase repeat_phrase.
    + intros s r s' H Hc. rewrite assign_stmt_eq in H. take_apart H; grammar_back.
      phrase assign_phrase.
    + intros s r s' H Hc. rewrite write_stmt_eq in H. take_apart H; grammar_back.
      phrase write_phrase.
    + intros s r s' H Hc. rewrite while_stmt_eq in H. take_apart H; grammar_back.
      phrase while_phrase.
    + intros s r s' H Hc. rewrite dowhile_stmt_eq in H. take_apart H; grammar_back.
      phrase dowhile_phrase.
    + (* for_stmt *)
      intros s r s' H Hc. rewrite for_stmt_eq in H. take_apart H; grammar_back.
      * phrase for_to_downto_phrase.
      * phrase for_to_phrase.
      * phrase for_downto_phrase.
      * phrase for_bare_phrase.
    + (* exp *)
      intros s r s' H Hc. rewrite exp_eq in H. take_apart H; grammar_back.
      * phrase comparison_phrase.
      * split; [assumption|]. eexists. split; [reflexivity|].
        eexists. split; [apply g_exp_simple; eassumption|assumption].
    + (* simple_exp *)
      intros s r s' H Hc. rewrite simple_exp_eq in H.
      apply bind_Some in H as (t & s1 & H1 & H2).
      pose proof (er_simple_exp_loop _ (flag_was_down n) t _ _ _ H2 Hc) as Hc1.
      destruct (Hterm _ _ _ H1 Hc1) as (Hs & t1 & -> & l1 & Hg1 & Hl1).
      destruct (Hsimplel _ _ _ _ H2 Hc) as (_ & t2 & -> & l2 & Hl2 & Hg2).
      split; [exact Hs|]. exists t2. split; [reflexivity|].
      exists (l1 ++ l2). split.
      * apply Hg2. apply g_simple_term. exact Hg1.
      * eapply consumes_join; eassumption.
    + (* its loop *)
      intros t0 s r s' H Hc. rewrite simple_exp_loop_eq in H.
      apply bind_Some in H as (tok & s0 & H0 & H).
      apply eval_Some in H0 as [-> ->].
      destruct (is_addop (token s)) eqn:Eop.
      * take_apart H.
        match goal with
        | Hl : simple_exp_loop n ?t ?s1 = Some _ |- _ =>
            pose proof (er_simple_exp_loop _ (flag_was_down n) t _ _ _ Hl Hc)
              as Hc1;
            apply Hsimplel in Hl; [|exact Hc];
            destruct Hl as (_ & t2 & -> & l2 & Hl2 & Hg2)
        end.
        grammar_back.
        match goal with
        | Hl1 : consumes ?l1 (getToken s) _ |- _ =>
            split; [assumption|]; exists t2; split; [reflexivity|];
            exists (lookahead s :: l1 ++ l2); split;
              [spell|];
            intros l0 Hg;
            change (l0 ++ lookahead s :: l1 ++ l2)
              with (l0 ++ (lookahead s :: l1) ++ l2);
            rewrite app_assoc; apply Hg2;
            apply (g_simple_op l0 t0 (lookahead s)); assumption
        end.
      * apply ret_Some in H as [-> ->].
        split; [exact Hc|]. exists t0. split; [reflexivity|].
        exists []. split; [reflexivity|].
        intros l0 Hg. rewrite app_nil_r. exact Hg.
    + (* term *)
      intros s r s' H Hc. rewrite term_eq in H.
      apply bind_Some in H as (t & s1 & H1 & H2).
      pose proof (er_term_loop _ (flag_was_down n) t _ _ _ H2 Hc) as Hc1.
      destruct (Hfactor _ _ _ H1 Hc1) as (Hs & t1 & -> & l1 & Hg1 & Hl1).
      destruct (Hterml _ _ _ _ H2 Hc) as (_ & t2 & -> & l2 & Hl2 & Hg2).
      split; [exact Hs|]. exists t2. split; [reflexivity|].
      exists (l1 ++ l2). split.
      * apply Hg2. apply g_term_factor. exact Hg1.
      * eapply consumes_join; eassumption.
    + (* its loop *)
      intros t0 s r s' H Hc. rewrite term_loop_eq in H.
      apply bind_Some in H as (tok & s0 & H0 & H).
      apply eval_Some in H0 as [-> ->].
      destruct (is_mulop (token s)) eqn:Eop.
      * take_apart H.
        match goal with
        | Hl : term_loop n ?t ?s1 = Some _ |- _ =>
            pose proof (er_term_loop _ (flag_was_down n) t _ _ _ Hl Hc)
              as Hc1;
            apply Hterml in Hl; [|exact Hc];
            destruct Hl as (_ & t2 & -> & l2 & Hl2 & Hg2)
        end.
        grammar_back.
        match goal with
        | Hl1 : consumes ?l1 (getToken s) _ |- _ =>
            split; [assumption|]; exists t2; split; [reflexivity|];
            exists (lookahead s :: l1 ++ l2); split;
              [spell|];
            intros l0 Hg;
            change (l0 ++ lookahead s :: l1 ++ l2)
              with (l0 ++ (lookahead s :: l1) ++ l2);
            rewrite app_assoc; apply Hg2;
            apply (g_term_op l0 t0 (lookahead s)); assumption
        end.
      * apply ret_Some in H as [-> ->].
        split; [exact Hc|]. exists t0. split; [reflexivity|].
        exists []. split; [reflexivity|].
        intros l0 Hg. rewrite app_nil_r. exact Hg.
    + (* factor *)
      intros s r s' H Hc. rewrite factor_eq in H.
      apply bind_Some in H as (tok & s0 & H0 & H).
      apply eval_Some in H0 as [-> ->].
      destruct (token s) eqn:Etok;
        try (apply skip_unexpected_Some in H as [_ ->];
             rewrite skip_flagged in Hc; discriminate Hc);
        take_apart H; grammar_back.
      * phrase identifier_phrase.
      * phrase number_phrase.
      * phrase parenthesis_phrase.
Qed.

(** ** Programs *)

Lemma consumes_quiet l : forall s s',
  consumes l s s' -> Error s' = Error s /\ listing s' = listing s.
Proof.
  induction l as [|tk l IH]; intros s s' H.
  - simpl in H. subst. auto.
  - destruct H as [_ H]. apply IH in H as [-> ->].
    rewrite Error_getToken, listing_getToken. auto.
Qed.

Lemma lookahead_getToken s tk rest :
  source s = tk :: rest -> lookahead (getToken s) = tk.
Proof. unfold getToken. intros ->. destruct tk. reflexivity. Qed.

Lemma source_getToken s : source (getToken s) = tl (source s).
Proof. unfold getToken. destruct (source s); reflexivity. Qed.

(** After the first token was fetched, the tokens of the source are those
    from the cursor on. *)
Lemma consumes_source l : forall s,
  source s = l -> l <> [] ->
  consumes l (getToken s) (Nat.iter (S (List.length l)) getToken s).
Proof.
  induction l as [|tk l IH]; intros s Hs Hl; [contradiction|].
  split.
  - eapply lookahead_getToken. exact Hs.
  - destruct l as [|tk' l].
    + reflexivity.
    + simpl List.length. rewrite Nat.iter_succ_r. apply IH.
      * rewrite source_getToken, Hs. reflexivity.
      * discriminate.
Qed.

Lemma exhausted l : forall s,
  source s = l -> token (Nat.iter (S (List.length l)) getToken s) = ENDFILE.
Proof.
  induction l as [|tk l IH]; intros s Hs.
  - simpl. unfold getToken. rewrite Hs. reflexivity.
  - simpl List.length. rewrite Nat.iter_succ_r. apply IH.
    rewrite source_getToken, Hs. reflexivity.
Qed.

Lemma phrases_are_not_empty :
  (forall l t, lenient_statement l t -> l <> []) /\
  (forall l t, lenient_sequence l t -> l <> []).
Proof.
  apply g_program_ind; intros; try discriminate; try assumption.
  destruct l; [contradiction|discriminate].
Qed.

Lemma unread_getToken s :
  proper_source (source s) -> unread (getToken s) = source s.
Proof.
  unfold unread, getToken, lookahead. intros H.
  destruct (source s) as [|tk rest]; simpl.
  - reflexivity.
  - inversion H as [|? ? Hk _]; subst.
    apply tok_eqb_neq in Hk. rewrite Hk. destruct tk. reflexivity.
Qed.

Lemma consumes_unread l : forall s s',
  consumes l s s' -> proper_source l -> proper_source (source s) ->
  unread s = l ++ unread s'.
Proof.
  induction l as [|tk l IH]; intros s s' H Hl Hs.
  - simpl in H. subst. reflexivity.
  - destruct H as [E H]. inversion Hl as [|? ? Hk Hl']; subst.
    simpl in Hk. apply tok_eqb_neq in Hk.
    unfold unread at 1. rewrite Hk. simpl. f_equal.
    rewrite <- (unread_getToken s Hs). apply IH; auto.
    rewrite source_getToken. unfold proper_source in *.
    destruct (source s); [constructor|]. inversion Hs; assumption.
Qed.

Ltac no_endfile :=
  unfold proper_source in *;
  repeat first
    [ assumption
    | apply Forall_nil
    | apply Forall_cons
    | apply Forall_app; split
    | match goal with
      | |- tk_kind ?tk <> ENDFILE =>
          let E := fresh in
          intros E; rewrite E in *; discriminate
      end ].

Lemma expressions_are_proper :
  (forall l t, g_factor l t -> proper_source l) /\
  (forall l t, g_term l t -> proper_source l) /\
  (forall l t, g_simple_exp l t -> proper_source l) /\
  (forall l t, g_exp l t -> proper_source l).
Proof. apply g_expression_ind; intros; no_endfile. Qed.

Lemma programs_are_proper :
  (forall l t, lenient_statement l t -> proper_source l) /\
  (forall l t, lenient_sequence l t -> proper_source l).
Proof.
  destruct expressions_are_proper as (_ & _ & Hsimple & Hexp).
  apply g_program_ind; intros;
    repeat match goal with
           | H : g_exp _ _ |- _ => apply Hexp in H
           | H : g_simple_exp _ _ |- _ => apply Hsimple in H
           | H : lenient_direction _ |- _ => inversion H; subst; clear H
           end;
    no_endfile.
Qed.

(** ** The grammar and what the rules let pass *)

Lemma direction_is_lenient dir : g_direction dir -> lenient_direction dir.
Proof.
  intros [tk H|tk H]; [apply lenient_to|apply lenient_downto]; exact H.
Qed.

(** Every phrase of the grammar is one that the rules let pass. *)
Lemma grammar_is_lenient :
  (forall l t, g_statement g_direction l t -> lenient_statement l t) /\
  (forall l t, g_sequence g_direction l t -> lenient_sequence l t).
Proof.
  apply g_program_ind; intros;
    first [ apply g_if; assumption
          | apply g_if_else; assumption
          | apply g_repeat; assumption
          | apply g_assign; assumption
          | apply g_read; assumption
          | apply g_write; assumption
          | apply g_while; assumption
          | apply g_dowhile; assumption
          | apply g_for; auto using direction_is_lenient
          | apply g_more; assumption
          | apply g_single; assumption ].
Qed.

Ltac forall_parts :=
  repeat match goal with
         | H : Forall _ (_ :: _) |- _ => apply Forall_cons_iff in H; destruct H
         | H : Forall _ (_ ++ _) |- _ => apply Forall_app in H; destruct H
         end.

(** The two differ in [for] statements only: a phrase without the token
    [for] that the rules let pass is a phrase of the grammar. *)
Lemma lenient_without_for :
  (forall l t, lenient_statement l t ->
     Forall (fun tk => tk_kind tk <> FOR) l -> g_statement g_direction l t) /\
  (forall l t, lenient_sequence l t ->
     Forall (fun tk => tk_kind tk <> FOR) l -> g_sequence g_direction l t).
Proof.
  apply g_program_ind; intros; forall_parts;
    first [ contradiction
          | apply g_if; auto
          | apply g_if_else; auto
          | apply g_repeat; auto
          | apply g_assign; auto
          | apply g_read; auto
          | apply g_write; auto
          | apply g_while; auto
          | apply g_dowhile; auto
          | apply g_more; solve [auto]
          | apply g_single; auto ].
Qed.

(** ** Tokens that were not read *)

Lemma still_unread_refl s : still_unread s s.
Proof. right. exists []. reflexivity. Qed.

Lemma still_unread_trans a b c :
  still_unread a b -> still_unread b c -> still_unread a c.
Proof.
  intros Hab [Hc|(l2 & E2)]; [left; exact Hc|].
  destruct Hab as [(Ht & Hs)|(l1 & E1)].
  - left. rewrite Hs in E2. destruct l2 as [|x l2].
    + injection E2 as Etok _ _ Esrc. split; congruence.
    + injection E2 as _ E2. destruct l2; discriminate E2.
  - right. exists (l1 ++ l2). rewrite E1, E2, app_assoc. reflexivity.
Qed.

Lemma still_unread_getToken s : still_unread s (getToken s).
Proof.
  destruct (source s) as [|tk rest] eqn:E.
  - left. unfold getToken. rewrite E. auto.
  - right. exists [lookahead s].
    rewrite (lookahead_getToken _ _ _ E), source_getToken, E. reflexivity.
Qed.

Lemma still_unread_rules n : EveryRule (fun f => keeps still_unread (f n)).
Proof.
  apply keeps_rules.
  - apply still_unread_refl.
  - apply still_unread_trans.
  - apply still_unread_getToken.
  - intros m s. right. exists []. reflexivity.
  - intros s. right. exists []. reflexivity.
  - intros x s. right. exists []. reflexivity.
Qed.

(** The derivations of the sample phrases. *)
Lemma two_plus_three_times_four_derivation :
  g_exp two_plus_three_times_four two_plus_three_times_four_tree.
Proof.
  apply g_exp_simple.
  apply (g_simple_op [num "2"] (const_node 1 2) (sym PLUS "+")
           [num "3"; sym TIMES "*"; num "4"]
           (op_node 1 TIMES (Some (const_node 1 3)) (Some (const_node 1 4)))).
  - apply g_simple_term, g_term_factor. apply (g_num (num "2")). reflexivity.
  - reflexivity.
  - apply (g_term_op [num "3"] (const_node 1 3) (sym TIMES "*")
             [num "4"] (const_node 1 4)).
    + apply g_term_factor. apply (g_num (num "3")). reflexivity.
    + reflexivity.
    + apply (g_num (num "4")). reflexivity.
Defined.

Lemma while_program_derivation :
  g_sequence g_direction while_program while_program_tree.
Proof.
  apply g_single.
  apply (g_while (sym WHILE "while") [ident "x"] (id_node 1 "x") (sym DO "do")
           [sym READ "read"; ident "y"] (read_node 1 "y")
           (sym ENDWHILE "endwhile")); try reflexivity.
  - apply g_exp_simple, g_simple_term, g_term_factor.
    apply (g_id (ident "x")). reflexivity.
  - apply g_single. apply (g_read (sym READ "read") (ident "y")); reflexivity.
Defined.

Lemma sample_assignments_derivation :
  g_sequence g_direction sample_assignments sample_assignments_tree.
Proof.
  apply (g_more [mkToken ID "a" 1; mkToken ASSIGN ":=" 1; mkToken NUM "1" 1]
           (assign_node 1 "a" (Some (const_node 1 1)) None)
           (mkToken SEMI ";" 1)
           [mkToken ID "b" 2; mkToken ASSIGN ":=" 2; mkToken NUM "2" 2]
           (assign_node 2 "b" (Some (const_node 2 2)) None)).
  - apply g_single.
    apply (g_assign (mkToken ID "a" 1) (mkToken ASSIGN ":=" 1)
             [mkToken NUM "1" 1] (const_node 1 1)); try reflexivity.
    apply g_exp_simple, g_simple_term, g_term_factor.
    apply (g_num (mkToken NUM "1" 1)). reflexivity.
  - reflexivity.
  - apply (g_assign (mkToken ID "b" 2) (mkToken ASSIGN ":=" 2)
             [mkToken NUM "2" 2] (const_node 2 2)); try reflexivity.
    apply g_exp_simple, g_simple_term, g_term_factor.
    apply (g_num (mkToken NUM "2" 2)). reflexivity.
Defined.

(** X1: [exp] parses every expression of the grammar.  When the tokens
    from the cursor on spell an expression and the token after it is not
    an operator, [exp] returns the tree of that expression (operators of
    one level nested to the left, [*], [/] and [%] below [+] and [-],
    these below the comparison, parentheses leaving no node) with the
    cursor on the token after it, and writes no diagnostic. *)
Theorem grammatical_expression_is_parsed l t s s' :
  g_exp l t -> consumes l s s' -> is_operator (token s') = false ->
  returns exp s (Some t) s' /\ Error s' = Error s /\ listing s' = listing s.
Proof.
  intros Hg Hc Hf. split.
  - apply settles_returns. eapply exp_settles; eassumption.
  - eapply consumes_quiet. exact Hc.
Qed.

Lemma grammatical_expression_is_parsed_witness :
  g_exp two_plus_three_times_four two_plus_three_times_four_tree /\
  consumes two_plus_three_times_four
    (primed two_plus_three_times_four 0) (primed two_plus_three_times_four 5) /\
  is_operator (token (primed two_plus_three_times_four 5)) = false /\
  returns exp (primed two_plus_three_times_four 0)
    (Some two_plus_three_times_four_tree) (primed two_plus_three_times_four 5) /\
  Error (primed two_plus_three_times_four 5) =
    Error (primed two_plus_three_times_four 0) /\
  listing (primed two_plus_three_times_four 5) =
    listing (primed two_plus_three_times_four 0).
Proof.
  assert (C : consumes two_plus_three_times_four
                (primed two_plus_three_times_four 0)
                (primed two_plus_three_times_four 5)).
  { vm_compute. repeat split. }
  assert (F : is_operator (token (primed two_plus_three_times_four 5)) = false).
  { reflexivity. }
  exact (conj two_plus_three_times_four_derivation
           (conj C (conj F
              (grammatical_expression_is_parsed _ _ _ _
                 two_plus_three_times_four_derivation C F)))).
Defined.

(** X2: [stmt_sequence] parses every statement sequence of the grammar.
    When the tokens from the cursor on spell statements of the grammar
    separated by semicolons and the token after them is one at which the
    loop of [stmt_sequence] stops, the rule returns the first statement's
    node with the later ones chained through [sibling] in source order,
    the cursor on the token after the sequence, and writes no
    diagnostic. *)
Theorem grammatical_sequence_is_parsed l t s s' :
  g_sequence g_direction l t -> consumes l s s' ->
  ends_sequence (token s') = true ->
  returns stmt_sequence s (Some t) s' /\
  Error s' = Error s /\ listing s' = listing s.
Proof.
  intros Hg Hc Hf. apply grammar_is_lenient in Hg. split.
  - apply settles_returns.
    destruct programs_settle as [_ K].
    apply (K _ _ Hg _ _ Hc).
    + destruct (token s'); try discriminate; reflexivity.
    + apply sequence_settles_at_end. exact Hf.
  - eapply consumes_quiet. exact Hc.
Qed.

Lemma grammatical_sequence_is_parsed_witness :
  g_sequence g_direction while_program while_program_tree /\
  consumes while_program (primed while_program 0) (primed while_program 6) /\
  ends_sequence (token (primed while_program 6)) = true /\
  returns stmt_sequence (primed while_program 0)
    (Some while_program_tree) (primed while_program 6) /\
  Error (primed while_program 6) = Error (primed while_program 0) /\
  listing (primed while_program 6) = listing (primed while_program 0).
Proof.
  assert (C : consumes while_program (primed while_program 0)
                (primed while_program 6)).
  { vm_compute. repeat split. }
  assert (F : ends_sequence (token (primed while_program 6)) = true).
  { reflexivity. }
  exact (conj while_program_derivation
           (conj C (conj F
              (grammatical_sequence_is_parsed _ _ _ _
                 while_program_derivation C F)))).
Defined.

(** The sequence that is the whole source is parsed to the end of the
    input. *)
Lemma source_settles src t :
  lenient_sequence src t ->
  settles stmt_sequence (getToken (initial src)) (Some t)
    (primed src (List.length src)) /\
  token (primed src (List.length src)) = ENDFILE /\
  Error (primed src (List.length src)) = false /\
  listing (primed src (List.length src)) = [].
Proof.
  intros Hg.
  pose proof (proj2 phrases_are_not_empty _ _ Hg) as Hne.
  pose proof (consumes_source src (initial src) eq_refl Hne) as Hc.
  assert (Hend : token (primed src (List.length src)) = ENDFILE).
  { unfold primed. rewrite Nat.iter_succ_r.
    destruct src as [|tk rest]; [contradiction|].
    change (getToken (initial (tk :: rest)))
      with (mkState (tk_kind tk) (tk_string tk) (tk_line tk) rest false []).
    simpl List.length. apply exhausted. reflexivity. }
  assert (Hs : Nat.iter (S (List.length src)) getToken (initial src) =
               primed src (List.length src)) by reflexivity.
  rewrite Hs in Hc.
  split; [|split; [exact Hend|]].
  - destruct programs_settle as [_ K].
    apply (K _ _ Hg _ _ Hc).
    + rewrite Hend. reflexivity.
    + apply sequence_settles_at_end. rewrite Hend. reflexivity.
  - destruct (consumes_quiet _ _ _ Hc) as [-> ->].
    rewrite Error_getToken, listing_getToken. auto.
Qed.

(** X3: [parse] accepts every program of the grammar.  When the whole
    source is a statement sequence of the grammar, [parse] returns its
    tree, consumes the source to the end-of-input token, and leaves the
    error flag down and the listing empty. *)
Theorem grammatical_source_is_parsed src t :
  g_sequence g_direction src t ->
  returns parse (initial src) (Some t) (primed src (List.length src)) /\
  token (primed src (List.length src)) = ENDFILE /\
  Error (primed src (List.length src)) = false /\
  listing (primed src (List.length src)) = [].
Proof.
  intros Hg. apply grammar_is_lenient in Hg.
  destruct (source_settles _ _ Hg) as ([n Hn] & Hend & Hquiet).
  split; [|split; [exact Hend|exact Hquiet]].
  exists n. rewrite (parse_unfold _ _ _ _ (Hn n (Nat.le_refl n))).
  rewrite Hend. reflexivity.
Qed.

Lemma grammatical_source_is_parsed_witness :
  g_sequence g_direction sample_assignments sample_assignments_tree /\
  returns parse (initial sample_assignments) (Some sample_assignments_tree)
    (primed sample_assignments (List.length sample_assignments)) /\
  token (primed sample_assignments (List.length sample_assignments)) = ENDFILE /\
  Error (primed sample_assignments (List.length sample_assignments)) = false /\
  listing (primed sample_assignments (List.length sample_assignments)) = [].
Proof.
  exact (conj sample_assignments_derivation
           (grammatical_source_is_parsed _ _ sample_assignments_derivation)).
Defined.

(** A parse that returns with the flag down has parsed, from the first
    token to the end-of-input token, a statement sequence that the rules
    let pass. *)
Lemma clean_parse_sequence n s r s' :
  parse n s = Some (r, s') -> Error s' = false ->
  exists t l, r = Some t /\ lenient_sequence l t /\
              consumes l (getToken s) s' /\ token s' = ENDFILE.
Proof.
  intros H Hc. unfold parse in H.
  rewrite bind_exec in H.
  apply bind_Some in H as (t & s1 & H1 & H).
  rewrite bind_eval in H.
  destruct (tok_eqb (token s1) ENDFILE) eqn:Hend.
  - apply ret_Some in H as [-> ->].
    destruct (rules_follow_grammar n) as (Hseq & _).
    destruct (Hseq _ _ _ H1 Hc) as (_ & t' & -> & l & Hg & Hl).
    apply tok_eqb_eq in Hend. exists t', l. auto.
  - simpl in H. unfold bind, exec, ret in H. injection H as <- <-.
    discriminate Hc.
Qed.

(** X4: a parse without diagnostics is a parse of a program of the
    grammar, but for the direction of [for].  When [parse] returns with
    the error flag down on a source that holds no end-of-input token,
    the result is not null, and the whole source is a statement sequence
    of the grammar relaxed in one place: the directional keyword of a
    [for] statement may be absent or be [to downto], which [for_stmt]
    lets pass (C1).  The result is the tree of that sequence.  If no
    token of the source is [for], the source is a statement sequence of
    the grammar itself. *)
Theorem clean_parse_is_grammatical_but_for_direction src r s' :
  proper_source src ->
  returns parse (initial src) r s' -> Error s' = false ->
  exists t,
    r = Some t /\ lenient_sequence src t /\
    (Forall (fun tk => tk_kind tk <> FOR) src -> g_sequence g_direction src t).
Proof.
  intros Hsrc [n H] Hc.
  destruct (clean_parse_sequence _ _ _ _ H Hc) as (t & l & -> & Hg & Hl & Hend).
  assert (E : l = src).
  { pose proof (proj2 programs_are_proper _ _ Hg) as Hl'.
    apply consumes_unread in Hl; [|exact Hl'|].
    - rewrite unread_getToken in Hl by exact Hsrc.
      apply tok_eqb_eq in Hend.
      unfold unread in Hl at 1. rewrite Hend, app_nil_r in Hl.
      simpl in Hl. symmetry. exact Hl.
    - rewrite source_getToken. simpl. unfold proper_source in *.
      destruct src; [constructor|]. inversion Hsrc; assumption. }
  subst l. exists t. split; [reflexivity|]. split; [exact Hg|].
  apply (proj2 lenient_without_for). exact Hg.
Qed.

Lemma clean_parse_is_grammatical_but_for_direction_witness :
  proper_source sample_assignments /\
  returns parse (initial sample_assignments) (Some sample_assignments_tree)
    sample_assignments_end /\
  Error sample_assignments_end = false /\
  exists t,
    Some sample_assignments_tree = Some t /\
    lenient_sequence sample_assignments t /\
    (Forall (fun tk => tk_kind tk <> FOR) sample_assignments ->
     g_sequence g_direction sample_assignments t).
Proof.
  assert (P : proper_source sample_assignments).
  { repeat constructor; discriminate. }
  assert (R : returns parse (initial sample_assignments)
                (Some sample_assignments_tree) sample_assignments_end).
  { exists 30. vm_compute. reflexivity. }
  exact (conj P (conj R (conj eq_refl
           (clean_parse_is_grammatical_but_for_direction _ _ _ P R eq_refl)))).
Defined.

(** ** The edges of [parse] and [statement] *)

(** X5: an empty source is reported, not accepted.  On a source without
    tokens [parse] returns the null tree, raises the error flag and
    writes one report of an unexpected end-of-input token; it does not
    add the end-of-code diagnostic. *)
Theorem empty_source_is_reported s :
  source s = [] ->
  returns parse s None
    (mkState ENDFILE EmptyString (lineno s) [] true
       (listing s ++
        [Text (newline ++ ">>> ")%string;
         SyntaxErrorAt (lineno s) unexpected_token;
         TokenText ENDFILE EmptyString])).
Proof.
  intros Hs. exists 3.
  assert (Hfirst : getToken s =
                   mkState ENDFILE EmptyString (lineno s) [] (Error s) (listing s)).
  { unfold getToken. rewrite Hs. reflexivity. }
  assert (Hd : starts_statement (token (getToken s)) = false).
  { rewrite Hfirst. reflexivity. }
  erewrite parse_unfold.
  2: { rewrite stmt_sequence_eq.
       rewrite (bind_run _ _ _ _ _ (statement_default 1 (getToken s) Hd)).
       apply stmt_sequence_loop_stop.
       rewrite Hfirst. reflexivity. }
  rewrite Hfirst. unfold getToken, printToken, syntaxError, fprintf_listing.
  simpl. rewrite <- !app_assoc. reflexivity.
Qed.

Lemma empty_source_is_reported_witness :
  source (initial []) = [] /\
  returns parse (initial []) None
    (mkState ENDFILE EmptyString 0 [] true
       [Text (newline ++ ">>> ")%string;
        SyntaxErrorAt 0 unexpected_token;
        TokenText ENDFILE EmptyString]).
Proof.
  split; [reflexivity|].
  exact (empty_source_is_reported (initial []) eq_refl).
Defined.

Ltac fresh_node :=
  eexists; split; [reflexivity|];
  cbn [set_child set_attr nodekind node_lineno sibling child0 child1 child2 attr];
  repeat match goal with
         | |- context [tok_eqb ?a ?b] => destruct (tok_eqb a b)
         end;
  repeat split.

(** X6: [statement] yields a node exactly for the tokens that start a
    statement, also when the statement is malformed.  If the lookahead
    starts a statement, the result is a node of the kind that the token
    selects, stamped with the line of that token and not yet linked to a
    sibling, whatever errors the rule meets afterwards; on any other
    lookahead the result is null. *)
Theorem statement_node_by_leading_token s r s' :
  returns statement s r s' ->
  match statement_kind (token s) with
  | Some k =>
      exists t, r = Some t /\ nodekind t = StmtK k /\
                node_lineno t = lineno s /\ sibling t = None
  | None => r = None
  end.
Proof.
  intros [[|[|n]] H]; try discriminate H.
  - rewrite statement_eq in H.
    apply bind_Some in H as (tok & s0 & H0 & H).
    apply eval_Some in H0 as [-> ->].
    destruct (token s); try discriminate H; simpl statement_kind;
      try (apply skip_unexpected_Some in H as [-> _]; reflexivity).
    unfold read_stmt in H. take_apart H. fresh_node.
  - rewrite statement_eq in H.
    apply bind_Some in H as (tok & s0 & H0 & H).
    apply eval_Some in H0 as [-> ->].
    destruct (token s); simpl statement_kind;
      try (apply skip_unexpected_Some in H as [-> _]; reflexivity).
    + rewrite if_stmt_eq in H. take_apart H; fresh_node.
    + rewrite repeat_stmt_eq in H. take_apart H; fresh_node.
    + unfold read_stmt in H. take_apart H; fresh_node.
    + rewrite write_stmt_eq in H. take_apart H; fresh_node.
    + rewrite while_stmt_eq in H. take_apart H; fresh_node.
    + rewrite dowhile_stmt_eq in H. take_apart H; fresh_node.
    + rewrite for_stmt_eq in H. take_apart H; fresh_node.
    + rewrite assign_stmt_eq in H. take_apart H; fresh_node.
Qed.

Lemma statement_node_by_leading_token_witness :
  returns statement (primed while_program 0) (Some while_program_tree)
    (primed while_program 6) /\
  match statement_kind (token (primed while_program 0)) with
  | Some k =>
      exists t, Some while_program_tree = Some t /\
                nodekind t = StmtK k /\
                node_lineno t = lineno (primed while_program 0) /\
                sibling t = None
  | None => Some while_program_tree = None
  end.
Proof.
  assert (R : returns statement (primed while_program 0)
                (Some while_program_tree) (primed while_program 6)).
  { exists 20. vm_compute. reflexivity. }
  exact (conj R (statement_node_by_leading_token _ _ _ R)).
Defined.

(** X7: the tree of a [for] loop does not tell [to] from [downto].  Two
    sources that are one [for] statement and differ only in the
    directional keyword are parsed, both without diagnostics, to the
    same tree: the keyword is consumed and leaves no trace in the node. *)
Theorem for_direction_is_not_recorded
    kw id op c start tk tk' c' bound d b body en :
  tk_kind kw = FOR -> tk_kind id = ID -> tk_kind op = ASSIGN ->
  g_simple_exp c start ->
  tk_kind tk = TO -> tk_kind tk' = DOWNTO ->
  g_simple_exp c' bound -> tk_kind d = DO -> lenient_sequence b body ->
  tk_kind en = ENDDO ->
  exists t s1 s2,
    returns parse
      (initial (kw :: id :: op :: c ++ [tk] ++ c' ++ d :: b ++ [en]))
      (Some t) s1 /\
    returns parse
      (initial (kw :: id :: op :: c ++ [tk'] ++ c' ++ d :: b ++ [en]))
      (Some t) s2 /\
    Error s1 = false /\ Error s2 = false.
Proof.
  intros Hkw Hid Hop Hc Hto Hdownto Hc' Hd Hb Hen.
  assert (G1 : lenient_sequence (kw :: id :: op :: c ++ [tk] ++ c' ++ d :: b ++ [en])
                 (for_node (tk_line kw) (copyString (tk_string id))
                    (Some start) (Some bound) (Some body))).
  { apply g_single, g_for; auto using lenient_to. }
  assert (G2 : lenient_sequence (kw :: id :: op :: c ++ [tk'] ++ c' ++ d :: b ++ [en])
                 (for_node (tk_line kw) (copyString (tk_string id))
                    (Some start) (Some bound) (Some body))).
  { apply g_single, g_for; auto using lenient_downto. }
  destruct (source_settles _ _ G1) as ([n1 H1] & E1 & F1 & _).
  destruct (source_settles _ _ G2) as ([n2 H2] & E2 & F2 & _).
  eexists _, _, _. split; [|split; [|split; [exact F1|exact F2]]].
  - exists n1. rewrite (parse_unfold _ _ _ _ (H1 n1 (Nat.le_refl n1))).
    rewrite E1. reflexivity.
  - exists n2. rewrite (parse_unfold _ _ _ _ (H2 n2 (Nat.le_refl n2))).
    rewrite E2. reflexivity.
Qed.

Lemma for_direction_is_not_recorded_witness :
  exists t s1 s2,
    returns parse (initial for_to) (Some t) s1 /\
    returns parse (initial for_downto) (Some t) s2 /\
    Error s1 = false /\ Error s2 = false.
Proof.
  apply (for_direction_is_not_recorded
           (sym FOR "for") (ident "i") (sym ASSIGN ":=")
           [num "1"] (const_node 1 1) (sym TO "to") (sym DOWNTO "downto")
           [num "10"] (const_node 1 10) (sym DO "do")
           [sym WRITE "write"; ident "i"] (write_node 1 (Some (id_node 1 "i")))
           (sym ENDDO "enddo")); try reflexivity.
  - apply g_simple_term, g_term_factor. apply (g_num (num "1")). reflexivity.
  - apply g_simple_term, g_term_factor. apply (g_num (num "10")). reflexivity.
  - apply g_single. apply (g_write (sym WRITE "write") [ident "i"]).
    + reflexivity.
    + apply g_exp_simple, g_simple_term, g_term_factor.
      apply (g_id (ident "i")). reflexivity.
Defined.

(** ** Trees of every parse, with or without diagnostics *)

Lemma statement_chain_append : forall t q,
  statement_chain (append_sibling t q) = statement_chain t && statement_chain q.
Proof.
  fix IH 1. intros [c0 c1 c2 [m|] ln k a] q; simpl.
  - rewrite IH. rewrite andb_assoc. reflexivity.
  - rewrite andb_true_r. reflexivity.
Qed.

Lemma link_sorted t q :
  statements_or_null t = true -> statements_or_null q = true ->
  statements_or_null (link t q) = true.
Proof.
  destruct t as [t|], q as [q|]; simpl; intros Ht Hq; auto.
  rewrite statement_chain_append, Ht, Hq. reflexivity.
Qed.

(** Uses what is known of the results of the rules a body has called. *)
Ltac sorted_back :=
  repeat match goal with
         | H : ?p ?s = Some (?r, ?s'),
           IH : forall s r s', ?p s = Some (r, s') -> _ r = true |- _ =>
             apply IH in H
         end;
  unfold expression_or_null, statements_or_null in *.

Ltac sorted_node :=
  cbn [set_child set_attr nodekind node_lineno sibling child0 child1 child2 attr];
  repeat match goal with
         | |- context [tok_eqb ?a ?b] => destruct (tok_eqb a b)
         end;
  cbn [set_attr nodekind node_lineno sibling child0 child1 child2 attr
       expression_tree statement_chain];
  repeat match goal with
         | H : _ = true |- _ => rewrite H
         end;
  try reflexivity.

Lemma read_stmt_sorted s r s' :
  read_stmt s = Some (r, s') -> statements_or_null r = true.
Proof.
  intros H. unfold read_stmt in H. take_apart H.
  unfold statements_or_null. sorted_node.
Qed.

Lemma rules_sorted : forall n,
  (forall s r s', stmt_sequence n s = Some (r, s') ->
     statements_or_null r = true) /\
  (forall t s r s', statements_or_null t = true ->
     stmt_sequence_loop n t s = Some (r, s') -> statements_or_null r = true) /\
  (forall s r s', statement n s = Some (r, s') ->
     statements_or_null r = true) /\
  (forall s r s', if_stmt n s = Some (r, s') -> statements_or_null r = true) /\
  (forall s r s', repeat_stmt n s = Some (r, s') ->
     statements_or_null r = true) /\
  (forall s r s', assign_stmt n s = Some (r, s') ->
     statements_or_null r = true) /\
  (forall s r s', write_stmt n s = Some (r, s') ->
     statements_or_null r = true) /\
  (forall s r s', while_stmt n s = Some (r, s') ->
     statements_or_null r = true) /\
  (forall s r s', dowhile_stmt n s = Some (r, s') ->
     statements_or_null r = true) /\
  (forall s r s', for_stmt n s = Some (r, s') -> statements_or_null r = true) /\
  (forall s r s', exp n s = Some (r, s') -> expression_or_null r = true) /\
  (forall s r s', simple_exp n s = Some (r, s') ->
     expression_or_null r = true) /\
  (forall t s r s', expression_or_null t = true ->
     simple_exp_loop n t s = Some (r, s') -> expression_or_null r = true) /\
  (forall s r s', term n s = Some (r, s') -> expression_or_null r = true) /\
  (forall t s r s', expression_or_null t = true ->
     term_loop n t s = Some (r, s') -> expression_or_null r = true) /\
  (forall s r s', factor n s = Some (r, s') -> expression_or_null r = true).
Proof.
  induction n as [|n IH].
  - repeat match goal with |- _ /\ _ => split end; intros; discriminate.
  - destruct IH as (Hseq & Hseql & Hstmt & Hif & Hrepeat & Hassign & Hwrite &
                    Hwhile & Hdo & Hfor & Hexp & Hsimple & Hsimplel & Hterm &
                    Hterml & Hfactor).
    repeat match goal with |- _ /\ _ => split end.
    + (* stmt_sequence *)
      intros s r s' H. rewrite stmt_sequence_eq in H.
      apply bind_Some in H as (t & s1 & H1 & H2).
      apply Hstmt in H1. exact (Hseql _ _ _ _ H1 H2).
    + (* its loop *)
      intros t s r s' Ht H. rewrite stmt_sequence_loop_eq in H.
      apply bind_Some in H as (tok & s0 & H0 & H).
      apply eval_Some in H0 as [-> ->].
      destruct (ends_sequence (token s)).
      * apply ret_Some in H as [-> ->]. exact Ht.
      * apply bind_Some in H as (u & s1 & H1 & H).
        apply exec_Some in H1 as ->.
        apply bind_Some in H as (q & s2 & H2 & H).
        apply Hstmt in H2.
        exact (Hseql _ _ _ _ (link_sorted _ _ Ht H2) H).
    + (* statement *)
      intros s r s' H. rewrite statement_eq in H.
      apply bind_Some in H as (tok & s0 & H0 & H).
      apply eval_Some in H0 as [-> ->].
      destruct (token s);
        try (apply skip_unexpected_Some in H as [-> _]; reflexivity); eauto.
      eapply read_stmt_sorted; eassumption.
    + intros s r s' H. rewrite if_stmt_eq in H.
      take_apart H; sorted_back; sorted_node.
    + intros s r s' H. rewrite repeat_stmt_eq in H.
      take_apart H; sorted_back; sorted_node.
    + intros s r s' H. rewrite assign_stmt_eq in H.
      take_apart H; sorted_back; sorted_node.
    + intros s r s' H. rewrite write_stmt_eq in H.
      take_apart H; sorted_back; sorted_node.
    + intros s r s' H. rewrite while_stmt_eq in H.
      take_apart H; sorted_back; sorted_node.
    + intros s r s' H. rewrite dowhile_stmt_eq in H.
      take_apart H; sorted_back; sorted_node.
    + intros s r s' H. rewrite for_stmt_eq in H.
      take_apart H; sorted_back; sorted_node.
    + (* exp *)
      intros s r s' H. rewrite exp_eq in H.
      take_apart H; sorted_back; sorted_node; assumption.
    + (* simple_exp *)
      intros s r s' H. rewrite simple_exp_eq in H.
      apply bind_Some in H as (t & s1 & H1 & H2).
      apply Hterm in H1. exact (Hsimplel _ _ _ _ H1 H2).
    + (* its loop *)
      intros t s r s' Ht H. rewrite simple_exp_loop_eq in H.
      apply bind_Some in H as (tok & s0 & H0 & H).
      apply eval_Some in H0 as [-> ->].
      destruct (is_addop (token s)).
      * take_apart H.
        match goal with
        | Hc : term n _ = Some _ |- _ => apply Hterm in Hc
        end.
        match goal with
        | Hl : simple_exp_loop n _ _ = Some _ |- _ =>
            apply Hsimplel in Hl; [exact Hl|]
        end.
        unfold expression_or_null in *. sorted_node.
      * apply ret_Some in H as [-> ->]. exact Ht.
    + (* term *)
      intros s r s' H. rewrite term_eq in H.
      apply bind_Some in H as (t & s1 & H1 & H2).
      apply Hfactor in H1. exact (Hterml _ _ _ _ H1 H2).
    + (* its loop *)
      intros t s r s' Ht H. rewrite term_loop_eq in H.
      apply bind_Some in H as (tok & s0 & H0 & H).
      apply eval_Some in H0 as [-> ->].
      destruct (is_mulop (token s)).
      * take_apart H.
        match goal with
        | Hc : factor n _ = Some _ |- _ => apply Hfactor in Hc
        end.
        match goal with
        | Hl : term_loop n _ _ = Some _ |- _ =>
            apply Hterml in Hl; [exact Hl|]
        end.
        unfold expression_or_null in *. sorted_node.
      * apply ret_Some in H as [-> ->]. exact Ht.
    + (* factor *)
      intros s r s' H. rewrite factor_eq in H.
      apply bind_Some in H as (tok & s0 & H0 & H).
      apply eval_Some in H0 as [-> ->].
      destruct (token s) eqn:Etok;
        try (apply skip_unexpected_Some in H as [-> _]; reflexivity);
        take_apart H; sorted_back; sorted_node; assumption.
Qed.

(** X8: every tree that [parse] returns is well sorted, also when the
    source is malformed.  The result is null or a chain of statement
    nodes in which every child slot holds what the node's kind puts
    there: an expression tree where an expression belongs, a statement
    chain where a body belongs, nothing in an unused slot; a slot whose
    phrase could not be parsed is null. *)
Theorem parse_returns_sorted_tree s r s' :
  returns parse s r s' -> statements_or_null r = true.
Proof.
  intros [n H]. unfold parse in H.
  rewrite bind_exec in H.
  apply bind_Some in H as (t & s1 & H1 & H).
  rewrite bind_eval in H.
  apply bind_Some in H as (u & s2 & _ & H).
  apply ret_Some in H as [-> _].
  destruct (rules_sorted n) as (Hseq & _).
  exact (Hseq _ _ _ H1).
Qed.

Lemma parse_returns_sorted_tree_witness :
  returns parse (initial if_malformed) (Some if_malformed_tree)
    if_malformed_end /\
  statements_or_null (Some if_malformed_tree) = true.
Proof.
  assert (R : returns parse (initial if_malformed) (Some if_malformed_tree)
                if_malformed_end).
  { exists 20. vm_compute. reflexivity. }
  exact (conj R (parse_returns_sorted_tree _ _ _ R)).
Defined.

(** ** No more nodes than tokens *)

Lemma count_nodes_eq c0 c1 c2 sib ln k a :
  count_nodes (mkTreeNode c0 c1 c2 sib ln k a) =
  1 + tree_size c0 + tree_size c1 + tree_size c2 + tree_size sib.
Proof. reflexivity. Qed.

Lemma count_nodes_append : forall t q,
  count_nodes (append_sibling t q) = count_nodes t + count_nodes q.
Proof.
  fix IH 1. intros [c0 c1 c2 [m|] ln k a] q; simpl.
  - rewrite IH. lia.
  - lia.
Qed.

Lemma tree_size_link t q : tree_size (link t q) = tree_size t + tree_size q.
Proof.
  destruct t as [t|], q as [q|]; simpl; try lia.
  apply count_nodes_append.
Qed.

Lemma remaining_match_hit k s :
  token s = k -> k <> ENDFILE -> remaining (match_ k s) + 1 <= remaining s.
Proof.
  intros Ht Hk. rewrite (match_hit _ _ Ht). subst k.
  pose proof (remaining_getToken_lt s Hk). lia.
Qed.

(** Collects what each [match] of a run did to the number of tokens
    left: at least one fewer where the lookahead is known to be the
    expected token, no more in any case. *)
Ltac tokens_of_matches :=
  repeat match goal with
         | _ : context [match_ ?k ?s] |- _ =>
             lazymatch goal with
             | _ : remaining (match_ k s) <= remaining s |- _ => fail
             | _ => pose proof (remaining_match k s)
             end
         | |- context [match_ ?k ?s] =>
             lazymatch goal with
             | _ : remaining (match_ k s) <= remaining s |- _ => fail
             | _ => pose proof (remaining_match k s)
             end
         end.

Ltac sizes_back :=
  repeat match goal with
         | H : ?p ?s = Some (?r, ?s'),
           IH : forall s r s', ?p s = Some (r, s') -> _ <= _ |- _ =>
             apply IH in H
         end.

Ltac size_of_node :=
  cbn [set_child set_attr nodekind node_lineno sibling child0 child1 child2 attr];
  repeat match goal with
         | |- context [tok_eqb ?a ?b] => destruct (tok_eqb a b)
         end;
  cbv [set_child set_attr nodekind node_lineno sibling child0 child1 child2 attr];
  cbn [tree_size]; rewrite ?count_nodes_eq; cbn [tree_size].

Ltac keyword_consumed Htok :=
  match type of Htok with
  | token ?s = ?k =>
      let F := fresh "Hkw" in
      assert (F : remaining (match_ k s) + 1 <= remaining s)
        by (apply remaining_match_hit; [exact Htok|discriminate])
  end.

Ltac stmt_size Htok := 
  keyword_consumed Htok; tokens_of_matches; sizes_back; size_of_node; lia.

Lemma read_stmt_size s r s' :
  token s = READ -> read_stmt s = Some (r, s') ->
  tree_size r + remaining s' <= remaining s.
Proof.
  intros Htok H. unfold read_stmt in H. take_apart H. stmt_size Htok.
Qed.

Lemma rules_size : forall n,
  (forall s r s', stmt_sequence n s = Some (r, s') ->
     tree_size r + remaining s' <= remaining s) /\
  (forall t s r s', stmt_sequence_loop n t s = Some (r, s') ->
     tree_size r + remaining s' <= tree_size t + remaining s) /\
  (forall s r s', statement n s = Some (r, s') ->
     tree_size r + remaining s' <= remaining s) /\
  (forall s r s', token s = IF -> if_stmt n s = Some (r, s') ->
     tree_size r + remaining s' <= remaining s) /\
  (forall s r s', token s = REPEAT -> repeat_stmt n s = Some (r, s') ->
     tree_size r + remaining s' <= remaining s) /\
  (forall s r s', token s = ID -> assign_stmt n s = Some (r, s') ->
     tree_size r + remaining s' <= remaining s) /\
  (forall s r s', token s = WRITE -> write_stmt n s = Some (r, s') ->
     tree_size r + remaining s' <= remaining s) /\
  (forall s r s', token s = WHILE -> while_stmt n s = Some (r, s') ->
     tree_size r + remaining s' <= remaining s) /\
  (forall s r s', token s = DO -> dowhile_stmt n s = Some (r, s') ->
     tree_size r + remaining s' <= remaining s) /\
  (forall s r s', token s = FOR -> for_stmt n s = Some (r, s') ->
     tree_size r + remaining s' <= remaining s) /\
  (forall s r s', exp n s = Some (r, s') ->
     tree_size r + remaining s' <= remaining s) /\
  (forall s r s', simple_exp n s = Some (r, s') ->
     tree_size r + remaining s' <= remaining s) /\
  (forall t s r s', simple_exp_loop n t s = Some (r, s') ->
     tree_size r + remaining s' <= tree_size t + remaining s) /\
  (forall s r s', term n s = Some (r, s') ->
     tree_size r + remaining s' <= remaining s) /\
  (forall t s r s', term_loop n t s = Some (r, s') ->
     tree_size r + remaining s' <= tree_size t + remaining s) /\
  (forall s r s', factor n s = Some (r, s') ->
     tree_size r + remaining s' <= remaining s).
Proof.
  induction n as [|n IH].
  - repeat match goal with |- _ /\ _ => split end; intros; discriminate.
  - destruct IH as (Hseq & Hseql & Hstmt & Hif & Hrepeat & Hassign & Hwrite &
                    Hwhile & Hdo & Hfor & Hexp & Hsimple & Hsimplel & Hterm &
                    Hterml & Hfactor).
    repeat match goal with |- _ /\ _ => split end.
    + (* stmt_sequence *)
      intros s r s' H. rewrite stmt_sequence_eq in H.
      apply bind_Some in H as (t & s1 & H1 & H2).
      apply Hstmt in H1. apply Hseql in H2. lia.
    + (* its loop *)
      intros t s r s' H. rewrite stmt_sequence_loop_eq in H.
      apply bind_Some in H as (tok & s0 & H0 & H).
      apply eval_Some in H0 as [-> ->].
      destruct (ends_sequence (token s)).
      * apply ret_Some in H as [-> ->]. lia.
      * apply bind_Some in H as (u & s1 & H1 & H).
        apply exec_Some in H1 as ->.
        apply bind_Some in H as (q & s2 & H2 & H).
        apply Hstmt in H2. apply Hseql in H.
        rewrite tree_size_link in H.
        pose proof (remaining_match SEMI s). lia.
    + (* statement *)
      intros s r s' H. rewrite statement_eq in H.
      apply bind_Some in H as (tok & s0 & H0 & H).
      apply eval_Some in H0 as [-> ->].
      destruct (token s) eqn:Etok;
        try (apply skip_unexpected_Some in H as [-> ->];
             rewrite remaining_skip; pose proof (remaining_getToken s);
             simpl; lia);
        eauto.
      apply read_stmt_size; assumption.
    + intros s r s' Htok H. rewrite if_stmt_eq in H.
      take_apart H; stmt_size Htok.
    + intros s r s' Htok H. rewrite repeat_stmt_eq in H.
      take_apart H; stmt_size Htok.
    + intros s r s' Htok H. rewrite assign_stmt_eq in H.
      take_apart H; stmt_size Htok.
    + intros s r s' Htok H. rewrite write_stmt_eq in H.
      take_apart H; stmt_size Htok.
    + intros s r s' Htok H. rewrite while_stmt_eq in H.
      take_apart H; stmt_size Htok.
    + intros s r s' Htok H. rewrite dowhile_stmt_eq in H.
      take_apart H; stmt_size Htok.
    + intros s r s' Htok H. rewrite for_stmt_eq in H.
      take_apart H; stmt_size Htok.
    + (* exp *)
      intros s r s' H. rewrite exp_eq in H. take_apart H.
      * match goal with
        | Hop : is_relop (token ?s1) = true |- _ =>
            assert (remaining (match_ (token s1) s1) + 1 <= remaining s1)
              by (apply remaining_match_hit;
                  [reflexivity|intros E; rewrite E in Hop; discriminate Hop])
        end.
        sizes_back. size_of_node. lia.
      * sizes_back. lia.
    + (* simple_exp *)
      intros s r s' H. rewrite simple_exp_eq in H.
      apply bind_Some in H as (t & s1 & H1 & H2).
      apply Hterm in H1. apply Hsimplel in H2. lia.
    + (* its loop *)
      intros t s r s' H. rewrite simple_exp_loop_eq in H.
      apply bind_Some in H as (tok & s0 & H0 & H).
      apply eval_Some in H0 as [-> ->].
      destruct (is_addop (token s)) eqn:Eop.
      * assert (remaining (match_ (token s) s) + 1 <= remaining s)
          by (apply remaining_match_hit;
              [reflexivity|intros E; rewrite E in Eop; discriminate Eop]).
        take_apart H.
        match goal with
        | Hc : term n _ = Some _ |- _ => apply Hterm in Hc
        end.
        match goal with
        | Hl : simple_exp_loop n _ _ = Some _ |- _ =>
            apply Hsimplel in Hl; revert Hl
        end.
        size_of_node. lia.
      * apply ret_Some in H as [-> ->]. lia.
    + (* term *)
      intros s r s' H. rewrite term_eq in H.
      apply bind_Some in H as (t & s1 & H1 & H2).
      apply Hfactor in H1. apply Hterml in H2. lia.
    + (* its loop *)
      intros t s r s' H. rewrite term_loop_eq in H.
      apply bind_Some in H as (tok & s0 & H0 & H).
      apply eval_Some in H0 as [-> ->].
      destruct (is_mulop (token s)) eqn:Eop.
      * assert (remaining (match_ (token s) s) + 1 <= remaining s)
          by (apply remaining_match_hit;
              [reflexivity|intros E; rewrite E in Eop; discriminate Eop]).
        take_apart H.
        match goal with
        | Hc : factor n _ = Some _ |- _ => apply Hfactor in Hc
        end.
        match goal with
        | Hl : term_loop n _ _ = Some _ |- _ =>
            apply Hterml in Hl; revert Hl
        end.
        size_of_node. lia.
      * apply ret_Some in H as [-> ->]. lia.
    + (* factor *)
      intros s r s' H. rewrite factor_eq in H.
      apply bind_Some in H as (tok & s0 & H0 & H).
      apply eval_Some in H0 as [-> ->].
      destruct (token s) eqn:Etok;
        try (apply skip_unexpected_Some in H as [-> ->];
             rewrite remaining_skip; pose proof (remaining_getToken s);
             simpl; lia);
        take_apart H.
      * stmt_size Etok.
      * stmt_size Etok.
      * tokens_of_matches. sizes_back. lia.
Qed.

(** X9: the tree has no more nodes than the source has tokens.  Each node
    that a rule creates is paid for by a token that the rule consumes, so
    whatever [parse] returns, with or without diagnostics, counts at most
    as many nodes as there are tokens in the source. *)
Theorem tree_no_larger_than_source s r s' :
  returns parse s r s' -> tree_size r <= List.length (source s).
Proof.
  intros [n H]. unfold parse in H.
  rewrite bind_exec in H.
  apply bind_Some in H as (t & s1 & H1 & H).
  rewrite bind_eval in H.
  apply bind_Some in H as (u & s2 & _ & H).
  apply ret_Some in H as [-> _].
  destruct (rules_size n) as (Hseq & _).
  apply Hseq in H1.
  pose proof (remaining_primed s). lia.
Qed.

Lemma tree_no_larger_than_source_witness :
  returns parse (initial if_malformed) (Some if_malformed_tree)
    if_malformed_end /\
  tree_size (Some if_malformed_tree) <=
    List.length (source (initial if_malformed)).
Proof.
  assert (R : returns parse (initial if_malformed) (Some if_malformed_tree)
                if_malformed_end).
  { exists 20. vm_compute. reflexivity. }
  exact (conj R (tree_no_larger_than_source _ _ _ R)).
Defined.

(** ** Where the rules stop *)

Lemma sequence_stops_at_terminator : forall n t s r s',
  stmt_sequence_loop n t s = Some (r, s') -> ends_sequence (token s') = true.
Proof.
  induction n as [|n IH]; intros t s r s' H; [discriminate|].
  rewrite stmt_sequence_loop_eq in H.
  apply bind_Some in H as (tok & s0 & H0 & H).
  apply eval_Some in H0 as [-> ->].
  destruct (ends_sequence (token s)) eqn:E.
  - apply ret_Some in H as [_ ->]. exact E.
  - apply bind_Some in H as (u & s1 & _ & H).
    apply bind_Some in H as (q & s2 & _ & H).
    exact (IH _ _ _ _ H).
Qed.

(** X10: [parse] stops only where a statement sequence can end, and
    what it has not parsed it has not consumed.  The lookahead that
    [parse] leaves is the end-of-input token or one of [end], [else],
    [until], [while], [endwhile] and [enddo].  In the second case the
    flag is up, the end-of-code diagnostic is the last entry of the
    listing, and that token and the tokens after it are still unread:
    the lookahead followed by what the scanner holds is the rest of the
    source from that token on. *)
Theorem parse_stops_at_terminator s r s' :
  returns parse s r s' ->
  ends_sequence (token s') = true /\
  (token s' <> ENDFILE ->
   Error s' = true /\
   (exists out,
      listing s' = out ++ [SyntaxErrorAt (lineno s') code_ends_before_file]) /\
   exists consumed, source s = consumed ++ lookahead s' :: source s').
Proof.
  intros [n H]. unfold parse in H.
  rewrite bind_exec in H.
  apply bind_Some in H as (t & s1 & H1 & H).
  rewrite bind_eval in H.
  assert (Hend : ends_sequence (token s1) = true).
  { destruct n as [|n]; [discriminate|].
    rewrite stmt_sequence_eq in H1.
    apply bind_Some in H1 as (q & s2 & _ & H1).
    exact (sequence_stops_at_terminator _ _ _ _ _ H1). }
  pose proof (er_stmt_sequence _ (still_unread_rules n) _ _ _ H1) as Hrest.
  destruct (tok_eqb (token s1) ENDFILE) eqn:E.
  - apply ret_Some in H as [_ ->]. split; [exact Hend|].
    apply tok_eqb_eq in E. intros Hne. contradiction.
  - simpl in H. unfold bind, exec, ret in H. injection H as _ <-.
    split; [exact Hend|]. intros _. split; [reflexivity|].
    split; [eexists; reflexivity|].
    apply tok_eqb_neq in E.
    destruct Hrest as [(Ht & _)|(consumed & Hc)]; [contradiction|].
    change (lookahead (syntaxError code_ends_before_file s1)) with (lookahead s1).
    change (source (syntaxError code_ends_before_file s1)) with (source s1).
    destruct (source s) as [|tk rest] eqn:Es.
    + exfalso. apply E.
      assert (K : lookahead (getToken s) :: source (getToken s) =
                  [mkToken ENDFILE EmptyString (lineno s)])
        by (unfold getToken; rewrite Es; reflexivity).
      rewrite K in Hc. destruct consumed as [|x consumed].
      * injection Hc as Hc _ _ _. symmetry. exact Hc.
      * injection Hc as _ Hc. destruct consumed; discriminate Hc.
    + exists consumed. rewrite <- Hc.
      rewrite (lookahead_getToken _ _ _ Es), source_getToken, Es. reflexivity.
Qed.

Lemma parse_stops_at_terminator_witness :
  returns parse (initial stray_end) (Some (read_node 1 "x"))
    (syntaxError code_ends_before_file (primed stray_end 2)) /\
  ends_sequence
    (token (syntaxError code_ends_before_file (primed stray_end 2))) = true /\
  (token (syntaxError code_ends_before_file (primed stray_end 2)) <> ENDFILE ->
   Error (syntaxError code_ends_before_file (primed stray_end 2)) = true /\
   (exists out,
      listing (syntaxError code_ends_before_file (primed stray_end 2)) =
      out ++ [SyntaxErrorAt
                (lineno (syntaxError code_ends_before_file (primed stray_end 2)))
                code_ends_before_file]) /\
   exists consumed,
     source (initial stray_end) =
     consumed ++
     lookahead (syntaxError code_ends_before_file (primed stray_end 2)) ::
     source (syntaxError code_ends_before_file (primed stray_end 2))).
Proof.
  assert (R : returns parse (initial stray_end) (Some (read_node 1 "x"))
                (syntaxError code_ends_before_file (primed stray_end 2))).
  { exists 20. vm_compute. reflexivity. }
  exact (conj R (parse_stops_at_terminator _ _ _ R)).
Defined.

(** X11: an expression parsed without diagnostics is an expression of
    the grammar.  When [exp] returns with the error flag down, the flag
    was down before, the result is not null, and the tokens between the
    cursor before and the cursor after spell an expression of the
    grammar of which the result is the tree. *)
Theorem clean_expression_is_grammatical s r s' :
  returns exp s r s' -> Error s' = false ->
  Error s = false /\
  exists t l, r = Some t /\ g_exp l t /\ consumes l s s'.
Proof.
  intros [n H] Hc.
  destruct (rules_follow_grammar n)
    as (_ & _ & _ & _ & _ & _ & _ & _ & _ & _ & Hexp & _).
  destruct (Hexp _ _ _ H Hc) as (Hs & t & -> & l & Hg & Hl).
  split; [exact Hs|]. exists t, l. auto.
Qed.

Lemma clean_expression_is_grammatical_witness :
  returns exp (primed two_plus_three_times_four 0)
    (Some two_plus_three_times_four_tree) (primed two_plus_three_times_four 5) /\
  Error (primed two_plus_three_times_four 5) = false /\
  Error (primed two_plus_three_times_four 0) = false /\
  exists t l,
    Some two_plus_three_times_four_tree = Some t /\ g_exp l t /\
    consumes l (primed two_plus_three_times_four 0)
      (primed two_plus_three_times_four 5).
Proof.
  assert (R : returns exp (primed two_plus_three_times_four 0)
                (Some two_plus_three_times_four_tree)
                (primed two_plus_three_times_four 5)).
  { exists 20. vm_compute. reflexivity. }
  exact (conj R (conj eq_refl
           (clean_expression_is_grammatical _ _ _ R eq_refl))).
Defined.

(** ** A missing semicolon *)

Lemma getToken_relisted s flag out :
  getToken (relisted s flag out) = relisted (getToken s) flag out.
Proof. unfold getToken, relisted. simpl. destruct (source s); reflexivity. Qed.

Lemma consumes_relisted flag out l : forall s s',
  consumes l s s' -> consumes l (relisted s flag out) (relisted s' flag out).
Proof.
  induction l as [|tk l IH]; intros s s' H.
  - simpl in H. subst. reflexivity.
  - destruct H as [E H]. split; [exact E|].
    rewrite getToken_relisted. apply IH. exact H.
Qed.

Lemma statement_first D l t s s' :
  g_statement D l t -> consumes l s s' -> starts_statement (token s) = true.
Proof.
  intros Hg Hc. destruct Hg; destruct Hc as [<- _];
    cbn [tk_kind lookahead] in *;
    match goal with H : token s = _ |- _ => rewrite H; reflexivity end.
Qed.

Lemma match_miss_relisted k s :
  token s <> k ->
  match_ k s =
  relisted s true (listing s ++ unexpected_token_report s ++ [Text "      "]).
Proof.
  intros H. rewrite (match_miss _ _ H).
  unfold fprintf_listing, printToken, syntaxError, relisted,
    unexpected_token_report.
  simpl. rewrite <- !app_assoc. reflexivity.
Qed.

(** X12: a missing semicolon costs one report and no statement.  When a
    statement sequence of the grammar is followed directly by one more
    statement of the grammar that does not start with [while],
    [stmt_sequence] reports the token that stands where the semicolon is
    due, consumes nothing for it, and returns the same chain as if the
    semicolon were there: the statement is linked as the last sibling. *)
Theorem missing_semicolon_is_survived l1 t1 l2 t2 s s1 s2 :
  g_sequence g_direction l1 t1 -> g_statement g_direction l2 t2 ->
  consumes l1 s s1 -> consumes l2 s1 s2 ->
  ends_sequence (token s1) = false -> ends_sequence (token s2) = true ->
  returns stmt_sequence s (Some (append_sibling t1 t2))
    (relisted s2 true
       (listing s ++ unexpected_token_report s1 ++ [Text "      "])).
Proof.
  intros Hg1 Hg2 Hc1 Hc2 He1 He2.
  pose proof (statement_first _ _ _ _ _ Hg2 Hc2) as Hfirst.
  apply grammar_is_lenient in Hg1. apply grammar_is_lenient in Hg2.
  assert (Hmiss : match_ SEMI s1 =
                  relisted s1 true
                    (listing s ++ unexpected_token_report s1 ++ [Text "      "])).
  { rewrite match_miss_relisted.
    - destruct (consumes_quiet _ _ _ Hc1) as [_ ->]. reflexivity.
    - intros E. rewrite E in Hfirst. discriminate Hfirst. }
  destruct programs_settle as [Kstmt Kseq].
  apply settles_returns. apply (Kseq _ _ Hg1 _ _ Hc1).
  { destruct (token s1); try discriminate Hfirst; reflexivity. }
  apply (consumes_relisted true
           (listing s ++ unexpected_token_report s1 ++ [Text "      "]))
    in Hc2.
  apply (Kstmt _ _ Hg2) in Hc2.
  2: { cbn [relisted token].
       destruct (token s2); try discriminate He2; reflexivity. }
  destruct Hc2 as [n Hn]. exists (S (S n)). intros m Hm.
  destruct m as [|m]; [lia|].
  rewrite stmt_sequence_loop_eq, bind_eval, He1, bind_exec, Hmiss.
  rewrite (bind_run _ _ _ _ _ (Hn m ltac:(lia))).
  destruct m as [|m]; [lia|].
  apply stmt_sequence_loop_stop. exact He2.
Qed.

Lemma missing_semicolon_is_survived_witness :
  returns stmt_sequence (primed two_reads 0)
    (Some (append_sibling (read_node 1 "x") (read_node 1 "y")))
    (relisted (primed two_reads 4) true
       (listing (primed two_reads 0) ++
        unexpected_token_report (primed two_reads 2) ++ [Text "      "])).
Proof.
  apply (missing_semicolon_is_survived
           [sym READ "read"; ident "x"] (read_node 1 "x")
           [sym READ "read"; ident "y"] (read_node 1 "y")
           (primed two_reads 0) (primed two_reads 2) (primed two_reads 4)).
  - apply g_single. apply (g_read (sym READ "read") (ident "x")); reflexivity.
  - apply (g_read (sym READ "read") (ident "y")); reflexivity.
  - vm_compute. repeat split.
  - vm_compute. repeat split.
  - reflexivity.
  - reflexivity.
Defined.

(** ** Two runs over the same tokens *)







